(** * Hazen (Scottish ACR fork): phantom-geometry measurement engine

    A shallow embedding of the measurement code of [hazenlib]
    ([slice_width.py], [tasks/acr_uniformity.py], [tasks/acr_ghosting.py],
    [relaxometry.py]) together with the properties the specification
    states about it.

    Conventions of the embedding.
    - Python integers are [Z]; NumPy floating-point values are exact
      rationals [Q] (the arithmetic is idealised: no rounding error, and
      no overflow but where the outcome of the code rests on it, as for
      the integer NumPy stores for [nan]).  Where NumPy produces [nan]
      the embedding uses [None].
    - A one-dimensional array is a [list]; an image is a list of rows.
    - A Python exception is a value of [exn] returned on the left of a sum. *)

From Stdlib Require Import ZArith QArith Qabs Qround List Lia Bool.
From Stdlib Require String.
Import String.StringSyntax.
Delimit Scope string_scope with string.
From Stdlib Require Import Permutation Sorted.
From Stdlib Require Import Reals Qreals Lra.
Import ListNotations.

Local Open Scope Z_scope.

(** ** Exceptions the modelled code raises *)

Inductive exn : Type :=
| SystemExit (msg : String.string)   (* [sys.exit(msg)] *)
| ValueError                  (* NumPy: reduction of an empty array, shape mismatch *)
| IndexError                  (* NumPy / Python: index out of range *)
| TypeError                   (* arithmetic on [None] *)
| AttributeError              (* an attribute that was never set *)
| AxisError                   (* NumPy: an axis the array does not have *)
| cv2_error.                  (* raised inside OpenCV *)

Definition result (A : Type) : Type := (exn + A)%type.

Definition ret {A} (a : A) : result A := inr a.
Definition raise {A} (e : exn) : result A := inl e.
Definition bind {A B} (m : result A) (k : A -> result B) : result B :=
  match m with
  | inl e => inl e
  | inr a => k a
  end.

Notation "x <- m ;; k" := (bind m (fun x => k))
  (at level 61, m at next level, right associativity).

(** ** The Python built-ins the code uses *)

Module Py.

Section Sorted.
Context {A : Type} (key : A -> Q).

Fixpoint insert (a : A) (l : list A) : list A :=
  match l with
  | [] => [a]
  | b :: l' => if Qle_bool (key a) (key b) then a :: b :: l' else b :: insert a l'
  end.

(** [sorted(l, key=key)]: a stable sort, ascending in the key.  Every
    stable sort returns the same list, so insertion from the right
    stands for it. *)
Definition sorted (l : list A) : list A := fold_right insert [] l.
End Sorted.

(** Slices [l[a:b]] for [0 <= a <= b] and [l[-k:]]. *)
Definition slice {A} (a b : nat) (l : list A) : list A := firstn (b - a) (skipn a l).
Definition slice_last {A} (k : nat) (l : list A) : list A := skipn (length l - k) l.

(** [range(a, b)] as a list. *)
Definition range (a b : Z) : list Z :=
  map (fun i => a + Z.of_nat i) (seq 0 (Z.to_nat (b - a))).

End Py.

(** ** The NumPy operations the code uses *)

Module Np.

(** The largest number of items of a [float64] array: its size in bytes
    has to fit NumPy's signed 64-bit index type.  Whether a smaller array
    fits the memory of the machine is not modelled. *)
Definition max_length : Z := 2 ^ 60 - 1.

(** NumPy refuses a negative number of items and one beyond
    [max_length], both with [ValueError]. *)
Definition refused (n : Z) : bool := (n <? 0) || (max_length <? n).

(** [np.zeros(n)], [np.ones(n)] for an integer [n]. *)
Definition zeros (n : Z) : result (list Q) :=
  if refused n then raise ValueError else ret (repeat 0%Q (Z.to_nat n)).
Definition ones (n : Z) : result (list Q) :=
  if refused n then raise ValueError else ret (repeat 1%Q (Z.to_nat n)).

(** [np.linspace(start, stop, num)]: [num] evenly spaced samples, both
    ends included; a single sample is [start]. *)
Definition linspace (start stop : Q) (num : Z) : result (list Q) :=
  let delta := (stop - start)%Q in
  if refused num then raise ValueError
  else if num <=? 1
  then ret (map (fun i => (inject_Z (Z.of_nat i) * delta + start)%Q)
                (seq 0 (Z.to_nat num)))
  else ret (map (fun i => Qred (inject_Z (Z.of_nat i) * (delta / inject_Z (num - 1)) + start)%Q)
                (seq 0 (Z.to_nat num))).

Definition sum (l : list Q) : Q := fold_left (fun a x => Qred (a + x)) l 0%Q.

Definition image : Type := list (list Z).
Definition mask : Type := list (list bool).

Definition flatten {A} (m : list (list A)) : list A := concat m.

(** [np.max] of an integer array; an empty array has no maximum. *)
Definition max (a : image) : result Z :=
  match flatten a with
  | [] => raise ValueError
  | p :: ps => ret (fold_left Z.max ps p)
  end.

(** [a <= x] for a scalar [x]. *)
Definition le_scalar (a : image) (x : Z) : mask := map (map (fun p => p <=? x)) a.

(** Truncation of a float towards zero, [astype(int)]. *)
Definition trunc (q : Q) : Z := if Qle_bool 0 q then Qfloor q else Qceiling q.

(** The integer NumPy (on x86-64) stores for [nan.astype(int)]. *)
Definition nan_astype_int : Z := - 2 ^ 63.

(** Arithmetic on an [int64] scalar wraps around. *)
Definition wrap_int64 (z : Z) : Z := (z + 2 ^ 63) mod 2 ^ 64 - 2 ^ 63.

Definition astype_int (q : option Q) : Z :=
  match q with
  | Some q => trunc q
  | None => nan_astype_int
  end.

(** [np.mean]; the mean of nothing is [nan]. *)
Definition mean (l : list Q) : option Q :=
  match l with
  | [] => None
  | _ => Some (Qred (sum l / inject_Z (Z.of_nat (length l))))
  end.

(** [np.median]: the middle element of the sorted values, or the mean of
    the two middle ones; [nan] for no values. *)
Definition median (l : list Q) : option Q :=
  let s := Py.sorted (fun q => q) l in
  let n := length l in
  match n with
  | O => None
  | _ => if Nat.even n
         then Some (Qred ((nth (n / 2 - 1) s 0 + nth (n / 2) s 0) / 2))%Q
         else Some (nth (n / 2) s 0%Q)
  end.

(** Strict comparison of floats. *)
Definition ltb (a b : Q) : bool := negb (Qle_bool b a).

(** Rounding to the nearest integer, halves to the even neighbour
    ([np.round], and Python's [round] of a float). *)
Definition round_half_even (q : Q) : Z :=
  let f := Qfloor q in
  let d := (q - inject_Z f)%Q in
  if ltb d (1 # 2) then f
  else if ltb (1 # 2) d then f + 1
  else if Z.even f then f else f + 1.

(** [np.percentile(l, q)] with the default linear interpolation between
    the two nearest ranks; [nan] for no values. *)
Definition percentile (l : list Q) (q : Q) : option Q :=
  let s := Py.sorted (fun v => v) l in
  match length l with
  | O => None
  | S n1 =>
      let rank := (q / 100 * inject_Z (Z.of_nat n1))%Q in
      let lo := Z.to_nat (Qfloor rank) in
      let hi := Nat.min (S lo) n1 in
      let gamma := (rank - inject_Z (Qfloor rank))%Q in
      Some (Qred (nth lo s 0 + (nth hi s 0 - nth lo s 0) * gamma))%Q
  end.

(** [np.argwhere(l < v)] for a one-dimensional array. *)
Definition argwhere_lt (l : list Q) (v : Q) : list Z :=
  map fst (filter (fun '(i, x) => ltb x v) (combine (Py.range 0 (Z.of_nat (length l))) l)).

(** The coefficient array [c] of [np.poly1d(l)]: leading zeros are
    dropped, and the zero polynomial keeps a single [0]. *)
Fixpoint trim_zeros (l : list Q) : list Q :=
  match l with
  | [] => []
  | c :: l' => if Qeq_bool c 0 then trim_zeros l' else l
  end.

Definition poly1d_c (l : list Q) : list Q :=
  match trim_zeros l with
  | [] => [0%Q]
  | c => c
  end.

(** Indexing [c[i]]. *)
Definition index {A} (l : list A) (i : nat) : result A :=
  match nth_error l i with
  | Some a => ret a
  | None => raise IndexError
  end.

(** [np.poly1d(l)(x)]: Horner evaluation, at a scalar and at an array. *)
Definition polyval (l : list Q) (x : Q) : Q :=
  fold_left (fun y pv => Qred (y * x + pv)) l 0%Q.

Definition poly1d_call (l : list Q) (xs : list Q) : list Q := map (polyval l) xs.

Fixpoint map2 (op : Q -> Q -> Q) (a b : list Q) : list Q :=
  match a, b with
  | x :: a', y :: b' => op x y :: map2 op a' b'
  | _, _ => []
  end.

(** An elementwise operation on two one-dimensional arrays: equal
    lengths, or one of them of length one, which is then stretched;
    other shapes do not broadcast. *)
Definition broadcast (op : Q -> Q -> Q) (a b : list Q) : result (list Q) :=
  if Nat.eqb (length a) (length b) then ret (map2 op a b)
  else match a, b with
       | [x], _ => ret (map (op x) b)
       | _, [y] => ret (map (fun x => op x y) a)
       | _, _ => raise ValueError
       end.

Definition add := broadcast (fun x y => Qred (x + y)).
Definition sub := broadcast (fun x y => Qred (x - y)).
Definition square (a : list Q) : list Q := map (fun x => Qred (x * x)) a.

(** [np.nonzero] of a two-dimensional array: the positions (row, column)
    of the entries that are not zero, row by row. *)
Definition nonzero2 {A} (nz : A -> bool) (a : list (list A)) : list (Z * Z) :=
  flat_map (fun '(r, row) =>
              map (fun '(c, _) => (r, c))
                  (filter (fun '(_, v) => nz v)
                          (combine (Py.range 0 (Z.of_nat (length row))) row)))
           (combine (Py.range 0 (Z.of_nat (length a))) a).

(** An index along an axis of length [n]: negative indices count from
    the end, anything else outside [0, n) is an error. *)
Definition axis_index (i : Z) (n : nat) : result nat :=
  if (0 <=? i) && (i <? Z.of_nat n) then ret (Z.to_nat i)
  else if (- Z.of_nat n <=? i) && (i <? 0) then ret (Z.to_nat (i + Z.of_nat n))
  else raise IndexError.

(** The shape (rows, columns) of a two-dimensional array. *)
Definition shape {A} (a : list (list A)) : nat * nat := (length a, length (hd [] a)).

(** [a[r, c]] and [a[r, c] = v] on a two-dimensional array. *)
Definition getitem2 {A} (d : A) (a : list (list A)) (r c : Z) : result A :=
  r' <- axis_index r (fst (shape a)) ;;
  c' <- axis_index c (snd (shape a)) ;;
  ret (nth c' (nth r' a []) d).

Fixpoint set_nth {A} (n : nat) (v : A) (l : list A) : list A :=
  match l, n with
  | [], _ => []
  | _ :: l', O => v :: l'
  | x :: l', S n' => x :: set_nth n' v l'
  end.

Definition setitem2 {A} (a : list (list A)) (r c : Z) (v : A) : result (list (list A)) :=
  r' <- axis_index r (fst (shape a)) ;;
  c' <- axis_index c (snd (shape a)) ;;
  ret (set_nth r' (set_nth c' v (nth r' a [])) a).

(** Indexing with two index arrays, [a[rs, cs]]. *)
Fixpoint take2 {A} (d : A) (a : list (list A)) (idx : list (Z * Z)) : result (list A) :=
  match idx with
  | [] => ret []
  | (r, c) :: idx' =>
      v <- getitem2 d a r c ;;
      vs <- take2 d a idx' ;;
      ret (v :: vs)
  end.

Definition count_nonzero (l : list Z) : Z :=
  Z.of_nat (length (filter (fun v => negb (v =? 0)) l)).

Definition count_true (m : mask) : Z :=
  Z.of_nat (length (filter (fun b : bool => b) (flatten m))).

End Np.

(** ** [scipy.ndimage]: connected components and centres of mass *)

Module Ndimage.

Definition labels : Type := list (list Z).

Definition get {A} (d : A) (m : list (list A)) (r c : nat) : A :=
  nth c (nth r m []) d.

Definition set {A} (m : list (list A)) (r c : nat) (v : A) : list (list A) :=
  map (fun '(i, row) =>
         if Nat.eqb i r
         then map (fun '(j, x) => if Nat.eqb j c then v else x)
                  (combine (seq 0 (length row)) row)
         else row)
      (combine (seq 0 (length m)) m).

(** Has pixel [(r, c)] a 4-neighbour labelled [k]? *)
Definition touches (L : labels) (k : Z) (r c : nat) : bool :=
  (match r with O => false | S r' => get 0 L r' c =? k end)
  || (get 0 L (S r) c =? k)
  || (match c with O => false | S c' => get 0 L r c' =? k end)
  || (get 0 L r (S c) =? k).

(** One sweep of the flood fill of label [k] over the foreground [b]. *)
Definition grow (b : Np.mask) (k : Z) (L : labels) : labels :=
  map (fun '(r, row) =>
         map (fun '(c, v) =>
                if get false b r c && (v =? 0) && touches L k r c then k else v)
             (combine (seq 0 (length row)) row))
      (combine (seq 0 (length L)) L).

Fixpoint iter {A} (n : nat) (f : A -> A) (a : A) : A :=
  match n with
  | O => a
  | S n' => iter n' f (f a)
  end.

Definition coords {A} (m : list (list A)) : list (nat * nat) :=
  flat_map (fun '(r, row) => map (fun c => (r, c)) (seq 0 (length row)))
           (combine (seq 0 (length m)) m).

(** [ndimage.label(b)] with the default (4-connected) structure: the
    components of the foreground, numbered from 1 in the order their
    first pixel is met row by row, and their number. *)
Definition label (b : Np.mask) : labels * Z :=
  let n := length (Np.flatten b) in
  fold_left
    (fun '(L, count) '(r, c) =>
       if get false b r c && (get 0 L r c =? 0)
       then (iter n (grow b (count + 1)) (set L r c (count + 1)), count + 1)
       else (L, count))
    (coords b)
    (map (map (fun _ => 0)) b, 0).

(** [ndimage.center_of_mass(arr, L, k)]: the intensity-weighted mean
    position (row, column) of the pixels labelled [k]; [nan] when their
    intensities add up to zero. *)
Definition center_of_mass (arr : Np.image) (L : labels) (k : Z) : option (Q * Q) :=
  let px := filter (fun '(r, c) => get 0 L r c =? k) (coords arr) in
  let w := fun '(r, c) => inject_Z (get 0 arr r c) in
  let total := Np.sum (map w px) in
  if Qeq_bool total 0 then None
  else Some (Qred (Np.sum (map (fun '(r, c) => inject_Z (Z.of_nat r) * w (r, c)) px) / total),
             Qred (Np.sum (map (fun '(r, c) => inject_Z (Z.of_nat c) * w (r, c)) px) / total))%Q.

End Ndimage.

(** ** slice_width.py *)

Module SliceWidth.

(** A rod with its centroid.  The coordinates are numbers: a centroid
    that is [nan] is the [None] of [get_rods]. *)
Record Rod : Type := mkRod { rod_x : Q; rod_y : Q }.

(** [sort_rods]: the three rods with the largest [y] first (the lower row
    of the image), then the middle three, then the three with the smallest
    [y]; each row ordered by [x]. *)
Definition sort_rods (rods : list Rod) : list Rod :=
  let lower_row := Py.slice_last 3 (Py.sorted rod_y rods) in
  let lower_row := Py.sorted rod_x lower_row in
  let middle_row := Py.slice 3 6 (Py.sorted rod_y rods) in
  let middle_row := Py.sorted rod_x middle_row in
  let upper_row := Py.slice 0 3 (Py.sorted rod_y rods) in
  let upper_row := Py.sorted rod_x upper_row in
  lower_row ++ middle_row ++ upper_row.

(** All of the options, or [None] when one of them is. *)
Fixpoint all_some {A} (l : list (option A)) : option (list A) :=
  match l with
  | [] => Some []
  | None :: _ => None
  | Some a :: l' => option_map (cons a) (all_some l')
  end.

(** The threshold sweep of [get_rods]: the number of components of
    [img <= x] at every level [x] of [range(0, img_max)]. *)
Definition sweep (img_tmp : Np.image) (img_max : Z) : list Z :=
  map (fun x => snd (Ndimage.label (Np.le_scalar img_tmp x))) (Py.range 0 img_max).

(** [get_rods] on the pixel array of the image, under the NumPy versions
    that still provide [np.int].  The median of no qualifying level is
    [nan], stored as an integer below every pixel value.  The result is
    [None] when a centre of mass is [nan]. *)
Definition get_rods (arr : Np.image) : result (option (list Rod)) :=
  img_max <- Np.max arr ;;
  let img_tmp := arr in
  let no_region := sweep img_tmp img_max in
  let index :=
    map fst (filter (fun '(i, val) => val =? 10) (combine (Py.range 0 img_max) no_region)) in
  let thres_ind := Np.astype_int (Np.median (map inject_Z index)) in
  let img_threshold := Np.le_scalar img_tmp thres_ind in
  let '(labeled_array, num_features) := Ndimage.label img_threshold in
  if negb (num_features =? 10)
  then raise (SystemExit "Did not find the 9 rods"%string)
  else
    let rods := map (Ndimage.center_of_mass arr labeled_array) (Py.range 2 11) in
    let rods := option_map (map (fun x => mkRod (snd x) (fst x))) (all_some rods) in
    ret (option_map sort_rods rods).

(** Nine centroids forming three rows of three: each row lies strictly
    above the next in [y], and within a row the [x] coordinate tells the
    rods apart. *)
Definition x_distinct (row : list Rod) : Prop :=
  forall a b, In a row -> In b row -> (rod_x a == rod_x b)%Q -> a = b.

Definition rows_3x3 (upper middle lower : list Rod) : Prop :=
  length upper = 3%nat /\ length middle = 3%nat /\ length lower = 3%nat /\
  (forall a b, In a upper -> In b middle -> (rod_y a < rod_y b)%Q) /\
  (forall a b, In a middle -> In b lower -> (rod_y a < rod_y b)%Q) /\
  x_distinct upper /\ x_distinct middle /\ x_distinct lower.

(** A row read left to right. *)
Definition row_by_x (row r : list Rod) : Prop :=
  Permutation r row /\ StronglySorted (fun a b => (rod_x a <= rod_x b)%Q) r.

(** The five trapezoid coefficients, in the order of the Python list
    [[n_ramp, n_plateau, n_left_baseline, n_right_baseline, plateau_amplitude]]. *)
Record trap_coeffs : Type := TrapCoeffs {
  n_ramp : Z;
  n_plateau : Z;
  n_left_baseline : Z;
  n_right_baseline : Z;
  plateau_amplitude : Q
}.

(** [trapezoid]: the synthetic signal and the full width. *)
Definition trapezoid (c : trap_coeffs) : result (list Q * Z) :=
  left_baseline <-
    (if n_left_baseline c <? 1 then ret [] else Np.zeros (n_left_baseline c)) ;;
  ramps <-
    (if n_ramp c <? 1 then ret ([], [])
     else left_ramp <- Np.linspace 0 (plateau_amplitude c) (n_ramp c) ;;
          right_ramp <- Np.linspace (plateau_amplitude c) 0 (n_ramp c) ;;
          ret (left_ramp, right_ramp)) ;;
  let '(left_ramp, right_ramp) := ramps in
  plateau <-
    (if n_plateau c <? 1 then ret []
     else ones <- Np.ones (n_plateau c) ;;
          ret (map (fun o => (plateau_amplitude c * o)%Q) ones)) ;;
  right_baseline <-
    (if n_right_baseline c <? 1 then ret [] else Np.zeros (n_right_baseline c)) ;;
  let trap := left_baseline ++ left_ramp ++ plateau ++ right_ramp ++ right_baseline in
  let fwhm := n_plateau c + n_ramp c in
  ret (trap, fwhm).

(** Length contributed by a segment of nominal length [n]. *)
Definition seg_len (n : Z) : Z := if n <? 1 then 0 else n.

(** A segment of [trapezoid]: empty below one sample, else what NumPy
    builds. *)
Definition segment (n : Z) (built : result (list Q)) (s : list Q) : Prop :=
  if n <? 1 then s = [] else built = inr s.

(** No segment is longer than the longest array. *)
Definition fits (c : trap_coeffs) : Prop :=
  n_left_baseline c <= Np.max_length /\ n_ramp c <= Np.max_length /\
  n_plateau c <= Np.max_length /\ n_right_baseline c <= Np.max_length.

(** The initial guess of the trapezoid, under the NumPy versions whose
    [round] of a float is a float.  An unsupported slice thickness leaves
    [n_plateau] and [n_ramp] at [None], and the arithmetic on them raises
    [TypeError].  When no sample lies below the mean (a constant or an
    empty profile) the median is [nan]: the centre is the integer NumPy
    stores for it, the [int64] subtraction wraps around, and [trapezoid]
    is asked for a left baseline it cannot allocate.  The result is
    [None] for a signal that holds [nan], the amplitude of an empty
    profile. *)
Definition get_initial_trapezoid_fit_and_coefficients
    (profile : list Q) (slice_thickness : Q) : result (option (list Q * trap_coeffs)) :=
  let '(n_plateau, n_ramp) :=
    if Qeq_bool slice_thickness 3 then (Some 32, Some 7)
    else if Qeq_bool slice_thickness 5 then (Some 55, Some 47)
    else (None, None) in
  let below :=
    match Np.mean profile with
    | Some m => Np.argwhere_lt profile m
    | None => []
    end in
  let trapezoid_centre :=
    match Np.median (map inject_Z below) with
    | Some med => Np.round_half_even med
    | None => Np.nan_astype_int
    end in
  let n_total := Z.of_nat (length profile) in
  match n_plateau, n_ramp with
  | Some n_plateau, Some n_ramp =>
      let n_left_baseline :=
        Np.wrap_int64
          (trapezoid_centre - Np.round_half_even (inject_Z n_plateau / 2) - n_ramp - 1) in
      let n_right_baseline := n_total - n_left_baseline - 2 * n_ramp - n_plateau in
      match Np.percentile profile 5, Np.percentile profile 95 with
      | Some p5, Some p95 =>
          let plateau_amplitude := Qred (p5 - p95) in
          let trapezoid_fit_coefficients :=
            TrapCoeffs n_ramp n_plateau n_left_baseline n_right_baseline plateau_amplitude in
          fit <- trapezoid trapezoid_fit_coefficients ;;
          let '(trapezoid_fit_initial, _) := fit in
          ret (Some (trapezoid_fit_initial, trapezoid_fit_coefficients))
      | _, _ =>
          _ <- trapezoid (TrapCoeffs n_ramp n_plateau n_left_baseline n_right_baseline 0) ;;
          ret None
      end
  | _, _ => raise TypeError
  end.

(** The dictionary [baseline_correction] returns, as far as [fit_trapezoid]
    reads it; [baseline_fit] is the coefficient list handed to [np.poly1d]. *)
Record profiles : Type := Profiles {
  x_interpolated : list Q;
  baseline_fit : list Q;
  profile_interpolated : list Q;
  profile_corrected_interpolated : list Q
}.

Record base_coeffs : Type := BaseCoeffs { b0 : Q; b1 : Q; b2 : Q }.

Definition base_list (b : base_coeffs) : list Q := [b0 b; b1 b; b2 b].

(** [get_error]: the sum of squared differences between the interpolated
    profile and baseline plus trapezoid. *)
Definition get_error (x_interp profile_interp : list Q)
    (base : base_coeffs) (trap : trap_coeffs) : result Q :=
  fit <- trapezoid trap ;;
  let '(trapezoid_fit_temp, _) := fit in
  let baseline_fit_temp := Np.poly1d_call (base_list base) x_interp in
  model <- Np.add baseline_fit_temp trapezoid_fit_temp ;;
  diff <- Np.sub profile_interp model ;;
  ret (Np.sum (Np.square diff)).

(** The variables of the search loop. *)
Record fit_state : Type := FitState {
  baseline_fit_coefficients : base_coeffs;
  trapezoid_fit_coefficients : trap_coeffs;
  current_error : Q;
  cont : Z;
  j : Z
}.

(** The perturbation number [i] of a pass, applied to copies. *)
Definition perturb (i : Z) (b : base_coeffs) (t : trap_coeffs) : base_coeffs * trap_coeffs :=
  let '(BaseCoeffs c0 c1 c2) := b in
  let '(TrapCoeffs r p l rb a) := t in
  if i =? 0 then (BaseCoeffs (Qred (c0 - (1 # 10000))) c1 c2, t)
  else if i =? 1 then (BaseCoeffs (Qred (c0 + (1 # 10000))) c1 c2, t)
  else if i =? 2 then (BaseCoeffs c0 (Qred (c1 - (1 # 1000))) c2, t)
  else if i =? 3 then (BaseCoeffs c0 (Qred (c1 + (1 # 1000))) c2, t)
  else if i =? 4 then (BaseCoeffs c0 c1 (Qred (c2 - (1 # 10))), t)
  else if i =? 5 then (BaseCoeffs c0 c1 (Qred (c2 + (1 # 10))), t)
  else if i =? 6 then (b, TrapCoeffs (r - 1) p (l + 1) (rb + 1) a)
  else if i =? 7 then (b, TrapCoeffs (r + 1) p (l - 1) (rb - 1) a)
  else if i =? 8 then (b, TrapCoeffs r (p - 2) (l + 1) (rb + 1) a)
  else if i =? 9 then (b, TrapCoeffs r (p + 2) (l - 1) (rb - 1) a)
  else if i =? 10 then (b, TrapCoeffs r p (l - 1) (rb + 1) a)
  else if i =? 11 then (b, TrapCoeffs r p (l + 1) (rb - 1) a)
  else if i =? 12 then (b, TrapCoeffs r p l rb (Qred (a - (1 # 10))))
  else if i =? 13 then (b, TrapCoeffs r p l rb (Qred (a + (1 # 10))))
  else (b, t).

(** One turn of the [for i in range(14)] loop. *)
Definition fit_step (x_interp profile_interp : list Q) (i : Z) (st : fit_state)
    : result fit_state :=
  let '(baseline_fit_coefficients_temp, trapezoid_fit_coefficients_temp) :=
    perturb i (baseline_fit_coefficients st) (trapezoid_fit_coefficients st) in
  new_error <- get_error x_interp profile_interp
                 baseline_fit_coefficients_temp trapezoid_fit_coefficients_temp ;;
  if Np.ltb new_error (current_error st)
  then
    if 6 <? i
    then ret (FitState (baseline_fit_coefficients st) trapezoid_fit_coefficients_temp
                new_error 1 (j st))
    else ret (FitState baseline_fit_coefficients_temp (trapezoid_fit_coefficients st)
                new_error 1 (j st))
  else ret st.

(** The turns of the [for] loop for the perturbations [l], from an earlier
    outcome: an exception ends them. *)
Definition steps (x_interp profile_interp : list Q) (l : list Z) (acc : result fit_state)
    : result fit_state :=
  fold_left (fun acc i => st' <- acc ;; fit_step x_interp profile_interp i st') l acc.

(** The body of the [while] loop: count the pass, clear [cont], try the
    fourteen perturbations in turn. *)
Definition fit_pass (x_interp profile_interp : list Q) (st : fit_state) : result fit_state :=
  steps x_interp profile_interp (Py.range 0 14)
    (ret (FitState (baseline_fit_coefficients st) (trapezoid_fit_coefficients st)
            (current_error st) 0 (j st + 1))).

(** [while cont == 1]: the loop has no other exit than its condition and
    an exception; [None] says that [fuel] passes were not enough. *)
Fixpoint fit_loop (fuel : nat) (x_interp profile_interp : list Q) (st : fit_state)
    : option (result fit_state) :=
  if cont st =? 1
  then match fuel with
       | O => None
       | S fuel' =>
           match fit_pass x_interp profile_interp st with
           | inl e => Some (inl e)
           | inr st' => fit_loop fuel' x_interp profile_interp st'
           end
       end
  else Some (inr st).

(** The state in which [fit_trapezoid] enters its loop. *)
Definition fit_init (p : profiles) (slice_thickness : Q) : result (option fit_state) :=
  guess <- get_initial_trapezoid_fit_and_coefficients
             (profile_corrected_interpolated p) slice_thickness ;;
  match guess with
  | None => ret None
  | Some (trapezoid_fit, trapezoid_fit_coefficients) =>
      let x_interp := x_interpolated p in
      let baseline_interpolated := Np.poly1d_call (baseline_fit p) x_interp in
      let c := Np.poly1d_c (baseline_fit p) in
      c0 <- Np.index c 0 ;;
      c1 <- Np.index c 1 ;;
      c2 <- Np.index c 2 ;;
      model <- Np.add baseline_interpolated trapezoid_fit ;;
      diff <- Np.sub (profile_corrected_interpolated p) model ;;
      ret (Some (FitState (BaseCoeffs c0 c1 c2) trapezoid_fit_coefficients
                   (Np.sum (Np.square diff)) 1 0))
  end.

(** [fit_trapezoid]. *)
Definition fit_trapezoid (fuel : nat) (p : profiles) (slice_thickness : Q)
    : option (result (option (trap_coeffs * base_coeffs))) :=
  match fit_init p slice_thickness with
  | inl e => Some (inl e)
  | inr None => Some (inr None)
  | inr (Some st) =>
      match fit_loop fuel (x_interpolated p) (profile_interpolated p) st with
      | None => None
      | Some (inl e) => Some (inl e)
      | Some (inr st') =>
          Some (inr (Some (trapezoid_fit_coefficients st', baseline_fit_coefficients st')))
      end
  end.

(** The loop variables with the pass counter moved by [d]. *)
Definition add_j (d : Z) (st : fit_state) : fit_state :=
  FitState (baseline_fit_coefficients st) (trapezoid_fit_coefficients st)
    (current_error st) (cont st) (j st + d).

Definition map_result {A B} (f : A -> B) (r : result A) : result B :=
  match r with
  | inl e => inl e
  | inr a => inr (f a)
  end.

(** A rational on the grid of the multiples of [1 / d]. *)
Definition on_grid (d : Z) (q : Q) : Prop := exists z : Z, (q * inject_Z d == inject_Z z)%Q.

(** The product of the denominators of a list of rationals. *)
Definition prod_den (l : list Q) : Z := fold_right (fun q acc => Z.pos (Qden q) * acc) 1 l.

(** The number of accepted perturbations still possible below the error
    [e], when every error is a non-negative multiple of [1 / d]. *)
Definition quanta (d : Z) (e : Q) : nat := Z.to_nat (Qceiling (e * inject_Z d)).

(** The grids the coefficients of the search stay on: the baseline
    coefficients move by 1/10000, 1/1000 and 1/10, the amplitude by 1/10. *)
Definition base_grid (db : Z) : Z := db * 10000.
Definition amp_grid (da : Z) : Z := da * 10.

Definition on_grids (db da : Z) (b : base_coeffs) (t : trap_coeffs) : Prop :=
  on_grid (base_grid db) (b0 b) /\ on_grid (base_grid db) (b1 b) /\
  on_grid (base_grid db) (b2 b) /\ on_grid (amp_grid da) (plateau_amplitude t).

(** A grid that holds every sample of the profile, of a baseline and of a
    trapezoid of at most that many samples. *)
Definition fit_grid (x_interp profile_interp : list Q) (db da : Z) : Z :=
  prod_den profile_interp
  * (base_grid db * prod_den x_interp * prod_den x_interp)
  * (amp_grid da * Z.of_nat (fact (S (length profile_interp)))).

End SliceWidth.

(** ** slice_width.py: distances and the physical width

    Square roots and the tangent of the ramp angle leave the rationals:
    this part of [get_slice_width] is stated over the real numbers. *)

Module SliceWidthReal.
Import SliceWidth.
Local Open Scope R_scope.

Definition round_half_even (x : R) : Z :=
  let f := Zfloor x in
  let d := x - IZR f in
  if Rlt_dec d (1 / 2) then f
  else if Rlt_dec (1 / 2) d then (f + 1)%Z
  else if Z.even f then f else (f + 1)%Z.

(** [round(x, n)]. *)
Definition round_n (x : R) (n : nat) : R :=
  IZR (round_half_even (x * 10 ^ n)) / 10 ^ n.

(** The distance between two rods, rounded to three decimals. *)
Definition rod_distance (a b : Rod) : R :=
  round_n (sqrt ((Q2R (rod_y a) - Q2R (rod_y b)) ^ 2 + (Q2R (rod_x a) - Q2R (rod_x b)) ^ 2)) 3.

(** [get_rod_distances]: the horizontal and the vertical distances
    between the outer rods of each row and column; nine rods are read. *)
Definition get_rod_distances (rods : list Rod) : result (list R * list R) :=
  let rod := fun i => nth i rods (mkRod 0 0) in
  if (length rods <? 9)%nat then raise IndexError
  else ret ([rod_distance (rod 2) (rod 0); rod_distance (rod 5) (rod 3);
             rod_distance (rod 8) (rod 6)]%nat,
            [rod_distance (rod 0) (rod 6); rod_distance (rod 1) (rod 7);
             rod_distance (rod 2) (rod 8)]%nat).

Record coefficients : Type := Coefficients { top : R; bottom : R }.

(** [get_rod_distortion_correction_coefficients]: the mean of two
    horizontal distances over the nominal separation of 120. *)
Definition get_rod_distortion_correction_coefficients (horizontal_distances : list R)
    : coefficients :=
  let h := fun i => nth i horizontal_distances 0 in
  Coefficients (round_n ((h 1%nat + h 2%nat) / 2 / 120) 4)
               (round_n ((h 0%nat + h 1%nat) / 2 / 120) 4).

(** The entries [get_slice_width] stores for one ramp. *)
Record slice_width_entry : Type := SliceWidthEntry {
  default : R;
  geometry_corrected : R;
  aapm : R;
  aapm_corrected : R
}.

(** The four entries [get_slice_width] stores for a ramp, from the full
    width [fwhm] that [trapezoid] returns for the fitted coefficients. *)
Definition ramp_slice_width (fwhm : Z) (pixel_size : R) (correction_coefficient : R)
    : slice_width_entry :=
  let sample_spacing := 25 / 100 in
  let fwhm := IZR fwhm in
  let default := fwhm * sample_spacing * pixel_size * tan ((113 / 10 * PI) / 180) in
  SliceWidthEntry
    default
    (default / correction_coefficient)
    (fwhm * sample_spacing * pixel_size)
    ((fwhm * sample_spacing * pixel_size) / correction_coefficient).

End SliceWidthReal.

(** ** tasks/acr_uniformity.py *)

Module Uniformity.

(** Modelled from the spec: [ACRObject.circular_mask] ([hazenlib/ACRObject.py]
    is not among the sources).  The mask of the given shape that is true at
    the pixels whose distance, in array coordinates, from the centre is at
    most the radius; a radius that is not positive gives the empty mask. *)
Definition circular_mask (centre : Z * Z) (radius : Q) (dims : nat * nat) : Np.mask :=
  map (fun r =>
         map (fun c =>
                if Qle_bool radius 0 then false
                else Qle_bool (inject_Z ((r - fst centre) ^ 2 + (c - snd centre) ^ 2))
                              (radius * radius))
             (Py.range 0 (Z.of_nat (snd dims))))
      (Py.range 0 (Z.of_nat (fst dims))).

(** The doubles [np.sqrt(100 / np.pi)] and [np.sqrt(16000 * 0.90 / np.pi)]. *)
Definition sqrt_100_over_pi : Q := 5641895835477563 # 1000000000000000.
Definition sqrt_14400_over_pi : Q := 6770275002573076 # 100000000000000.

(** An array of floats; [None] is [nan]. *)
Definition float_array : Type := list (list (option Q)).

(** A product [mask * img] of two arrays of the same shape. *)
Definition mask_mul (m : Np.mask) (img : Np.image) : result Np.image :=
  if Nat.eqb (length m) (length img)
     && forallb (fun '(mr, ir) => Nat.eqb (length mr) (length ir)) (combine m img)
  then ret (map (fun '(mr, ir) => map (fun '(b, v) => if b : bool then v else 0)
                                      (combine mr ir))
                (combine m img))
  else raise ValueError.

(** [img * (img < h)] and [img * (img > h)]; a comparison with [nan] is false. *)
Definition keep_below (img : Np.image) (h : option Q) : Np.image :=
  map (map (fun v => match h with
                     | Some h => if Np.ltb (inject_Z v) h then v else 0
                     | None => 0
                     end)) img.

Definition keep_above (img : Np.image) (h : option Q) : Np.image :=
  map (map (fun v => match h with
                     | Some h => if Np.ltb h (inject_Z v) then v else 0
                     | None => 0
                     end)) img.

Definition is_nonzero (v : Z) : bool := negb (v =? 0).

(** The footprint of the sample mask moved to a candidate centre. *)
Definition translate_mask (cxy : Z * Z) (d_void : Z) (coords : list (Z * Z))
    (centre : Z * Z) : list (Z * Z) :=
  map (fun '(r, c) => (r + fst centre - fst cxy - d_void, c + snd centre - snd cxy)) coords.

(** The value a candidate gets from the values under its footprint. *)
Definition mean_val (values : list Z) (sample_mask : Np.mask) : option Q :=
  if Np.count_nonzero values <? Np.count_true sample_mask
  then Some 0%Q
  else Np.mean (map inject_Z (filter is_nonzero values)).

(** One turn of the loop of [uniformity_iterator]. *)
Definition record_candidate (cxy : Z * Z) (d_void : Z) (masked_image : Np.image)
    (sample_mask : Np.mask) (mean_array : float_array) (centre : Z * Z)
    : result float_array :=
  let coords := Np.nonzero2 (fun b : bool => b) sample_mask in
  values <- Np.take2 0 masked_image (translate_mask cxy d_void coords centre) ;;
  Np.setitem2 mean_array (fst centre) (snd centre) (mean_val values sample_mask).

(** [uniformity_iterator]; [mean_array] is the array of the enclosing
    function, which the iterator updates and returns. *)
Definition uniformity_iterator (cxy : Z * Z) (d_void : Z) (mean_array : float_array)
    (masked_image : Np.image) (sample_mask : Np.mask) (rows cols : list Z)
    : result float_array :=
  fold_left (fun acc centre =>
               m <- acc ;; record_candidate cxy d_void masked_image sample_mask m centre)
            (combine rows cols) (ret mean_array).

(** [np.max] and [np.min] of floats: no value for an empty array, [nan]
    as soon as one entry is [nan]. *)
Definition fold_floats (pick : Q -> Q -> Q) (l : list (option Q)) : result (option Q) :=
  match l with
  | [] => raise ValueError
  | v :: l' =>
      ret (fold_left (fun acc x => match acc, x with
                                   | Some a, Some b => Some (pick a b)
                                   | _, _ => None
                                   end) l' v)
  end.

Definition fmax := fold_floats (fun a b => if Qle_bool a b then b else a).
Definition fmin := fold_floats (fun a b => if Qle_bool a b then a else b).

Definition float_nonzero (v : option Q) : bool :=
  match v with
  | Some q => negb (Qeq_bool q 0)
  | None => true
  end.

Definition float_eqb (a b : option Q) : bool :=
  match a, b with
  | Some x, Some y => Qeq_bool x y
  | _, _ => false
  end.

Record uniformity : Type := Uniformity_ {
  piu : option Q;
  sig_max : option Q;
  sig_min : option Q;
  max_loc : list (Z * Z);
  min_loc : list (Z * Z)
}.

Section GetIntegralUniformity.

(** [ACRObject.circular_mask] and the detected centre come from the
    phantom object, the image from [apply_modality_lut(...).astype('uint16')].
    The module repeats several of its lines; a repeated assignment is
    taken once. *)
Variable circular_mask_ : Z * Z -> Q -> nat * nat -> Np.mask.
Variable MediumACRPhantom : bool.
Variable cxy : Z * Z.

Definition get_integral_uniformity (res : Q * Q) (img : Np.image) : result uniformity :=
  let r_large := Qceiling (80 / fst res) in
  let r_small := Qceiling (sqrt_100_over_pi / fst res) in
  let r_large :=
    if MediumACRPhantom then Qceiling (sqrt_14400_over_pi / fst res) else r_large in
  let d_void := Qceiling (5 / fst res) in
  let dims := Np.shape img in
  let base_mask := circular_mask_ (fst cxy, snd cxy + d_void) (inject_Z r_small) dims in
  let lroi := circular_mask_ (fst cxy, snd cxy + d_void) (inject_Z r_large) dims in
  img_masked <- mask_mul lroi img ;;
  let buffer_roi :=
    circular_mask_ (fst cxy, snd cxy + d_void) ((105 # 100) * inject_Z r_large)%Q dims in
  img_buffer <- mask_mul buffer_roi img ;;
  let half_max :=
    Np.percentile (map inject_Z (filter is_nonzero (Np.flatten img_masked))) 50 in
  let min_image := keep_below img_masked half_max in
  let max_image := keep_above img_masked half_max in
  let min_pos := Np.nonzero2 is_nonzero min_image in
  let max_pos := Np.nonzero2 is_nonzero max_image in
  let mean_array : float_array := map (map (fun _ => Some 0%Q)) img_masked in
  mean_array <- uniformity_iterator cxy d_void mean_array min_image base_mask
                  (map fst min_pos) (map snd min_pos) ;;
  let min_data := mean_array in
  mean_array <- uniformity_iterator cxy d_void mean_array max_image base_mask
                  (map fst max_pos) (map snd max_pos) ;;
  (* [min_data] and [max_data] are the one array [mean_array] *)
  let min_data := mean_array in
  let max_data := mean_array in
  sig_max <- fmax (Np.flatten max_data) ;;
  sig_min <- fmin (filter float_nonzero (Np.flatten min_data)) ;;
  let max_loc := Np.nonzero2 (fun v => float_eqb v sig_max) max_data in
  let min_loc := Np.nonzero2 (fun v => float_eqb v sig_min) min_data in
  let piu :=
    match sig_max, sig_min with
    | Some mx, Some mn =>
        if Qeq_bool (mx + mn) 0 then None
        else Some (Qred (100 * (1 - (mx - mn) / (mx + mn))))
    | _, _ => None
    end in
  ret (Uniformity_ piu sig_max sig_min max_loc min_loc).

End GetIntegralUniformity.

(** An index NumPy accepts along an axis of length [n]. *)
Definition valid_index (n : nat) (i : Z) : Prop := - Z.of_nat n <= i < Z.of_nat n.

(** A pair of indices NumPy accepts for the array [a]. *)
Definition valid_index2 {A} (a : list (list A)) (rc : Z * Z) : Prop :=
  valid_index (fst (Np.shape a)) (fst rc) /\ valid_index (snd (Np.shape a)) (snd rc).

(** An array of [h] rows of [w] entries each. *)
Definition rect {A} (a : list (list A)) (h w : nat) : Prop :=
  length a = h /\ Forall (fun row => length row = w) a.

(** The value the sweep is meant to record from the values under a
    footprint: their mean when none of them is zero, else zero. *)
Definition recorded (values : list Z) (sample_mask : Np.mask) : option Q :=
  if Np.count_nonzero values =? Np.count_true sample_mask
  then Np.mean (map inject_Z values)
  else Some 0%Q.

(** The footprint of a candidate. *)
Definition footprint (cxy : Z * Z) (d_void : Z) (sample_mask : Np.mask) (centre : Z * Z)
    : list (Z * Z) :=
  translate_mask cxy d_void (Np.nonzero2 (fun b : bool => b) sample_mask) centre.

(** A candidate inside the [h] by [w] array of means whose footprint NumPy
    can index. *)
Definition admissible (cxy : Z * Z) (d_void : Z) (masked_image : Np.image)
    (sample_mask : Np.mask) (h w : nat) (centre : Z * Z) : Prop :=
  0 <= fst centre < Z.of_nat h /\ 0 <= snd centre < Z.of_nat w /\
  forall rc, In rc (footprint cxy d_void sample_mask centre) -> valid_index2 masked_image rc.

(** [v] is what the rule of the sweep gives the candidate. *)
Definition rule (cxy : Z * Z) (d_void : Z) (masked_image : Np.image)
    (sample_mask : Np.mask) (centre : Z * Z) (v : option Q) : Prop :=
  exists values,
    Np.take2 0 masked_image (footprint cxy d_void sample_mask centre) = inr values /\
    v = recorded values sample_mask.

End Uniformity.

(** ** relaxometry.py *)

Module Relaxometry.
Local Open Scope Q_scope.

(** A 2 by 3 transformation matrix [[m00, m01, m02], [m10, m11, m12]]. *)
Record affine : Type := Affine { m00 : Q; m01 : Q; m02 : Q; m10 : Q; m11 : Q; m12 : Q }.

(** [np.eye(2, 3)]. *)
Definition eye_2_3 : affine := Affine 1 0 0 0 1 0.

(** The array [np.array(coords)] builds from a list of pairs: an array
    of integers when every coordinate is an integer, an array of floats
    otherwise. *)
Inductive coordinates : Type :=
| IntCoords (pts : list (Z * Z))
| FloatCoords (pts : list (Q * Q)).

Definition size (c : coordinates) : nat :=
  match c with
  | IntCoords pts => length pts
  | FloatCoords pts => length pts
  end.

Definition swap {A} (pts : list (A * A)) : list (A * A) :=
  map (fun p => (snd p, fst p)) pts.

(** [np.flip(coords, axis=1)]: on an (n, 2) array the two columns change
    places; the array of an empty list has one axis only. *)
Definition flip (c : coordinates) : result coordinates :=
  match size c with
  | O => raise AxisError
  | _ => ret (match c with
              | IntCoords pts => IntCoords (swap pts)
              | FloatCoords pts => FloatCoords (swap pts)
              end)
  end.

(** The image [M (x, y, 1)] of a point. *)
Definition cv_transform_point (m : affine) (p : Q * Q) : Q * Q :=
  (m00 m * fst p + m01 m * snd p + m02 m,
   m10 m * fst p + m11 m * snd p + m12 m).

(** [cv.transform] with a 2 by 3 matrix, as OpenCV documents it: every
    point goes to its image, and the result has the depth of the source,
    so the image of an integer point is rounded to the nearest integers
    (ties to the even one; integers of 32 bits, whose range is not
    modelled).  An array without points is refused. *)
Definition cv_transform (src : coordinates) (m : affine) : result coordinates :=
  match size src with
  | O => raise cv2_error
  | _ => ret (match src with
              | FloatCoords pts => FloatCoords (map (cv_transform_point m) pts)
              | IntCoords pts =>
                  IntCoords
                    (map (fun p =>
                            let q := cv_transform_point m (inject_Z (fst p), inject_Z (snd p)) in
                            (Np.round_half_even (fst q), Np.round_half_even (snd q)))
                         pts)
              end)
  end.

(** [cv.invertAffineTransform], as OpenCV documents it: the inverse of
    the linear part and the matching translation; a singular matrix
    gives the zero matrix. *)
Definition determinant (m : affine) : Q := m00 m * m11 m - m01 m * m10 m.

Definition cv_invertAffineTransform (m : affine) : affine :=
  let d := if Qeq_bool (determinant m) 0 then 0 else / determinant m in
  let a11 := m11 m * d in
  let a22 := m00 m * d in
  let a12 := - m01 m * d in
  let a21 := - m10 m * d in
  Affine a11 a12 (- a11 * m02 m - a12 * m12 m)
         a21 a22 (- a21 * m02 m - a22 * m12 m).

(** [transform_coords]. *)
Definition transform_coords (coords : coordinates) (rt_matrix : affine)
    (input_yx output_yx : bool) : result coordinates :=
  let in_coords := coords in
  in_coords <- (if input_yx then flip in_coords else ret in_coords) ;;
  out_coords <- cv_transform in_coords rt_matrix ;;
  out_coords <- (if output_yx then flip out_coords else ret out_coords) ;;
  ret out_coords.

(** Two points agree within [tol] in both coordinates. *)
Definition within (tol : Q) (p q : Q * Q) : Prop :=
  Qabs (fst p - fst q) <= tol /\ Qabs (snd p - snd q) <= tol.

(** The termination criteria handed to the optimiser: the kind,
    the iteration count and the epsilon. *)
Inductive criteria_type : Type := TERM_CRITERIA_EPS_or_COUNT.

Record criteria : Type := Criteria {
  criteria_kind : criteria_type;
  max_count : Z;
  epsilon : Q
}.

(** The attributes [template_fit] sets on the image stack. *)
Record fit_attributes (image8 : Type) : Type := FitAttributes {
  template8bit : image8;
  target8bit : image8;
  template_cc : Q;
  warp_matrix : affine;
  warped_template8bit : image8
}.

Section TemplateFit.

(** What OpenCV and pydicom provide: the pixel look-up, the min-max
    normalisation of the magnitudes to eight bits, one iteration of the
    ECC algorithm, and the warp.  An iteration takes the matrix to the
    refined matrix and its correlation coefficient; it raises when the
    correlation of the two images cannot be improved. *)
Variables dicom image image8 : Type.
Variable pixel_LUT : dicom -> image.
Variable normalize_abs_8bit : image -> image8.
Variable ecc_iteration : image8 -> image8 -> affine -> result (Q * affine).
Variable warpAffine : image8 -> affine -> image8.

(** The iterations of [cv.findTransformECC] under criteria of the kind
    [TERM_CRITERIA_EPS | TERM_CRITERIA_COUNT], as OpenCV documents them:
    the algorithm stops when [count] iterations are done or when the
    correlation coefficient changes by less than [eps] from one iteration
    to the next, and returns the coefficient and the matrix it has then. *)
Fixpoint ecc_iterate (count : nat) (eps : Q) (template target : image8)
    (rho : Q) (warp : affine) : result (Q * affine) :=
  match count with
  | O => ret (rho, warp)
  | S count' =>
      step <- ecc_iteration template target warp ;;
      let '(rho', warp') := step in
      if Qle_bool eps (Qabs (rho' - rho))
      then ecc_iterate count' eps template target rho' warp'
      else ret (rho', warp')
  end.

(** [cv.findTransformECC]; the correlation coefficient before the first
    iteration is -1. *)
Definition findTransformECC (template target : image8) (warp : affine) (c : criteria)
    : result (Q * affine) :=
  ecc_iterate (Z.to_nat (max_count c)) (epsilon c) template target (-1) warp.

(** [ImageStack.template_fit]: the stack holds its images and, when a
    template was given, the template pixels. *)
Definition template_fit (images : list dicom) (template_px : option image)
    : result (affine * fit_attributes image8) :=
  target_dcm <- Np.index images 0 ;;
  let target_px := pixel_LUT target_dcm in
  template_px <- match template_px with
                 | Some t => ret t
                 | None => raise AttributeError
                 end ;;
  let template8bit := normalize_abs_8bit template_px in
  let target8bit := normalize_abs_8bit target_px in
  let number_of_iterations := 500%Z in
  let termination_eps := 1 # 10000000000 in
  let criteria := Criteria TERM_CRITERIA_EPS_or_COUNT number_of_iterations termination_eps in
  let warp_matrix := eye_2_3 in
  fit <- findTransformECC template8bit target8bit warp_matrix criteria ;;
  let '(template_cc, warp_matrix) := fit in
  let warped_template8bit := warpAffine template8bit warp_matrix in
  ret (warp_matrix,
       FitAttributes image8 template8bit target8bit template_cc warp_matrix
         warped_template8bit).

End TemplateFit.

End Relaxometry.

(** ** tasks/acr_ghosting.py *)

Module Ghosting.
Local Open Scope Q_scope.

(** The double [np.sqrt(1000 / (4 * np.pi))]. *)
Definition sqrt_1000_over_4pi : Q := 8920620580763856 # 1000000000000000.

Definition Zq (z : Z) : Q := inject_Z z.

(** [np.sum(mask, 0) > 0] and [np.sum(mask, 1) > 0]: the columns and the
    rows holding a pixel of the mask, as index lists ([np.argwhere]). *)
Definition occupied_rows (m : Np.mask) : list Z :=
  map fst (filter (fun '(_, row) => existsb (fun b : bool => b) row)
                  (combine (Py.range 0 (Z.of_nat (length m))) m)).

Definition occupied_cols (m : Np.mask) : list Z :=
  filter (fun c => existsb (fun row => nth (Z.to_nat c) row false) m)
         (Py.range 0 (Z.of_nat (snd (Np.shape m)))).

(** [l[0]] and [l[-1]]. *)
Definition first (l : list Z) : result Z :=
  match l with
  | [] => raise IndexError
  | a :: _ => ret a
  end.

Definition last (l : list Z) : result Z := first (rev l).

(** The ellipse scaling factor [(sad / 2) / (sad / 2 - |d|)] for the
    larger in magnitude of the two overruns (the first of them on a tie);
    [None] stands for the infinite factor of a zero denominator. *)
Definition scaling_factor (sad : Q) (diffs : Q * Q) : option Q :=
  let d := if Np.ltb (Qabs (fst diffs)) (Qabs (snd diffs)) then snd diffs else fst diffs in
  let den := sad / 2 - Qabs d in
  if Qeq_bool den 0 then None else Some ((sad / 2) / den).

(** The masks over the grid [x, y = np.meshgrid(nx, ny)]: entry (i, j)
    has [x = j + 1] and [y = i + 1]; the grid has [dims[1]] rows and
    [dims[0]] columns. *)
Definition grid_mask (dims : nat * nat) (inside : Q -> Q -> bool) : Np.mask :=
  map (fun i => map (fun j => inside (Zq (j + 1)) (Zq (i + 1)))
                    (Py.range 0 (Z.of_nat (fst dims))))
      (Py.range 0 (Z.of_nat (snd dims))).

(** An ellipse stretched along [y] (west and east) or along [x] (north
    and south); with an infinite factor no pixel passes the comparison. *)
Definition ellipse_y (dims : nat * nat) (res0 : Q) (centre : Q * Q) (factor : option Q)
    : Np.mask :=
  grid_mask dims (fun x y =>
    match factor with
    | Some f => Qle_bool (((y - fst centre) / (4 * f)) ^ 2 + ((x - snd centre) * f) ^ 2)
                         ((10 / res0) ^ 2)
    | None => false
    end).

Definition ellipse_x (dims : nat * nat) (res0 : Q) (centre : Q * Q) (factor : option Q)
    : Np.mask :=
  grid_mask dims (fun x y =>
    match factor with
    | Some f => Qle_bool (((y - fst centre) * f) ^ 2 + ((x - snd centre) / (4 * f)) ^ 2)
                         ((10 / res0) ^ 2)
    | None => false
    end).

(** [np.mean(img[np.nonzero(roi)])]: [nan] for an empty region. *)
Definition roi_mean (img : Np.image) (roi : Np.mask) : result (option Q) :=
  values <- Np.take2 0%Z img (Np.nonzero2 (fun b : bool => b) roi) ;;
  ret (Np.mean (map inject_Z values)).

(** [np.round(v, 3)]. *)
Definition round3 (v : Q) : Q := Qred (Zq (Np.round_half_even (v * 1000)) / 1000).

(** The five regions of the measurement. *)
Record regions : Type := Regions {
  lroi : Np.mask;
  w_ellipse : Np.mask;
  e_ellipse : Np.mask;
  n_ellipse : Np.mask;
  s_ellipse : Np.mask
}.

(** The metric from the five means; [None] when a mean is [nan] or the
    quotient is not finite. *)
Definition percent_signal_ghosting (large w e n s : option Q) : option Q :=
  match large, w, e, n, s with
  | Some large_roi_val, Some w_ellipse_val, Some e_ellipse_val,
    Some n_ellipse_val, Some s_ellipse_val =>
      if Qeq_bool (2 * large_roi_val) 0 then None
      else Some (round3 (100 * Qabs (((n_ellipse_val + s_ellipse_val)
                                      - (w_ellipse_val + e_ellipse_val))
                                     / (2 * large_roi_val))))
  | _, _, _, _, _ => None
  end.

Section GetSignalGhosting.

(** [skimage.morphology.area_opening(., area_threshold=500)] and
    [skimage.morphology.convex_hull_image]. *)
Variable area_opening_500 : Np.mask -> Np.mask.
Variable convex_hull_image : Np.mask -> Np.mask.

(** [centroid_com]: the hull of the thresholded image and the truncated
    means of its column and row indices. *)
Definition centroid_com (dcm : Np.image) : result (Np.mask * (Z * Z)) :=
  mx <- Np.max dcm ;;
  let thresh_img := map (map (fun v => Np.ltb ((25 # 100) * Zq mx) (Zq v))) dcm in
  let open_img := area_opening_500 thresh_img in
  let bhull := convex_hull_image open_img in
  let coords := Np.nonzero2 (fun b : bool => b) bhull in
  let sum_x := Np.sum (map (fun rc => Zq (snd rc)) coords) in
  let sum_y := Np.sum (map (fun rc => Zq (fst rc)) coords) in
  let n := Zq (Z.of_nat (length coords)) in
  let cxy := if Qeq_bool n 0 then (None, None) else (Some (sum_x / n), Some (sum_y / n)) in
  ret (bhull, (Np.astype_int (fst cxy), Np.astype_int (snd cxy))).

(** The regions [get_signal_ghosting] builds from the hull mask. *)
Definition ghosting_regions (img : Np.image) (res : Q * Q) : result regions :=
  let r_large := Zq (Qceiling (80 / fst res)) in
  let dims := Np.shape img in
  mc <- centroid_com img ;;
  let '(mask, cxy) := mc in
  let lroi := grid_mask dims (fun x y =>
                Qle_bool ((x - Zq (fst cxy)) ^ 2 + (y - Zq (snd cxy) - 5 / snd res) ^ 2)
                         (r_large ^ 2)) in
  let sad := 2 * Zq (Qceiling (sqrt_1000_over_4pi / fst res)) in
  (* west *)
  w_point <- first (occupied_cols mask) ;;
  let w_centre := (Zq (snd cxy), Zq (Qfloor (Zq w_point / 2))) in
  let left_fov_to_centre := snd w_centre - sad / 2 - 5 in
  let centre_to_left_phantom := snd w_centre + sad / 2 + 5 in
  let w_factor :=
    if Np.ltb left_fov_to_centre 0 || Np.ltb (Zq w_point) centre_to_left_phantom
    then scaling_factor sad (left_fov_to_centre, centre_to_left_phantom - Zq w_point)
    else Some 1 in
  let w_ellipse := ellipse_y dims (fst res) w_centre w_factor in
  (* east *)
  e_point <- last (occupied_cols mask) ;;
  let e_centre :=
    (Zq (snd cxy), Zq e_point + Zq (Qceiling ((Zq (Z.of_nat (snd dims)) - Zq e_point) / 2))) in
  let right_fov_to_centre := snd e_centre + sad / 2 + 5 in
  let centre_to_right_phantom := snd e_centre - sad / 2 - 5 in
  let e_factor :=
    if Np.ltb (Zq (Z.of_nat (snd dims)) - 1) right_fov_to_centre
       || Np.ltb centre_to_right_phantom (Zq e_point)
    then scaling_factor sad (Zq (Z.of_nat (snd dims)) - 1 - right_fov_to_centre,
                             centre_to_right_phantom - Zq e_point)
    else Some 1 in
  let e_ellipse := ellipse_y dims (fst res) e_centre e_factor in
  (* north *)
  n_point <- first (occupied_rows mask) ;;
  let n_centre := (Zq (Np.round_half_even (Zq n_point / 2)), Zq (fst cxy)) in
  let top_fov_to_centre := fst n_centre - sad / 2 - 5 in
  let centre_to_top_phantom := fst n_centre + sad / 2 + 5 in
  let n_factor :=
    if Np.ltb top_fov_to_centre 0 || Np.ltb (Zq n_point) centre_to_top_phantom
    then scaling_factor sad (top_fov_to_centre, centre_to_top_phantom - Zq n_point)
    else Some 1 in
  let n_ellipse := ellipse_x dims (fst res) n_centre n_factor in
  (* south *)
  s_point <- last (occupied_rows mask) ;;
  let s_centre :=
    (Zq s_point + Zq (Np.round_half_even ((Zq (Z.of_nat (snd dims)) - Zq s_point) / 2)),
     Zq (fst cxy)) in
  let bottom_fov_to_centre := fst s_centre + sad / 2 + 5 in
  let centre_to_bottom_phantom := fst s_centre - sad / 2 - 5 in
  let s_factor :=
    if Np.ltb (Zq (Z.of_nat (fst dims)) - 1) bottom_fov_to_centre
       || Np.ltb centre_to_bottom_phantom (Zq s_point)
    then scaling_factor sad (Zq (Z.of_nat (fst dims)) - 1 - bottom_fov_to_centre,
                             centre_to_bottom_phantom - Zq s_point)
    else Some 1 in
  let s_ellipse := ellipse_x dims (fst res) s_centre s_factor in
  ret (Regions lroi w_ellipse e_ellipse n_ellipse s_ellipse).

(** [get_signal_ghosting]: the rounded metric, [None] for [nan]. *)
Definition get_signal_ghosting (img : Np.image) (res : Q * Q) : result (option Q) :=
  rois <- ghosting_regions img res ;;
  large_roi_val <- roi_mean img (lroi rois) ;;
  w_ellipse_val <- roi_mean img (w_ellipse rois) ;;
  e_ellipse_val <- roi_mean img (e_ellipse rois) ;;
  n_ellipse_val <- roi_mean img (n_ellipse rois) ;;
  s_ellipse_val <- roi_mean img (s_ellipse rois) ;;
  ret (percent_signal_ghosting large_roi_val w_ellipse_val e_ellipse_val
         n_ellipse_val s_ellipse_val).

End GetSignalGhosting.

(** A region of the image that NumPy can index, not empty, where the image
    is zero. *)
Definition dark_in (img : Np.image) (roi : Np.mask) : Prop :=
  exists values,
    Np.take2 0%Z img (Np.nonzero2 (fun b : bool => b) roi) = inr values /\
    values <> [] /\ Forall (fun v => v = 0%Z) values.

End Ghosting.

(** ** slice_width.py: the rod order, the ramp profiles and the baseline *)

Module SliceWidthMore.
Import SliceWidth.

(** [Rod.centroid]. *)
Definition centroid (self : Rod) : Q * Q := (rod_x self, rod_y self).

(** [Rod.__lt__] between two rods: the comparison of the tuples
    [(-y0, x0)] and [(-y1, x1)], decided by the first component in which
    they differ. *)
Definition __lt__ (self other : Rod) : bool :=
  let '(x0, y0) := centroid self in
  let '(x1, y1) := centroid other in
  if Qeq_bool (- y0) (- y1) then Np.ltb x0 x1 else Np.ltb (- y0) (- y1).

(** [Rod.__eq__]. *)
Definition __eq__ (self other : Rod) : bool :=
  Qeq_bool (rod_x self) (rod_x other) && Qeq_bool (rod_y self) (rod_y other).

(** The number of samples the coefficients of a trapezoid stand for: the
    [n_total] of the initial guess. *)
Definition n_samples (t : trap_coeffs) : Z :=
  n_left_baseline t + 2 * n_ramp t + n_plateau t + n_right_baseline t.

(** What the search keeps of the trapezoid from one state to a later one:
    the number of samples, and a ramp that has not become narrower. *)
Definition kept (st st' : fit_state) : Prop :=
  n_samples (trapezoid_fit_coefficients st') = n_samples (trapezoid_fit_coefficients st) /\
  n_ramp (trapezoid_fit_coefficients st) <= n_ramp (trapezoid_fit_coefficients st').

(** A bound [i] of a slice of a sequence of [n] items: a negative bound
    counts from the end, and the bound is then clipped to [0, n]. *)
Definition slice_bound (i : Z) (n : nat) : nat :=
  Z.to_nat (Z.max 0 (Z.min (Z.of_nat n) (if i <? 0 then i + Z.of_nat n else i))).

(** [l[i:j]] for integers [i] and [j] of either sign. *)
Definition getslice {A} (i j : Z) (l : list A) : list A :=
  Py.slice (slice_bound i (length l)) (slice_bound j (length l)) l.

(** [a[r0:r1, c0:c1]] on a two-dimensional array. *)
Definition getslice2 {A} (r0 r1 c0 c1 : Z) (a : list (list A)) : list (list A) :=
  map (getslice c0 c1) (getslice r0 r1 a).

(** The dictionary [get_ramp_profiles] returns. *)
Record ramp_profiles : Type := RampProfiles {
  top : Np.image;
  bottom : Np.image;
  top_centre : Z;
  bottom_centre : Z
}.

(** [get_ramp_profiles]: twenty rows around the line halfway between the
    middle row of rods and the upper (lower) one, between the columns of
    the outer rods of the middle row. *)
Definition get_ramp_profiles (image_array : Np.image) (rods : list Rod)
    : result ramp_profiles :=
  rods3 <- Np.index rods 3 ;;
  rods6 <- Np.index rods 6 ;;
  let top_profile_vertical_centre :=
    Np.round_half_even ((rod_y rods3 - rod_y rods6) / 2 + rod_y rods6)%Q in
  rods0 <- Np.index rods 0 ;;
  let bottom_profile_vertical_centre :=
    Np.round_half_even ((rod_y rods0 - rod_y rods3) / 2 + rod_y rods3)%Q in
  rods5 <- Np.index rods 5 ;;
  let top_profile :=
    getslice2 (top_profile_vertical_centre - 10) (top_profile_vertical_centre + 10)
      (Np.trunc (rod_x rods3)) (Np.trunc (rod_x rods5)) image_array in
  let bottom_profile :=
    getslice2 (bottom_profile_vertical_centre - 10) (bottom_profile_vertical_centre + 10)
      (Np.trunc (rod_x rods3)) (Np.trunc (rod_x rods5)) image_array in
  ret (RampProfiles top_profile bottom_profile
         top_profile_vertical_centre bottom_profile_vertical_centre).

(** [np.arange(start, stop)] for integers. *)
Definition arange (start stop : Z) : list Q := map inject_Z (Py.range start stop).

(** [np.arange(start, stop, step)] for a float step: the
    [ceil((stop - start) / step)] values [start + i * step].  The count is
    taken in exact arithmetic; NumPy takes it in doubles, which is the
    same count for the step 0.25 of [get_slice_width] and can be one more
    for a step that is no binary fraction.  NumPy refuses a zero step;
    which error it raises is not modelled. *)
Definition arange_step (start stop step : Q) : result (list Q) :=
  if Qeq_bool step 0 then raise ValueError
  else ret (map (fun i => Qred (start + inject_Z (Z.of_nat i) * step))
                (seq 0 (Z.to_nat (Qceiling ((stop - start) / step))))).

(** The dictionary [baseline_correction] returns: the keys [fit_trapezoid]
    reads, and [baseline_interpolated]. *)
Record corrected_profiles : Type := CorrectedProfiles {
  fit_profiles : profiles;
  baseline_interpolated : list Q
}.

Section BaselineCorrection.

(** [np.polyfit(x, y, deg)] and [scipy.interpolate.interp1d(x, y,
    fill_value="extrapolate")], whose result is evaluated point by point. *)
Variable polyfit : list Q -> list Q -> Z -> result (list Q).
Variable interp1d : list Q -> list Q -> result (Q -> Q).

(** [baseline_correction]. *)
Definition baseline_correction (profile : list Q) (sample_spacing : Q)
    : result corrected_profiles :=
  let profile_width := Z.of_nat (length profile) in
  let padding := 30 in
  let outer_profile :=
    Py.slice 0 (Z.to_nat padding) profile ++ Py.slice_last (Z.to_nat padding) profile in
  let x_left := arange 0 padding in
  let x_right := arange (profile_width - padding) profile_width in
  let x_outer := x_left ++ x_right in
  polynomial_coefficients <- polyfit x_outer outer_profile 2 ;;
  let polynomial_fit := Np.poly1d_call polynomial_coefficients in
  x_interp <- arange_step 0 (inject_Z profile_width) sample_spacing ;;
  let x := arange 0 profile_width in
  let baseline_interp := polynomial_fit x_interp in
  let baseline := polynomial_fit x in
  profile_corrected <- Np.sub profile baseline ;;
  f <- interp1d x profile_corrected ;;
  let profile_corrected_interp := map f x_interp in
  profile_interp <- Np.add profile_corrected_interp baseline_interp ;;
  ret (CorrectedProfiles
         (Profiles x_interp polynomial_coefficients profile_interp profile_corrected_interp)
         baseline_interp).

End BaselineCorrection.

End SliceWidthMore.

(** ** slice_width.py: distortion and the width of the two ramps together *)

Module SliceWidthGeometry.
Import SliceWidth SliceWidthReal.
Local Open Scope R_scope.

(** A rod moved by [(dx, dy)]. *)
Definition translate (dx dy : Q) (r : Rod) : Rod :=
  mkRod (rod_x r + dx) (rod_y r + dy).

(** [np.mean] and [np.std(., ddof=1)] of a one-dimensional array. *)
Definition mean (l : list R) : R := fold_right Rplus 0 l / INR (length l).

Definition std_ddof1 (l : list R) : R :=
  sqrt (fold_right Rplus 0 (map (fun x => (x - mean l) ^ 2) l) / (INR (length l) - 1)).

(** [100 * np.std(d, ddof=1) / np.mean(d)]; [None] is the [nan] of a
    zero mean (the distances are not negative, so with a zero mean they
    are all zero and so is their deviation). *)
Definition distortion (d : list R) : option R :=
  if Req_dec_T (mean d) 0 then None else Some (100 * std_ddof1 d / mean d).

(** [get_rod_distortions], for the pixel spacing of the image. *)
Definition get_rod_distortions (rods : list Rod) (pixel_spacing : R)
    : result (option R * option R) :=
  d <- get_rod_distances rods ;;
  let '(horz_dist, vert_dist) := d in
  let horz_dist_mm := map (Rmult pixel_spacing) horz_dist in
  let vert_dist_mm := map (Rmult pixel_spacing) vert_dist in
  let horz_distortion := distortion horz_dist_mm in
  let vert_distortion := distortion vert_dist_mm in
  ret (horz_distortion, vert_distortion).

(** The ramp angle of 11.3 degrees, in radians. *)
Definition alpha : R := 113 / 10 * PI / 180.

(** The width [get_slice_width] combines from the widths of the two
    ramps (the AAPM method with the phantom tilt); [None] is the [nan] of
    a negative radicand. *)
Definition aapm_tilt (top bottom : R) : option R :=
  let theta := (180 - 2 * (113 / 10)) * PI / 180 in
  let term1 := (cos theta) ^ 2 * (bottom - top) ^ 2 + 4 * bottom * top in
  let term2 := (bottom + top) * cos theta in
  let term3 := 2 * sin theta in
  if Rlt_dec term1 0 then None else Some ((sqrt term1 + term2) / term3).

(** What [get_slice_width] returns. *)
Record slice_width_result : Type := SliceWidthResult {
  slice_width : option R;
  vertical_distortion : option R;
  horizontal_distortion : option R;
  vertical_linearity : R;
  horizontal_linearity : R
}.

(** [get_slice_width] from the rods and the two fitted trapezoids on: the
    widths of the two ramps, their combination, distortion and linearity.
    The phantom tilt angles it also computes are not returned. *)
Definition slice_width_of_fits (rods : list Rod) (pixel_size : R)
    (top_coefficients bottom_coefficients : trap_coeffs) : result slice_width_result :=
  d <- get_rod_distances rods ;;
  let '(horz_distances, vert_distances) := d in
  distortions <- get_rod_distortions rods pixel_size ;;
  let '(horz_distortion, vert_distortion) := distortions in
  let correction_coefficients := get_rod_distortion_correction_coefficients horz_distances in
  fit <- trapezoid top_coefficients ;;
  let '(_, fwhm) := fit in
  let top := ramp_slice_width fwhm pixel_size (top correction_coefficients) in
  fit <- trapezoid bottom_coefficients ;;
  let '(_, fwhm) := fit in
  let bottom := ramp_slice_width fwhm pixel_size (bottom correction_coefficients) in
  ret (SliceWidthResult
         (aapm_tilt (aapm_corrected top) (aapm_corrected bottom))
         vert_distortion horz_distortion
         (mean vert_distances) (mean horz_distances)).

End SliceWidthGeometry.

(** ** tasks/acr_ghosting.py: the task *)

Module GhostingRun.
Import Ghosting.

(** The image with every pixel multiplied by [k]. *)
Definition rescale (k : Z) (img : Np.image) : Np.image := map (map (Z.mul k)) img.

(** Two floats of which the second is [k] times the first. *)
Definition scaled (k : Z) (a b : option Q) : Prop :=
  match a, b with
  | Some x, Some y => (y == inject_Z k * x)%Q
  | None, None => True
  | _, _ => False
  end.

(** [np.argsort]: the indices of the values in ascending order of the
    values (the order of equal values is not fixed by NumPy; here it is
    the order of the indices). *)
Definition argsort (z : list Q) : list Z :=
  map fst (Py.sorted snd (combine (Py.range 0 (Z.of_nat (length z))) z)).

(** [except Exception] catches every exception of the embedding but the
    [SystemExit] of [sys.exit]. *)
Definition is_Exception (e : exn) : bool :=
  match e with
  | SystemExit _ => false
  | _ => true
  end.

(** The values of the dictionary [run] returns. *)
Inductive value : Type :=
| Measurement (psg : option Q)
| Reports (images : list String.string).

(** [d[k] = v] on a dictionary kept as the list of its items in insertion
    order. *)
Fixpoint setitem (d : list (String.string * value)) (k : String.string) (v : value)
    : list (String.string * value) :=
  match d with
  | [] => [(k, v)]
  | (k', v') :: d' => if String.eqb k' k then (k', v) :: d' else (k', v') :: setitem d' k v
  end.

(** A DICOM data set as the task reads it. *)
Record dicom : Type := Dicom {
  ImagePositionPatient : Q * Q * Q;
  pixel_array : Np.image;
  PixelSpacing : Q * Q
}.

Definition position_z (dcm : dicom) : Q := snd (ImagePositionPatient dcm).

Section Run.

Variable area_opening_500 : Np.mask -> Np.mask.
Variable convex_hull_image : Np.mask -> Np.mask.

(** The members of [HazenTask] the task uses ([hazenlib/HazenTask.py] is
    not among the sources): the key of a data set and the list of report
    files.  Reports are off, and what the task prints is left out. *)
Variable key : dicom -> String.string.
Variable report_files : list String.string.

(** One turn of the second loop of [run], with [z[idx_sort[6]]] looked up
    as the loop does. *)
Definition run_step (z : list Q) (idx_sort : list Z)
    (results : list (String.string * value)) (dcm : dicom)
    : result (list (String.string * value)) :=
  i <- Np.index idx_sort 6 ;;
  z6 <- (r <- Np.axis_index i (length z) ;; Np.index z r) ;;
  if Qeq_bool (position_z dcm) z6
  then match get_signal_ghosting area_opening_500 convex_hull_image
               (pixel_array dcm) (PixelSpacing dcm) with
       | inl e => if is_Exception e then ret results else raise e
       | inr result => ret (setitem results (key dcm) (Measurement result))
       end
  else ret results.

(** [ACRGhosting.run] on [self.data]. *)
Definition run (data : list dicom) : result (list (String.string * value)) :=
  let results := [] in
  let z := map position_z data in
  let idx_sort := argsort z in
  results <- fold_left (fun acc dcm => results <- acc ;; run_step z idx_sort results dcm)
               data (ret results) ;;
  ret (setitem results "reports"%string (Reports report_files)).

End Run.

End GhostingRun.

(** ** relaxometry.py: the image stack *)

Module RelaxometryStack.
Import SliceWidth Relaxometry.

Section ImageStack.

(** A DICOM data set with its numeric attributes, [x[att].value.real];
    [None] when the data set has no such element, where pydicom raises
    [KeyError]. *)
Variable dicom : Type.
Variable attribute : dicom -> String.string -> option Q.

(** [ImageStack.order_by]: [self.images.sort(key=...)] computes the key of
    every image and then sorts stably; the result is the new [self.images],
    [None] for the [KeyError] of a missing attribute, which leaves the
    list as it was. *)
Definition order_by (images : list dicom) (att : String.string) : option (list dicom) :=
  match all_some (map (fun x => attribute x att) images) with
  | None => None
  | Some keys => Some (map snd (Py.sorted fst (combine keys images)))
  end.

(** The images are in ascending order of an attribute they all have. *)
Definition ordered_by (att : String.string) (l : list dicom) : Prop :=
  StronglySorted
    (fun a b => match attribute a att, attribute b att with
                | Some x, Some y => (x <= y)%Q
                | _, _ => False
                end) l.

(** The images whose attribute has the value [v], in their order. *)
Definition with_value (att : String.string) (v : Q) (l : list dicom) : list dicom :=
  filter (fun x => match attribute x att with
                   | Some q => Qeq_bool q v
                   | None => false
                   end) l.

End ImageStack.

End RelaxometryStack.

(** ** Sample inputs *)

Module Samples.
Import SliceWidth.

(** A bright square holding dark single-pixel rods, on a dark border. *)
Definition nine_disks : Np.image :=
  [[1;1;1;1;1;1;1;1;1];
   [1;3;3;3;3;3;3;3;1];
   [1;3;1;3;1;3;1;3;1];
   [1;3;3;3;3;3;3;3;1];
   [1;3;1;3;1;3;1;3;1];
   [1;3;3;3;3;3;3;3;1];
   [1;3;1;3;1;3;1;3;1];
   [1;3;3;3;3;3;3;3;1];
   [1;1;1;1;1;1;1;1;1]].

(** The same with the central rod missing. *)
Definition eight_disks : Np.image :=
  [[1;1;1;1;1;1;1;1;1];
   [1;3;3;3;3;3;3;3;1];
   [1;3;1;3;1;3;1;3;1];
   [1;3;3;3;3;3;3;3;1];
   [1;3;1;3;3;3;1;3;1];
   [1;3;3;3;3;3;3;3;1];
   [1;3;1;3;1;3;1;3;1];
   [1;3;3;3;3;3;3;3;1];
   [1;1;1;1;1;1;1;1;1]].

(** Nine centroids in three rows, given row by row from the top. *)
Definition upper_ex : list Rod := [mkRod 50 10; mkRod 10 11; mkRod 30 (21 # 2)].
Definition middle_ex : list Rod := [mkRod 11 30; mkRod 51 31; mkRod 31 (61 # 2)].
Definition lower_ex : list Rod := [mkRod 29 50; mkRod 49 51; mkRod 9 (101 # 2)].

(** A sampled profile as [baseline_correction] lays it out: 52 samples at
    spacing 0.25, a dip of depth 6 with three high samples at the end, on
    the baseline [-x^2 - 10]. *)
Definition xs_ex : list Q := map (fun k => Qred (inject_Z k / 4)) (Py.range 0 52).
Definition corrected_ex : list Q :=
  [0; 0; 0; 0; -1; -2; -3; -4; -5; -6; -6; -6; -6; -6; -6; -6; -6; -6; -6; -6; -6; -6;
   -6; -6; -6; -6; -6; -6; -6; -6; -6; -6; -6; -6; -6; -6; -6; -6; -6; -6; -6; -6; -6;
   -5; -4; -3; -2; -1; 0; 6; 6; 6]%Q.
Definition baseline_ex : list Q := [-1; 0; -10]%Q.
Definition profiles_ex : profiles :=
  Profiles xs_ex baseline_ex
    (Np.map2 (fun a b => Qred (a + b)) corrected_ex (Np.poly1d_call baseline_ex xs_ex))
    corrected_ex.

(** The loop variables [fit_trapezoid] starts from on [profiles_ex]. *)
Definition fit_state_ex : fit_state :=
  FitState (BaseCoeffs (-1) 0 (-10)) (TrapCoeffs 7 32 2 4 (-87 # 10))
    (1157364617 # 3200) 1 0.

(** The loop variables after the twelfth pass on [profiles_ex]. *)
Definition fit_state_ex12 : fit_state :=
  FitState (BaseCoeffs (-9989 # 10000) (3 # 250) (-44 # 5)) (TrapCoeffs 10 30 1 1 (-38 # 5))
    (915890580373 # 12800000000) 1 12.

(** A perfectly flat image. *)
Definition flat (h w : nat) (c : Z) : Np.image := repeat (repeat c w) h.

(** A small frame of constant intensity, a plus-shaped sample mask centred
    at (2, 2), and an empty array of means. *)
Definition frame_ex : Np.image := flat 5 5 7.
Definition plus_ex : Np.mask := Uniformity.circular_mask (2, 2) 1 (5%nat, 5%nat).
Definition means_ex : Uniformity.float_array := repeat (repeat (Some 0%Q) 5) 5.

(** A 40 by 40 image at 5 mm spacing: a square phantom of intensity 100
    (576 pixels, convex: area opening and convex hull leave its mask as it
    is) on a background [bg]. *)
Definition phantom_ex (bg : Z -> Z -> Z) : Np.image :=
  map (fun i =>
         map (fun j =>
                if (8 <=? i) && (i <=? 31) && (8 <=? j) && (j <=? 31) then 100 else bg i j)
             (Py.range 0 40))
      (Py.range 0 40).

(** No signal outside the phantom, and a single background pixel of
    intensity 7 above it. *)
Definition phantom_dark : Np.image := phantom_ex (fun _ _ => 0).
Definition phantom_ghost : Np.image :=
  phantom_ex (fun i j => if (i =? 3) && (j =? 20) then 7 else 0).

(** The same phantom moved against the left border of the image, no
    signal outside it. *)
Definition phantom_left : Np.image :=
  map (fun i =>
         map (fun j => if (8 <=? i) && (i <=? 31) && (j <=? 23) then 100 else 0)
             (Py.range 0 40))
      (Py.range 0 40).

(** Rods on a regular grid, in the order of [sort_rods]: the outer rods
    of every row and column are 120 apart. *)
Definition grid_ex : list Rod :=
  [mkRod 0 120; mkRod 60 120; mkRod 120 120;
   mkRod 0 60; mkRod 60 60; mkRod 120 60;
   mkRod 0 0; mkRod 60 0; mkRod 120 0].

(** The nine centroids above in the order of [sort_rods], and nine rods
    close to the first rows of an image. *)
Definition rods_ex : list Rod :=
  [mkRod 9 (101 # 2); mkRod 29 50; mkRod 49 51;
   mkRod 11 30; mkRod 31 (61 # 2); mkRod 51 31;
   mkRod 10 11; mkRod 30 (21 # 2); mkRod 50 10].

Definition rods_high : list Rod :=
  [mkRod 2 12; mkRod 10 12; mkRod 18 12;
   mkRod 2 8; mkRod 10 8; mkRod 18 8;
   mkRod 2 2; mkRod 10 2; mkRod 18 2].

(** Stand-ins for [np.polyfit] and [interp1d]: a fit that answers the
    baseline [-x^2 - 10] for abscissa and ordinates of one length, and
    the linear interpolation over the abscissa 0, 1, 2, ... *)
Definition polyfit_ex (x y : list Q) (deg : Z) : result (list Q) :=
  if (length x =? length y)%nat then ret baseline_ex else raise TypeError.

Definition interp1d_ex (x y : list Q) : result (Q -> Q) :=
  ret (fun q =>
         let k := Z.to_nat (Z.max 0 (Z.min (Z.of_nat (length x) - 2) (Qfloor q))) in
         Qred (nth k y 0 + (nth (S k) y 0 - nth k y 0) * (q - nth k x 0))%Q).

(** A measured profile of sixty samples: the baseline with a dip of depth
    5 in the middle. *)
Definition profile_ex : list Q :=
  map (fun k => inject_Z (- k * k - 10 - (if (20 <=? k) && (k <? 40) then 5 else 0)))
      (Py.range 0 60).

(** An image brighter towards the right, for a centre (5, 5) at a pixel
    spacing of 20. *)
Definition slope_ex : Np.image :=
  map (fun i => map (fun j => 100 + 10 * j) (Py.range 0 14)) (Py.range 0 14).

(** Data sets of a stack: an instance number and an inversion time. *)
Definition attribute_ex (x : Z * Q) (att : String.string) : option Q :=
  if String.eqb att "InversionTime"%string then Some (snd x) else None.

Definition images_ex : list (Z * Q) :=
  [(1, 500%Q); (2, 50%Q); (3, 2000%Q); (4, 50%Q)].

(** A stand-in for an iteration of the ECC algorithm that never settles:
    it moves the matrix by one column and reports the correlation
    coefficients 1/2 and 1/4 in turn. *)
Definition ecc_restless (template target : Np.image) (warp : Relaxometry.affine)
    : result (Q * Relaxometry.affine) :=
  let '(Relaxometry.Affine m00 m01 m02 m10 m11 m12) := warp in
  ret (if Z.even (Qfloor m02) then 1 # 2 else 1 # 4,
       Relaxometry.Affine m00 m01 (Qred (m02 + 1)) m10 m11 m12)%Q.

End Samples.

(** * Properties *)

(** ** The stable sort *)

Module PyFacts.

Lemma filter_perm {A} (p : A -> bool) l l' :
  Permutation l l' -> Permutation (filter p l) (filter p l').
Proof.
  induction 1 as [|a l l' _ IH|a b l|l l' l'' _ IH1 _ IH2]; cbn.
  - constructor.
  - destruct (p a); [now constructor | exact IH].
  - destruct (p a), (p b); try reflexivity. apply perm_swap.
  - now transitivity (filter p l').
Qed.

Section Sorted.
Context {A : Type} (key : A -> Q).

Definition key_le (a b : A) : Prop := (key a <= key b)%Q.

Lemma insert_perm a l : Permutation (Py.insert key a l) (a :: l).
Proof.
  induction l as [|b l IH]; cbn; [reflexivity|].
  destruct (Qle_bool (key a) (key b)); [reflexivity|].
  rewrite IH. apply perm_swap.
Qed.

Lemma sorted_perm l : Permutation (Py.sorted key l) l.
Proof.
  induction l as [|a l IH]; cbn; [reflexivity|].
  rewrite insert_perm. now constructor.
Qed.

Lemma insert_sorted a l :
  StronglySorted key_le l -> StronglySorted key_le (Py.insert key a l).
Proof.
  induction 1 as [|b l Hl IH Hb]; cbn.
  - repeat constructor.
  - destruct (Qle_bool (key a) (key b)) eqn:E.
    + apply Qle_bool_iff in E. constructor; [now constructor|].
      constructor; [exact E|].
      eapply Forall_impl; [|exact Hb]. intros c Hc. unfold key_le in *.
      now apply Qle_trans with (key b).
    + constructor; [exact IH|].
      apply (Permutation_Forall (Permutation_sym (insert_perm a l))).
      constructor; [|exact Hb].
      unfold key_le. apply Qlt_le_weak, Qnot_le_lt. intro H.
      apply Qle_bool_iff in H. congruence.
Qed.

Lemma sorted_sorted l : StronglySorted key_le (Py.sorted key l).
Proof.
  induction l; cbn; [constructor | now apply insert_sorted].
Qed.

(** A list sorted by the key and a predicate closed towards smaller
    keys: the elements satisfying it come first. *)
Lemma sorted_split (p : A -> bool) l :
  StronglySorted key_le l ->
  (forall a b, In a l -> In b l -> key_le a b -> p b = true -> p a = true) ->
  l = filter p l ++ filter (fun a => negb (p a)) l.
Proof.
  induction 1 as [|a l Hl IH Ha]; intros Hp; [reflexivity|].
  cbn. destruct (p a) eqn:E; cbn.
  - f_equal. apply IH. intros; apply (Hp a0 b); cbn; auto.
  - assert (Hf : forall b, In b l -> p b = false).
    { intros b Hb. destruct (p b) eqn:Eb; [|reflexivity].
      rewrite Forall_forall in Ha.
      rewrite (Hp a b) in E; cbn; auto. }
    assert (Hnone : filter p l = []).
    { clear -Hf. induction l as [|b l IHl]; cbn; [reflexivity|].
      rewrite (Hf b) by now left. apply IHl. intros; apply Hf; now right. }
    rewrite Hnone. cbn. f_equal.
    rewrite IH at 1; [now rewrite Hnone|].
    intros; apply (Hp a0 b); cbn; auto.
Qed.

(** Two sorted arrangements of the same elements are the same list when
    the key tells the elements apart. *)
Lemma sorted_unique l1 : forall l2,
  StronglySorted key_le l1 -> StronglySorted key_le l2 ->
  Permutation l1 l2 ->
  (forall a b, In a l1 -> In b l1 -> (key a == key b)%Q -> a = b) ->
  l1 = l2.
Proof.
  induction l1 as [|a t1 IH]; intros l2 H1 H2 HP Hk.
  - now apply Permutation_nil in HP.
  - destruct l2 as [|b t2]; [now apply Permutation_sym, Permutation_nil in HP|].
    inversion H1 as [|? ? Ht1 Ha]; inversion H2 as [|? ? Ht2 Hb]; subst.
    assert (a = b) as ->.
    { assert (Ia : In a (b :: t2)) by (eapply Permutation_in; [exact HP|now left]).
      assert (Ib : In b (a :: t1)) by (eapply Permutation_in; [apply Permutation_sym, HP|now left]).
      destruct Ia as [->|Ia]; [reflexivity|].
      destruct Ib as [->|Ib]; [reflexivity|].
      apply Hk; [now left | now right |].
      rewrite Forall_forall in Ha, Hb.
      apply Qle_antisym; [now apply Ha | now apply Hb]. }
    f_equal. apply IH; auto.
    + now apply Permutation_cons_inv in HP.
    + intros; apply Hk; cbn; auto.
Qed.

Lemma sorted_suffix n l :
  StronglySorted key_le l -> StronglySorted key_le (skipn n l).
Proof.
  revert l. induction n as [|n IH]; intros l H; [exact H|].
  destruct l as [|a l]; [constructor|]. cbn. apply IH. now inversion H.
Qed.

(** Cutting a sorted list into the part below and the part above a gap
    in the keys. *)
Lemma sorted_take lo hi s :
  StronglySorted key_le s ->
  Permutation s (lo ++ hi) ->
  (forall a b, In a lo -> In b hi -> (key a < key b)%Q) ->
  Permutation (firstn (length lo) s) lo /\ Permutation (skipn (length lo) s) hi.
Proof.
  intros Hs HP Hgap.
  set (p := fun a => forallb (fun b => negb (Qle_bool (key b) (key a))) hi).
  assert (Hlo : forall a, In a lo -> p a = true).
  { intros a Ha. apply forallb_forall. intros b Hb.
    apply negb_true_iff. destruct (Qle_bool (key b) (key a)) eqn:E; [|reflexivity].
    apply Qle_bool_iff in E. specialize (Hgap a b Ha Hb).
    exfalso. now apply (Qlt_not_le _ _ Hgap). }
  assert (Hhi : forall a, In a hi -> p a = false).
  { intros a Ha. destruct (p a) eqn:E; [|reflexivity].
    unfold p in E. rewrite forallb_forall in E. specialize (E a Ha).
    apply negb_true_iff in E.
    assert (Qle_bool (key a) (key a) = true) by (apply Qle_bool_iff, Qle_refl).
    congruence. }
  assert (Hsplit : s = filter p s ++ filter (fun a => negb (p a)) s).
  { apply sorted_split; [exact Hs|].
    intros a b _ _ Hab Hb. apply forallb_forall. intros c Hc.
    unfold p in Hb. rewrite forallb_forall in Hb. specialize (Hb c Hc).
    apply negb_true_iff in Hb. apply negb_true_iff.
    destruct (Qle_bool (key c) (key a)) eqn:E; [|reflexivity].
    apply Qle_bool_iff in E.
    assert (Qle_bool (key c) (key b) = true)
      by (apply Qle_bool_iff; now apply Qle_trans with (key a)).
    congruence. }
  clearbody p.
  assert (F1 : filter p (lo ++ hi) = lo).
  { rewrite filter_app.
    replace (filter p hi) with (@nil A).
    - rewrite app_nil_r. clear -Hlo. induction lo as [|a l IH]; cbn; [reflexivity|].
      rewrite Hlo by now left. f_equal. apply IH. intros; apply Hlo; now right.
    - clear -Hhi. induction hi as [|a l IH]; cbn; [reflexivity|].
      rewrite Hhi by now left. apply IH. intros; apply Hhi; now right. }
  assert (F2 : filter (fun a => negb (p a)) (lo ++ hi) = hi).
  { rewrite filter_app.
    replace (filter (fun a => negb (p a)) lo) with (@nil A).
    - cbn. clear -Hhi. induction hi as [|a l IH]; cbn; [reflexivity|].
      rewrite Hhi by now left. cbn. f_equal. apply IH. intros; apply Hhi; now right.
    - clear -Hlo. induction lo as [|a l IH]; cbn; [reflexivity|].
      rewrite Hlo by now left. cbn. apply IH. intros; apply Hlo; now right. }
  assert (P1 : Permutation (filter p s) lo)
    by (rewrite <- F1; now apply filter_perm).
  assert (P2 : Permutation (filter (fun a => negb (p a)) s) hi)
    by (rewrite <- F2; now apply filter_perm).
  assert (L : length (filter p s) = length lo) by now apply Permutation_length.
  rewrite Hsplit, <- L.
  rewrite firstn_app, Nat.sub_diag, firstn_all, firstn_O, app_nil_r.
  rewrite skipn_app, Nat.sub_diag, skipn_all. cbn. now split.
Qed.

Lemma sorted_of_perm l1 l2 :
  Permutation l1 l2 ->
  (forall a b, In a l1 -> In b l1 -> (key a == key b)%Q -> a = b) ->
  Py.sorted key l1 = Py.sorted key l2.
Proof.
  intros HP Hk. apply sorted_unique; try apply sorted_sorted.
  - now rewrite !sorted_perm.
  - intros a b Ia Ib. apply Hk; eapply Permutation_in; try apply sorted_perm; auto.
Qed.
End Sorted.

End PyFacts.

(** ** Connected components *)

Module NdimageFacts.
Import Ndimage.

Lemma get_true_in (b : Np.mask) r c :
  get false b r c = true -> exists row, In row b /\ In true row.
Proof.
  unfold get. intros H.
  destruct (Nat.lt_ge_cases r (length b)) as [Hr|Hr].
  - exists (nth r b []). split; [now apply nth_In|].
    destruct (Nat.lt_ge_cases c (length (nth r b []))) as [Hc|Hc].
    + rewrite <- H. now apply nth_In.
    + rewrite nth_overflow in H by exact Hc. discriminate.
  - rewrite (nth_overflow b) in H by exact Hr. destruct c; discriminate.
Qed.

(** A mask without foreground has no component. *)
Lemma label_no_foreground (b : Np.mask) :
  (forall row, In row b -> ~ In true row) -> snd (label b) = 0.
Proof.
  intros H. unfold label.
  assert (G : forall r c, get false b r c = false).
  { intros r c. destruct (get false b r c) eqn:E; [|reflexivity].
    apply get_true_in in E as (row & Hrow & Ht). now destruct (H row Hrow). }
  generalize (map (map (fun _ : bool => 0)) b) as L.
  generalize (length (Np.flatten b)) as n.
  induction (coords b) as [|[r c] l IH]; intros n L; cbn; [reflexivity|].
  rewrite G. cbn. apply IH.
Qed.

Lemma le_scalar_no_foreground (a : Np.image) (x : Z) :
  Forall (Forall (fun p => x < p)) a ->
  forall row, In row (Np.le_scalar a x) -> ~ In true row.
Proof.
  intros H row Hrow Ht. unfold Np.le_scalar in Hrow.
  apply in_map_iff in Hrow as (row' & <- & Hrow').
  apply in_map_iff in Ht as (p & Hp & Hin).
  rewrite Forall_forall in H. specialize (H row' Hrow').
  rewrite Forall_forall in H. specialize (H p Hin).
  apply Z.leb_le in Hp. lia.
Qed.

End NdimageFacts.

(** ** The synthetic trapezoid *)

Module TrapezoidFacts.
Import SliceWidth.

Lemma refused_spec n : Np.refused n = false <-> 0 <= n <= Np.max_length.
Proof.
  unfold Np.refused. rewrite orb_false_iff, Z.ltb_ge, Z.ltb_ge. lia.
Qed.

Lemma zeros_inr n l : Np.zeros n = inr l -> l = repeat 0%Q (Z.to_nat n).
Proof. unfold Np.zeros. destruct (Np.refused n); [discriminate|]. now intros [= <-]. Qed.

Lemma ones_inr n l : Np.ones n = inr l -> l = repeat 1%Q (Z.to_nat n).
Proof. unfold Np.ones. destruct (Np.refused n); [discriminate|]. now intros [= <-]. Qed.

Lemma zeros_error n e : Np.zeros n = inl e -> e = ValueError.
Proof. unfold Np.zeros. destruct (Np.refused n); [now intros [= <-]|discriminate]. Qed.

Lemma ones_error n e : Np.ones n = inl e -> e = ValueError.
Proof. unfold Np.ones. destruct (Np.refused n); [now intros [= <-]|discriminate]. Qed.

Lemma linspace_error start stop num e : Np.linspace start stop num = inl e -> e = ValueError.
Proof.
  unfold Np.linspace. destruct (Np.refused num); [now intros [= <-]|].
  destruct (num <=? 1); discriminate.
Qed.

Lemma linspace_length start stop num l :
  Np.linspace start stop num = inr l -> length l = Z.to_nat num.
Proof.
  unfold Np.linspace. destruct (Np.refused num); [discriminate|].
  destruct (num <=? 1); intros [= <-]; now rewrite length_map, length_seq.
Qed.

Lemma seg_len_to_nat n : Z.to_nat (seg_len n) = if n <? 1 then 0%nat else Z.to_nat n.
Proof. unfold seg_len. now destruct (n <? 1). Qed.

Lemma seg_len_nonneg n : 0 <= seg_len n.
Proof. unfold seg_len. destruct (n <? 1) eqn:E; [lia|]. apply Z.ltb_ge in E. lia. Qed.

(** What [trapezoid] returns, segment by segment. *)
Lemma trapezoid_inr (c : trap_coeffs) trap fwhm :
  trapezoid c = inr (trap, fwhm) ->
  exists left_baseline left_ramp plateau right_ramp right_baseline,
    trap = left_baseline ++ left_ramp ++ plateau ++ right_ramp ++ right_baseline /\
    fwhm = n_plateau c + n_ramp c /\
    segment (n_left_baseline c) (Np.zeros (n_left_baseline c)) left_baseline /\
    segment (n_ramp c) (Np.linspace 0 (plateau_amplitude c) (n_ramp c)) left_ramp /\
    segment (n_ramp c) (Np.linspace (plateau_amplitude c) 0 (n_ramp c)) right_ramp /\
    segment (n_plateau c)
      (ones <- Np.ones (n_plateau c) ;; ret (map (fun o => (plateau_amplitude c * o)%Q) ones))
      plateau /\
    segment (n_right_baseline c) (Np.zeros (n_right_baseline c)) right_baseline.
Proof.
  unfold trapezoid, segment.
  destruct (if n_left_baseline c <? 1 then _ else _) as [e|L] eqn:EL; cbn [bind];
    [discriminate|].
  destruct (if n_ramp c <? 1 then _ else _) as [e|[lr rr]] eqn:Er; cbn [bind];
    [discriminate|].
  destruct (if n_plateau c <? 1 then _ else _) as [e|P] eqn:EP; cbn [bind];
    [discriminate|].
  destruct (if n_right_baseline c <? 1 then _ else _) as [e|R] eqn:ER; cbn [bind];
    [discriminate|].
  intros [= <- <-]. exists L, lr, P, rr, R.
  split; [reflexivity|]. split; [reflexivity|].
  destruct (n_left_baseline c <? 1); [injection EL as <-|];
    (split; [first [reflexivity|assumption]|]).
  all: destruct (n_ramp c <? 1).
  all: try (injection Er as <- <-).
  all: try (destruct (Np.linspace 0 _ _) as [e|lr'] eqn:E1; cbn [bind] in Er; [discriminate|];
            destruct (Np.linspace _ 0 _) as [e|rr'] eqn:E2; cbn [bind] in Er; [discriminate|];
            injection Er as <- <-).
  all: split; [reflexivity|]; split; [reflexivity|].
  all: destruct (n_plateau c <? 1); [injection EP as <-|];
    (split; [first [reflexivity|assumption]|]).
  all: destruct (n_right_baseline c <? 1); [injection ER as <-|];
    first [reflexivity|assumption].
Qed.

Lemma segment_length n built s :
  segment n built s -> (forall l, built = inr l -> length l = Z.to_nat n) ->
  Z.of_nat (length s) = seg_len n.
Proof.
  unfold segment, seg_len. destruct (n <? 1) eqn:E.
  - now intros ->.
  - intros H L. rewrite (L s H). apply Z.ltb_ge in E. lia.
Qed.

(** The number of samples of the synthetic signal. *)
Lemma trapezoid_length (c : trap_coeffs) trap fwhm :
  trapezoid c = inr (trap, fwhm) ->
  Z.of_nat (length trap) =
    seg_len (n_left_baseline c) + 2 * seg_len (n_ramp c)
    + seg_len (n_plateau c) + seg_len (n_right_baseline c).
Proof.
  intros H. apply trapezoid_inr in H as (L & lr & P & rr & R & -> & _ & HL & Hlr & Hrr & HP & HR).
  rewrite !length_app, !Nat2Z.inj_add.
  rewrite (segment_length _ _ _ HL), (segment_length _ _ _ Hlr), (segment_length _ _ _ Hrr),
    (segment_length _ _ _ HP), (segment_length _ _ _ HR); [lia| | | | |].
  - intros l E. apply zeros_inr in E. subst l. apply repeat_length.
  - intros l. destruct (Np.ones _) as [e|o] eqn:E; cbn [bind]; [discriminate|].
    intros [= <-]. apply ones_inr in E. subst o. now rewrite length_map, repeat_length.
  - intros l. apply linspace_length.
  - intros l. apply linspace_length.
  - intros l E. apply zeros_inr in E. subst l. apply repeat_length.
Qed.

Lemma trapezoid_fwhm (c : trap_coeffs) trap fwhm :
  trapezoid c = inr (trap, fwhm) -> fwhm = n_plateau c + n_ramp c.
Proof. intros H. now apply trapezoid_inr in H as (L & lr & P & rr & R & _ & -> & _). Qed.

(** [trapezoid] raises nothing but the [ValueError] of an array NumPy
    refuses. *)
Lemma trapezoid_error (c : trap_coeffs) e : trapezoid c = inl e -> e = ValueError.
Proof.
  unfold trapezoid.
  destruct (n_left_baseline c <? 1); cbn [bind ret];
    [|destruct (Np.zeros (n_left_baseline c)) as [e1|L] eqn:EL; cbn [bind];
      [intros [= <-]; now apply zeros_error in EL|]].
  all: destruct (n_ramp c <? 1); cbn [bind ret];
    [|destruct (Np.linspace 0 _ _) as [e1|lr] eqn:E1; cbn [bind];
      [intros [= <-]; now apply linspace_error in E1|];
      destruct (Np.linspace _ 0 _) as [e2|rr] eqn:E2; cbn [bind ret];
      [intros [= <-]; now apply linspace_error in E2|]].
  all: destruct (n_plateau c <? 1); cbn [bind ret];
    [|destruct (Np.ones (n_plateau c)) as [e1|o] eqn:EP; cbn [bind ret];
      [intros [= <-]; now apply ones_error in EP|]].
  all: destruct (n_right_baseline c <? 1); cbn [bind ret];
    [|destruct (Np.zeros (n_right_baseline c)) as [e1|R] eqn:ER; cbn [bind ret];
      [intros [= <-]; now apply zeros_error in ER|]].
  all: discriminate.
Qed.

Lemma zeros_fits n l : Np.zeros n = inr l -> n <= Np.max_length.
Proof.
  unfold Np.zeros. destruct (Np.refused n) eqn:E; [discriminate|]. intros _.
  now apply refused_spec in E.
Qed.

Lemma ones_fits n l : Np.ones n = inr l -> n <= Np.max_length.
Proof.
  unfold Np.ones. destruct (Np.refused n) eqn:E; [discriminate|]. intros _.
  now apply refused_spec in E.
Qed.

Lemma linspace_fits start stop n l : Np.linspace start stop n = inr l -> n <= Np.max_length.
Proof.
  unfold Np.linspace. destruct (Np.refused n) eqn:E; [discriminate|]. intros _.
  now apply refused_spec in E.
Qed.

Lemma segment_fits n built s :
  segment n built s -> (forall l, built = inr l -> n <= Np.max_length) -> n <= Np.max_length.
Proof.
  unfold segment. destruct (n <? 1) eqn:E.
  - intros _ _. apply Z.ltb_lt in E. unfold Np.max_length. lia.
  - intros H F. now apply (F s).
Qed.

Lemma trapezoid_inr_fits (c : trap_coeffs) trap fwhm : trapezoid c = inr (trap, fwhm) -> fits c.
Proof.
  intros H. apply trapezoid_inr in H as (L & lr & P & rr & R & _ & _ & HL & Hlr & _ & HP & HR).
  repeat split.
  - eapply segment_fits; [exact HL|]. apply zeros_fits.
  - eapply segment_fits; [exact Hlr|]. apply linspace_fits.
  - eapply segment_fits; [exact HP|]. intros l.
    destruct (Np.ones _) as [e|o] eqn:E; cbn [bind]; [discriminate|]. intros _.
    eapply ones_fits; eauto.
  - eapply segment_fits; [exact HR|]. apply zeros_fits.
Qed.

Lemma built n (f : Z -> result (list Q)) :
  n <= Np.max_length ->
  (forall m, Np.refused m = false -> exists l, f m = inr l) ->
  exists l, (if n <? 1 then ret [] else f n) = inr l.
Proof.
  intros Hn F. destruct (n <? 1) eqn:E; [now exists []|].
  apply F. apply refused_spec. apply Z.ltb_ge in E. lia.
Qed.

Lemma trapezoid_returns (c : trap_coeffs) :
  fits c -> exists trap, trapezoid c = inr (trap, n_plateau c + n_ramp c).
Proof.
  intros (HL & Hr & HP & HR). unfold trapezoid.
  destruct (built (n_left_baseline c) Np.zeros HL) as [L ->].
  { intros m Hm. unfold Np.zeros. rewrite Hm. eauto. }
  cbn [bind].
  assert (Er : exists lr rr,
            (if n_ramp c <? 1 then ret ([], [])
             else left_ramp <- Np.linspace 0 (plateau_amplitude c) (n_ramp c) ;;
                  right_ramp <- Np.linspace (plateau_amplitude c) 0 (n_ramp c) ;;
                  ret (left_ramp, right_ramp)) = inr (lr, rr)).
  { destruct (n_ramp c <? 1) eqn:E; [now exists [], []|].
    assert (F : Np.refused (n_ramp c) = false)
      by (apply refused_spec; apply Z.ltb_ge in E; lia).
    unfold Np.linspace. rewrite F. destruct (n_ramp c <=? 1); cbn [bind ret]; eauto. }
  destruct Er as (lr & rr & ->). cbn [bind].
  destruct (built (n_plateau c)
              (fun n => ones <- Np.ones n ;;
                        ret (map (fun o => (plateau_amplitude c * o)%Q) ones)) HP) as [P ->].
  { intros m Hm. unfold Np.ones. rewrite Hm. cbn [bind ret]. eauto. }
  cbn [bind].
  destruct (built (n_right_baseline c) Np.zeros HR) as [R ->].
  { intros m Hm. unfold Np.zeros. rewrite Hm. eauto. }
  cbn [bind ret]. eauto.
Qed.

(** C10 (as the code has it).  [trapezoid] returns for all integer
    segment lengths that NumPy can allocate, the lengths below 1 among
    them: such a segment is empty, the signal has as many samples as the
    included segments together (left baseline, two ramps, plateau, right
    baseline), and the returned full width is [n_plateau + n_ramp]
    whatever their signs.  For a segment beyond what NumPy allocates it
    raises [ValueError]. *)
Theorem trapezoid_length_fwhm (c : trap_coeffs) :
  (fits c ->
   exists trap,
     trapezoid c = inr (trap, n_plateau c + n_ramp c) /\
     Z.of_nat (length trap) =
       seg_len (n_left_baseline c) + 2 * seg_len (n_ramp c)
       + seg_len (n_plateau c) + seg_len (n_right_baseline c)) /\
  (~ fits c -> trapezoid c = inl ValueError).
Proof.
  split.
  - intros H. destruct (trapezoid_returns c H) as [trap E]. exists trap.
    split; [exact E|]. eapply trapezoid_length; eauto.
  - intros H. destruct (trapezoid c) as [e|[trap fwhm]] eqn:E.
    + f_equal. eapply trapezoid_error; eauto.
    + exfalso. apply H. eapply trapezoid_inr_fits; eauto.
Qed.

Lemma trapezoid_length_fwhm_witness :
  exists trap,
    trapezoid (TrapCoeffs (-3) 0 2 (-1) (7 # 2)) = inr (trap, -3) /\
    Z.of_nat (length trap) = 2.
Proof.
  apply (proj1 (trapezoid_length_fwhm (TrapCoeffs (-3) 0 2 (-1) (7 # 2)))).
  unfold fits, Np.max_length; cbn [n_left_baseline n_ramp n_plateau n_right_baseline]; lia.
Defined.

(** C10 (as stated) fails for a segment NumPy cannot allocate, and the
    code reaches one: on a profile without a sample below its mean the
    left baseline of the initial guess has 2^63 - 24 samples, and
    [trapezoid] raises [ValueError]. *)
Lemma trapezoid_refuses :
  get_initial_trapezoid_fit_and_coefficients [1; 1; 1; 1]%Q 3 = inl ValueError /\
  trapezoid (TrapCoeffs 7 32 (2 ^ 63 - 24) (4 - (2 ^ 63 - 24) - 2 * 7 - 32) 0) = inl ValueError.
Proof. split; vm_compute; reflexivity. Qed.

End TrapezoidFacts.

(** ** The trapezoid search *)

Module FitFacts.
Import SliceWidth Samples.

Lemma ltb_lt a b : Np.ltb a b = true -> (a < b)%Q.
Proof.
  unfold Np.ltb. intros H. apply negb_true_iff in H.
  apply Qnot_le_lt. intros Hle. apply Qle_bool_iff in Hle. congruence.
Qed.

Lemma broadcast_error op a b e : Np.broadcast op a b = inl e -> e = ValueError.
Proof.
  unfold Np.broadcast. destruct (Nat.eqb _ _); [discriminate|].
  destruct a as [|x [|x' a]]; destruct b as [|y [|y' b]]; cbn;
    try discriminate; now intros [= <-].
Qed.

Lemma get_error_error x p b t e : get_error x p b t = inl e -> e = ValueError.
Proof.
  unfold get_error.
  destruct (trapezoid t) as [e0|[trap fwhm]] eqn:T; cbn [bind].
  - intros [= <-]. eapply TrapezoidFacts.trapezoid_error; eauto.
  - unfold Np.add, Np.sub.
    destruct (Np.broadcast _ (Np.poly1d_call _ _) _) as [e1|m] eqn:E1; cbn.
    + intros [= <-]. eapply broadcast_error; eauto.
    + destruct (Np.broadcast _ p m) as [e2|d] eqn:E2; cbn; [|discriminate].
      intros [= <-]. eapply broadcast_error; eauto.
Qed.

Section Search.
Variables x_interp profile_interp : list Q.

Local Abbreviation step := (fit_step x_interp profile_interp).
Local Abbreviation pass := (fit_pass x_interp profile_interp).
Local Abbreviation loop := (fun fuel => fit_loop fuel x_interp profile_interp).

(** What a turn of the inner loop does: nothing, or it takes over the
    perturbed error, which was strictly below the recorded one. *)
Lemma fit_step_cases i st st' :
  step i st = inr st' ->
  st' = st \/
  ((current_error st' < current_error st)%Q /\ cont st' = 1 /\ j st' = j st /\
   get_error x_interp profile_interp
     (fst (perturb i (baseline_fit_coefficients st) (trapezoid_fit_coefficients st)))
     (snd (perturb i (baseline_fit_coefficients st) (trapezoid_fit_coefficients st)))
   = inr (current_error st')).
Proof.
  unfold fit_step.
  destruct (perturb i _ _) as [bt tt]. cbn [fst snd].
  destruct (get_error x_interp profile_interp bt tt) as [e|new_error]; cbn [bind];
    [discriminate|].
  destruct (Np.ltb new_error (current_error st)) eqn:E.
  - apply ltb_lt in E. destruct (6 <? i); intros [= <-]; right; cbn; auto.
  - intros [= <-]. now left.
Qed.

Lemma fit_step_error i st e : step i st = inl e -> e = ValueError.
Proof.
  unfold fit_step. destruct (perturb i _ _) as [bt tt].
  destruct (get_error x_interp profile_interp bt tt) as [e'|new_error] eqn:E; cbn [bind].
  - intros [= <-]. eapply get_error_error; eauto.
  - destruct (Np.ltb _ _); [destruct (6 <? i)|]; discriminate.
Qed.

Lemma fit_step_add_j d i st : step i (add_j d st) = map_result (add_j d) (step i st).
Proof.
  unfold fit_step. cbn [add_j baseline_fit_coefficients trapezoid_fit_coefficients
                        current_error j].
  destruct (perturb i _ _) as [bt tt].
  destruct (get_error x_interp profile_interp bt tt) as [e'|new_error]; cbn [bind];
    [reflexivity|].
  destruct (Np.ltb _ _); [destruct (6 <? i)|]; reflexivity.
Qed.

Local Abbreviation steps := (SliceWidth.steps x_interp profile_interp).

Lemma steps_inl l e : steps l (inl e) = inl e.
Proof. induction l; cbn; auto. Qed.

Lemma steps_no_accept l : forall st st',
  steps l (inr st) = inr st' -> cont st' <> 1 -> st' = st.
Proof.
  induction l as [|i l IH]; intros st st'; cbn.
  - now intros [= <-].
  - fold (steps l (step i st)). destruct (step i st) as [e|st1] eqn:E.
    + now rewrite steps_inl.
    + intros H Hc. pose proof (IH _ _ H Hc) as ->.
      apply fit_step_cases in E as [->|(_ & Hc1 & _)]; [reflexivity|contradiction].
Qed.

Lemma steps_error l : forall acc e,
  steps l acc = inl e -> (acc = inl e \/ e = ValueError).
Proof.
  induction l as [|i l IH]; intros acc e; cbn; [auto|].
  fold (steps l (st' <- acc ;; step i st')). intros H.
  apply IH in H as [H|H]; [|auto].
  destruct acc as [e'|st]; cbn in H; [auto|]. right. eapply fit_step_error; eauto.
Qed.

Lemma steps_add_j d l : forall acc,
  steps l (map_result (add_j d) acc) = map_result (add_j d) (steps l acc).
Proof.
  induction l as [|i l IH]; intros acc; cbn; [reflexivity|].
  fold (steps l (st' <- map_result (add_j d) acc ;; step i st')).
  fold (steps l (st' <- acc ;; step i st')).
  rewrite <- IH. f_equal. destruct acc as [e|st]; cbn; [reflexivity|].
  apply fit_step_add_j.
Qed.

Lemma fit_pass_add_j d st : pass (add_j d st) = map_result (add_j d) (pass st).
Proof.
  unfold fit_pass.
  rewrite <- steps_add_j.
  unfold ret, map_result, add_j.
  cbn [baseline_fit_coefficients trapezoid_fit_coefficients current_error cont j].
  replace (j st + d + 1) with (j st + 1 + d) by lia. reflexivity.
Qed.

Lemma fit_loop_add_j d fuel : forall st,
  loop fuel (add_j d st) = option_map (map_result (add_j d)) (loop fuel st).
Proof.
  induction fuel as [|fuel IH]; intros st; cbn [fit_loop add_j cont].
  - destruct (cont st =? 1); reflexivity.
  - destruct (cont st =? 1); [|reflexivity].
    change (FitState _ _ _ (cont st) (j st + d)) with (add_j d st).
    rewrite fit_pass_add_j. destruct (pass st) as [e|st']; cbn; [reflexivity|].
    apply IH.
Qed.

Lemma fit_loop_error fuel : forall st e,
  loop fuel st = Some (inl e) -> e = ValueError.
Proof.
  induction fuel as [|fuel IH]; intros st e; cbn [fit_loop].
  - destruct (cont st =? 1); discriminate.
  - destruct (cont st =? 1); [|discriminate].
    destruct (pass st) as [e'|st'] eqn:E.
    + intros [= <-]. unfold fit_pass in E.
      apply steps_error in E as [E|E]; [discriminate|exact E].
    + apply IH.
Qed.

End Search.

End FitFacts.

Module SliceWidthFacts.
Import SliceWidth Samples.

Lemma filter_none {A} (p : A -> bool) l :
  (forall a, In a l -> p a = false) -> filter p l = [].
Proof.
  induction l as [|a l IH]; intros H; cbn; [reflexivity|].
  rewrite (H a) by now left. apply IH. intros; apply H; now right.
Qed.

Lemma in_combine_map {A B} (f : A -> B) l a b :
  In (a, b) (combine l (map f l)) -> b = f a /\ In a l.
Proof.
  induction l as [|x l IH]; cbn; [easy|].
  intros [H|H]; [inversion H; subst; auto|]. destruct (IH H); auto.
Qed.

(** C1. When no threshold level of the sweep gives ten components
    (the nine rods and the background), [get_rods] does not return
    centroids: it stops with [sys.exit("Did not find the 9 rods")], the
    failure the specification calls DetectionError (an array without any
    pixel already fails in [np.max]).  Pixel values lie above the integer
    NumPy substitutes for the median of no level. *)
Theorem get_rods_fails (arr : Np.image) :
  Forall (Forall (fun p => Np.nan_astype_int < p)) arr ->
  (forall img_max, Np.max arr = inr img_max -> ~ In 10 (sweep arr img_max)) ->
  exists e, get_rods arr = inl e /\
            (Np.flatten arr <> [] -> e = SystemExit "Did not find the 9 rods"%string).
Proof.
  intros Hpix Hsweep. unfold get_rods.
  destruct (Np.max arr) as [e|img_max] eqn:Emax.
  - exists e. split; [reflexivity|]. intros Hne.
    unfold Np.max in Emax. destruct (Np.flatten arr); [congruence|discriminate].
  - cbn [bind]. specialize (Hsweep img_max eq_refl).
    rewrite filter_none.
    + cbn [map Np.median Py.sorted fold_right length Np.astype_int].
      pose proof (NdimageFacts.label_no_foreground _
                    (NdimageFacts.le_scalar_no_foreground arr _ Hpix)) as Hl.
      destruct (Ndimage.label (Np.le_scalar arr Np.nan_astype_int)) as [L n].
      cbn in Hl. subst n. cbn. eexists; split; reflexivity.
    + intros [i val] Hin. unfold sweep in Hin, Hsweep.
      apply in_combine_map in Hin as [-> Hi].
      apply Z.eqb_neq. intros Heq. apply Hsweep.
      rewrite <- Heq. apply in_map_iff. now exists i.
Qed.

Example get_rods_nine_disks :
  get_rods nine_disks =
    inr (Some [mkRod 2 6; mkRod 4 6; mkRod 6 6;
               mkRod 2 4; mkRod 4 4; mkRod 6 4;
               mkRod 2 2; mkRod 4 2; mkRod 6 2]).
Proof. vm_compute. reflexivity. Qed.

Example sweep_eight_disks : sweep eight_disks 3 = [0; 9; 9].
Proof. vm_compute. reflexivity. Qed.

Lemma get_rods_fails_witness :
  exists e, get_rods eight_disks = inl e /\
            (Np.flatten eight_disks <> [] ->
             e = SystemExit "Did not find the 9 rods"%string).
Proof.
  apply (get_rods_fails eight_disks).
  - repeat constructor.
  - intros img_max H. vm_compute in H. injection H as <-.
    vm_compute. intros [H|[H|[H|[]]]]; discriminate H.
Defined.

Lemma x_distinct_perm row row' :
  Permutation row row' -> x_distinct row' -> x_distinct row.
Proof.
  intros HP H a b Ia Ib. apply H; eapply Permutation_in; eauto.
Qed.

Lemma row_by_x_sorted row : row_by_x row (Py.sorted rod_x row).
Proof.
  split; [apply PyFacts.sorted_perm | apply (PyFacts.sorted_sorted rod_x)].
Qed.

Lemma sort_rods_rows rods upper middle lower :
  rows_3x3 upper middle lower ->
  Permutation rods (upper ++ middle ++ lower) ->
  sort_rods rods =
    Py.sorted rod_x lower ++ Py.sorted rod_x middle ++ Py.sorted rod_x upper.
Proof.
  intros (Lu & Lm & Ll & Hum & Hml & Du & Dm & Dl) HP.
  unfold sort_rods, Py.slice, Py.slice_last.
  set (s := Py.sorted rod_y rods).
  assert (Hs : StronglySorted (PyFacts.key_le rod_y) s)
    by apply PyFacts.sorted_sorted.
  assert (HPs : Permutation s (upper ++ middle ++ lower))
    by (unfold s; now rewrite PyFacts.sorted_perm).
  assert (Len : length s = 9%nat)
    by (rewrite (Permutation_length HPs), !length_app; lia).
  destruct (PyFacts.sorted_take rod_y upper (middle ++ lower) s Hs HPs) as [PU PR].
  { intros a b Ia Ib. apply in_app_or in Ib as [Ib|Ib]; [now apply Hum|].
    destruct middle as [|c ?]; [discriminate|].
    apply Qlt_trans with (rod_y c); [apply Hum | apply Hml]; cbn; auto. }
  rewrite Lu in PU, PR.
  destruct (PyFacts.sorted_take rod_y middle lower (skipn 3 s)
              (PyFacts.sorted_suffix rod_y 3 s Hs) PR Hml) as [PM PL].
  rewrite Lm in PM, PL. rewrite skipn_skipn in PL. cbn [Nat.add] in PL.
  rewrite Len. cbn [Nat.sub skipn].
  change (skipn 0 s) with s.
  f_equal; [|f_equal]; apply PyFacts.sorted_of_perm; auto;
    eapply x_distinct_perm; eauto.
Qed.

(** C3. On nine centroids forming three rows of three, [sort_rods] depends
    only on the set of centroids, not on the order they are given in: it
    returns the lower row (largest [y]) first, then the middle row, then
    the upper row, each read left to right by [x]. *)
Theorem sort_rods_deterministic rods rods' upper middle lower :
  rows_3x3 upper middle lower ->
  Permutation rods (upper ++ middle ++ lower) ->
  Permutation rods' rods ->
  exists l m u,
    row_by_x lower l /\ row_by_x middle m /\ row_by_x upper u /\
    sort_rods rods = l ++ m ++ u /\
    sort_rods rods' = l ++ m ++ u.
Proof.
  intros H HP HP'.
  exists (Py.sorted rod_x lower), (Py.sorted rod_x middle), (Py.sorted rod_x upper).
  repeat split; try apply PyFacts.sorted_perm; try apply (PyFacts.sorted_sorted rod_x).
  - now apply sort_rods_rows.
  - apply sort_rods_rows; [exact H|]. now rewrite HP'.
Qed.


Lemma rows_3x3_ex : rows_3x3 upper_ex middle_ex lower_ex.
Proof.
  unfold rows_3x3, x_distinct, upper_ex, middle_ex, lower_ex.
  repeat split; cbn [In]; intros;
    repeat match goal with
           | H : _ \/ _ |- _ => destruct H
           | H : False |- _ => destruct H
           end; subst; cbn in *; try reflexivity; try discriminate.
Defined.

Lemma sort_rods_deterministic_witness :
  rows_3x3 upper_ex middle_ex lower_ex /\
  exists l m u,
    row_by_x lower_ex l /\ row_by_x middle_ex m /\ row_by_x upper_ex u /\
    sort_rods (upper_ex ++ middle_ex ++ lower_ex) = l ++ m ++ u /\
    sort_rods (rev (upper_ex ++ middle_ex ++ lower_ex)) = l ++ m ++ u.
Proof.
  split; [exact rows_3x3_ex|].
  apply (sort_rods_deterministic _ _ upper_ex middle_ex lower_ex).
  - exact rows_3x3_ex.
  - apply Permutation_refl.
  - apply Permutation_sym, Permutation_rev.
Defined.


End SliceWidthFacts.

(** ** The uniformity sweep *)

Module UniformityFacts.
Import Uniformity Samples.

Lemma nonzero2_none {A} (nz : A -> bool) (a : list (list A)) :
  Forall (Forall (fun v => nz v = false)) a -> Np.nonzero2 nz a = [].
Proof.
  unfold Np.nonzero2. generalize (Py.range 0 (Z.of_nat (length a))) as rs.
  induction a as [|row a IH]; intros rs H; destruct rs as [|r rs]; cbn; auto.
  inversion H as [|? ? Hrow Ha]; subst. rewrite (IH rs Ha), app_nil_r.
  clear -Hrow. generalize (Py.range 0 (Z.of_nat (length row))) as cs.
  induction Hrow as [|v row Hv _ IHr]; intros cs; destruct cs as [|c cs]; cbn; auto.
  rewrite Hv. apply IHr.
Qed.

(** The masked flat image holds only [0] and [c]. *)
Lemma mask_mul_flat m h w c img_masked :
  mask_mul m (flat h w c) = inr img_masked ->
  Forall (Forall (fun v => v = 0 \/ v = c)) img_masked.
Proof.
  unfold mask_mul. destruct (_ && _); [|discriminate]. intros [= <-].
  apply Forall_forall. intros row Hrow. apply in_map_iff in Hrow as ([mr ir] & <- & Hin).
  apply in_combine_r in Hin. apply repeat_spec in Hin. subst ir.
  apply Forall_forall. intros v Hv. apply in_map_iff in Hv as ([b x] & <- & Hin).
  apply in_combine_r in Hin. apply repeat_spec in Hin. subst x.
  destruct b; auto.
Qed.

Lemma sorted_in {A} (key : A -> Q) l a : In a (Py.sorted key l) -> In a l.
Proof. apply Permutation_in, PyFacts.sorted_perm. Qed.

Lemma half_le z : (0 <= z)%Z -> (50 / 100 * inject_Z z <= inject_Z z)%Q.
Proof.
  intros H. change (50 / 100)%Q with (50 # 100)%Q.
  unfold Qle, Qmult, inject_Z. cbn [Qnum Qden]. lia.
Qed.

Lemma half_ge z : (0 <= z)%Z -> (0 <= 50 / 100 * inject_Z z)%Q.
Proof.
  intros H. change (50 / 100)%Q with (50 # 100)%Q.
  unfold Qle, Qmult, inject_Z. cbn [Qnum Qden]. lia.
Qed.

(** The median of equal values is that value. *)
Lemma percentile_const (l : list Q) (c : Q) :
  (forall v, In v l -> v = c) ->
  match Np.percentile l 50 with
  | None => True
  | Some h => (h == c)%Q
  end.
Proof.
  intros H. unfold Np.percentile.
  destruct (length l) as [|n1] eqn:El; [exact I|].
  set (s := Py.sorted (fun v => v) l).
  assert (Ls : length s = S n1).
  { unfold s. now rewrite (Permutation_length (PyFacts.sorted_perm _ l)). }
  set (rank := (50 / 100 * inject_Z (Z.of_nat n1))%Q).
  assert (Hrank : (Qfloor rank <= Z.of_nat n1)%Z).
  { rewrite <- (Qfloor_Z (Z.of_nat n1)). apply Qfloor_resp_le.
    apply half_le. lia. }
  assert (H0 : (0 <= Qfloor rank)%Z).
  { change 0%Z with (Qfloor 0). apply Qfloor_resp_le. apply half_ge. lia. }
  set (lo := Z.to_nat (Qfloor rank)). set (hi := Nat.min (S lo) n1).
  assert (Hlo : (lo < length s)%nat) by (unfold lo; lia).
  assert (Hhi : (hi < length s)%nat) by (unfold hi; lia).
  rewrite Qred_correct.
  rewrite (H (nth lo s 0%Q)), (H (nth hi s 0%Q));
    try (apply (sorted_in (fun v => v)), nth_In; assumption).
  ring.
Qed.

Lemma keep_flat_zero (keep : Np.image -> option Q -> Np.image) img_masked c hm :
  (keep = keep_below \/ keep = keep_above) ->
  Forall (Forall (fun v => v = 0 \/ v = c)) img_masked ->
  match hm with None => True | Some h => (h == inject_Z c)%Q end ->
  Forall (Forall (fun v => is_nonzero v = false)) (keep img_masked hm).
Proof.
  intros Hk Hm Hh.
  assert (G : forall v, v = 0 \/ v = c ->
              is_nonzero (match hm with
                          | Some h => if Np.ltb (inject_Z v) h then v else 0
                          | None => 0
                          end) = false /\
              is_nonzero (match hm with
                          | Some h => if Np.ltb h (inject_Z v) then v else 0
                          | None => 0
                          end) = false).
  { intros v [-> | ->]; destruct hm as [h|]; try (split; reflexivity).
    - split; destruct (Np.ltb _ _); reflexivity.
    - unfold Np.ltb.
      assert (Qle_bool h (inject_Z c) = true) as ->
        by (apply Qle_bool_iff; rewrite Hh; apply Qle_refl).
      assert (Qle_bool (inject_Z c) h = true) as ->
        by (apply Qle_bool_iff; rewrite Hh; apply Qle_refl).
      split; reflexivity. }
  destruct Hk as [->| ->]; unfold keep_below, keep_above;
    apply Forall_forall; intros row Hrow;
    apply in_map_iff in Hrow as (row' & <- & Hin);
    apply Forall_forall; intros v Hv;
    apply in_map_iff in Hv as (x & <- & Hx);
    rewrite Forall_forall in Hm; specialize (Hm row' Hin);
    rewrite Forall_forall in Hm; apply G; auto.
Qed.

Lemma zeros_have_no_nonzero {A} (m : list (list A)) :
  filter float_nonzero (Np.flatten (map (map (fun _ => Some 0%Q)) m)) = [].
Proof.
  apply SliceWidthFacts.filter_none. intros a Ha.
  unfold Np.flatten in Ha. apply in_concat in Ha as (row & Hrow & Hin).
  apply in_map_iff in Hrow as (row' & <- & _).
  apply in_map_iff in Hin as (x & <- & _). reflexivity.
Qed.

(** C4 on the code.  Whatever mask, centre and pixel spacing: on a flat
    image no pixel of the large region lies strictly below or above the
    median, no candidate is visited, the array of means stays zero, and
    the minimum over its non-zero entries is a minimum over nothing:
    [get_integral_uniformity] raises [ValueError] instead of returning
    a uniformity of 100. *)
Theorem get_integral_uniformity_flat
    (circular_mask_ : Z * Z -> Q -> nat * nat -> Np.mask) (medium : bool)
    (cxy : Z * Z) (res : Q * Q) (h w : nat) (c : Z) :
  get_integral_uniformity circular_mask_ medium cxy res (flat h w c) = inl ValueError.
Proof.
  unfold get_integral_uniformity.
  set (lroi := circular_mask_ _ (inject_Z (if medium then _ else _)) _).
  set (buffer_roi := circular_mask_ _ (_ * _)%Q _).
  destruct (mask_mul lroi (flat h w c)) as [e|img_masked] eqn:E.
  - unfold mask_mul in E. destruct (_ && _); [discriminate|]. now injection E as <-.
  - cbn [bind].
    destruct (mask_mul buffer_roi (flat h w c)) as [e|img_buffer] eqn:B.
    { unfold mask_mul in B. destruct (_ && _); [discriminate|]. now injection B as <-. }
    cbn [bind]. apply mask_mul_flat in E.
    set (hm := Np.percentile _ 50).
    assert (Hh : match hm with None => True | Some h => (h == inject_Z c)%Q end).
    { apply percentile_const. intros v Hv.
      apply in_map_iff in Hv as (x & <- & Hx). apply filter_In in Hx as [Hx Hnz].
      unfold Np.flatten in Hx. apply in_concat in Hx as (row & Hrow & Hin).
      rewrite Forall_forall in E. specialize (E row Hrow).
      rewrite Forall_forall in E. destruct (E x Hin) as [->| ->]; [discriminate|reflexivity]. }
    rewrite (nonzero2_none _ _ (keep_flat_zero keep_below _ c hm (or_introl eq_refl) E Hh)).
    rewrite (nonzero2_none _ _ (keep_flat_zero keep_above _ c hm (or_intror eq_refl) E Hh)).
    cbn [map uniformity_iterator combine fold_left bind ret].
    rewrite zeros_have_no_nonzero.
    destruct (fmax _) as [e|m] eqn:F; [|reflexivity].
    unfold fmax, fold_floats, ret, raise in F.
    destruct (Np.flatten (map (map (fun _ : Z => Some 0%Q)) img_masked));
      [|discriminate F]. now injection F as <-.
Qed.

(** *** Indexing *)

Lemma axis_index_valid n i :
  valid_index n i -> exists k, Np.axis_index i n = inr k /\ (k < n)%nat.
Proof.
  unfold valid_index, Np.axis_index. intros H.
  destruct ((0 <=? i) && (i <? Z.of_nat n)) eqn:E.
  - apply andb_true_iff in E as [E1 E2]. apply Z.leb_le in E1. apply Z.ltb_lt in E2.
    eexists; split; [reflexivity|lia].
  - assert (E' : (- Z.of_nat n <=? i) && (i <? 0) = true).
    { apply andb_false_iff in E. apply andb_true_iff.
      rewrite Z.leb_le, Z.ltb_lt.
      destruct E as [E|E]; [apply Z.leb_gt in E|apply Z.ltb_ge in E]; lia. }
    rewrite E'. apply andb_true_iff in E' as [E1 E2].
    apply Z.leb_le in E1. apply Z.ltb_lt in E2.
    eexists; split; [reflexivity|lia].
Qed.

Lemma axis_index_nonneg n i :
  0 <= i < Z.of_nat n -> Np.axis_index i n = inr (Z.to_nat i).
Proof.
  intros H. unfold Np.axis_index.
  replace ((0 <=? i) && (i <? Z.of_nat n)) with true; [reflexivity|].
  symmetry. apply andb_true_iff. rewrite Z.leb_le, Z.ltb_lt. lia.
Qed.

Lemma take2_valid {A} (d : A) (a : list (list A)) idx :
  (forall rc, In rc idx -> valid_index2 a rc) ->
  exists values, Np.take2 d a idx = inr values /\ length values = length idx.
Proof.
  induction idx as [|[r c] idx IH]; intros H; cbn [Np.take2].
  - now exists [].
  - destruct (H (r, c) (or_introl eq_refl)) as [Hr Hc]. cbn [fst snd] in Hr, Hc.
    unfold Np.getitem2.
    destruct (axis_index_valid _ _ Hr) as (r' & -> & _).
    destruct (axis_index_valid _ _ Hc) as (c' & -> & _). cbn [bind ret].
    destruct IH as (vs & -> & Hl); [intros; apply H; now right|].
    cbn [bind ret]. eexists; split; [reflexivity|]. cbn. now rewrite Hl.
Qed.

Lemma set_nth_length {A} n (v : A) l : length (Np.set_nth n v l) = length l.
Proof.
  revert n; induction l as [|x l IH]; intros [|n]; cbn; auto.
Qed.

Lemma nth_set_nth {A} (d : A) n m v l :
  (n < length l)%nat ->
  nth m (Np.set_nth n v l) d = if Nat.eqb m n then v else nth m l d.
Proof.
  revert n m; induction l as [|x l IH]; intros [|n] [|m] H; cbn in *; try lia; auto.
  apply IH. lia.
Qed.

Lemma rect_shape {A} (a : list (list A)) h w :
  rect a h w -> (0 < h)%nat -> Np.shape a = (h, w).
Proof.
  intros [Hl Hr] Hh. unfold Np.shape. rewrite Hl. f_equal.
  destruct a as [|row a]; [cbn in Hl; lia|]. cbn. now inversion Hr.
Qed.

Lemma rect_nth {A} (a : list (list A)) h w r :
  rect a h w -> (r < h)%nat -> length (nth r a []) = w.
Proof.
  intros [Hl Hr] H. rewrite Forall_forall in Hr. apply Hr, nth_In. lia.
Qed.

(** Storing at an in-range position: the array keeps its shape, reads
    back the value there and is unchanged elsewhere. *)
Lemma setitem2_spec {A} (d : A) (a : list (list A)) h w r c v :
  rect a h w -> 0 <= r < Z.of_nat h -> 0 <= c < Z.of_nat w ->
  exists a',
    Np.setitem2 a r c v = inr a' /\ rect a' h w /\
    Np.getitem2 d a' r c = inr v /\
    forall r2 c2, 0 <= r2 < Z.of_nat h -> 0 <= c2 < Z.of_nat w -> (r2, c2) <> (r, c) ->
                  Np.getitem2 d a' r2 c2 = Np.getitem2 d a r2 c2.
Proof.
  intros Ha Hr Hc.
  assert (Hh : (0 < h)%nat) by lia.
  pose proof (rect_shape _ _ _ Ha Hh) as Hs.
  unfold Np.setitem2. rewrite Hs. cbn [fst snd].
  rewrite !axis_index_nonneg by assumption. cbn [bind ret].
  set (r' := Z.to_nat r). set (c' := Z.to_nat c).
  set (a' := Np.set_nth r' _ a).
  assert (Hr' : (r' < length a)%nat) by (destruct Ha; unfold r'; lia).
  assert (Hc' : (c' < length (nth r' a []))%nat)
    by (rewrite (rect_nth _ _ _ _ Ha); unfold r', c'; lia).
  assert (Ha' : rect a' h w).
  { destruct Ha as [Hl Hrows]. split; [unfold a'; now rewrite set_nth_length|].
    apply Forall_forall. intros row Hrow.
    apply In_nth with (d := []) in Hrow as (k & Hk & <-).
    unfold a' in *. rewrite set_nth_length in Hk. rewrite nth_set_nth by assumption.
    destruct (Nat.eqb k r').
    - rewrite set_nth_length. apply (rect_nth a h w); [now split | unfold r'; lia].
    - apply (rect_nth a h w); [now split | lia]. }
  exists a'. split; [reflexivity|]. split; [exact Ha'|].
  pose proof (rect_shape _ _ _ Ha' Hh) as Hs'.
  split.
  - unfold Np.getitem2. rewrite Hs'. cbn [fst snd].
    rewrite !axis_index_nonneg by assumption. cbn [bind ret]. fold r' c'.
    unfold a'. rewrite nth_set_nth, Nat.eqb_refl by assumption.
    now rewrite nth_set_nth, Nat.eqb_refl by assumption.
  - intros r2 c2 Hr2 Hc2 Hne. unfold Np.getitem2. rewrite Hs, Hs'. cbn [fst snd].
    rewrite !axis_index_nonneg by assumption. cbn [bind ret].
    unfold a'. rewrite nth_set_nth by assumption.
    destruct (Nat.eqb (Z.to_nat r2) r') eqn:E; [|reflexivity].
    apply Nat.eqb_eq in E. rewrite nth_set_nth by assumption.
    destruct (Nat.eqb (Z.to_nat c2) c') eqn:E2.
    + apply Nat.eqb_eq in E2. exfalso. apply Hne. f_equal; unfold r', c' in *; lia.
    + now rewrite E.
Qed.

(** *** The rule of the sweep *)

Lemma range_length n : length (Py.range 0 (Z.of_nat n)) = n.
Proof. unfold Py.range. rewrite length_map, length_seq. lia. Qed.

Lemma nonzero_row_length {A B} (nz : A -> bool) (g : Z * A -> B) row : forall idx,
  length idx = length row ->
  length (map g (filter (fun '(_, v) => nz v) (combine idx row))) = length (filter nz row).
Proof.
  induction row as [|v row IH]; intros [|i idx] H; cbn in *; try lia; auto.
  destruct (nz v); cbn; rewrite IH; auto.
Qed.

Lemma nonzero2_length {A} (nz : A -> bool) (a : list (list A)) :
  length (Np.nonzero2 nz a) = length (filter nz (Np.flatten a)).
Proof.
  unfold Np.nonzero2, Np.flatten.
  pose proof (range_length (length a)) as H. revert H.
  generalize (Py.range 0 (Z.of_nat (length a))) as idx.
  induction a as [|row a IH]; intros [|i idx] H; cbn in *; try lia; auto.
  rewrite length_app, filter_app, length_app. f_equal.
  - apply nonzero_row_length, range_length.
  - apply IH. lia.
Qed.

Lemma filter_all {A} (p : A -> bool) l :
  length (filter p l) = length l -> filter p l = l.
Proof.
  induction l as [|a l IH]; cbn; [reflexivity|].
  pose proof (filter_length_le p l). destruct (p a); cbn; intros H'.
  - f_equal. apply IH. lia.
  - lia.
Qed.

(** With as many values as the mask has pixels, the test of the code
    ([<]) is the test for a full footprint. *)
Lemma mean_val_recorded values sample_mask :
  Z.of_nat (length values) = Np.count_true sample_mask ->
  mean_val values sample_mask = recorded values sample_mask.
Proof.
  intros H. unfold mean_val, recorded, Np.count_nonzero.
  fold is_nonzero. change (fun v : Z => negb (v =? 0)) with is_nonzero.
  pose proof (filter_length_le is_nonzero values) as Hle.
  destruct (_ <? _) eqn:E1.
  - apply Z.ltb_lt in E1. destruct (_ =? _) eqn:E2; [apply Z.eqb_eq in E2; lia|reflexivity].
  - apply Z.ltb_ge in E1.
    assert (E2 : Z.of_nat (length (filter is_nonzero values)) = Np.count_true sample_mask)
      by lia.
    rewrite E2, Z.eqb_refl. rewrite filter_all; [reflexivity|lia].
Qed.

Lemma translate_length cxy d_void coords centre :
  length (translate_mask cxy d_void coords centre) = length coords.
Proof. unfold translate_mask. apply length_map. Qed.

Section Iterator.
Variables (cxy : Z * Z) (d_void : Z) (masked_image : Np.image) (sample_mask : Np.mask).
Variables h w : nat.

Local Abbreviation admissible :=
  (Uniformity.admissible cxy d_void masked_image sample_mask h w).
Local Abbreviation rule := (Uniformity.rule cxy d_void masked_image sample_mask).

Lemma record_candidate_spec mean_array centre :
  rect mean_array h w -> admissible centre ->
  exists M v,
    record_candidate cxy d_void masked_image sample_mask mean_array centre = inr M /\
    rect M h w /\ rule centre v /\
    Np.getitem2 (Some 0%Q) M (fst centre) (snd centre) = inr v /\
    forall r c, 0 <= r < Z.of_nat h -> 0 <= c < Z.of_nat w -> (r, c) <> centre ->
                Np.getitem2 (Some 0%Q) M r c = Np.getitem2 (Some 0%Q) mean_array r c.
Proof.
  intros Hrect (Hr & Hc & Hfp). unfold record_candidate.
  fold (footprint cxy d_void sample_mask centre).
  destruct (take2_valid 0 masked_image _ Hfp) as (values & Hv & Hl).
  rewrite Hv. cbn [bind].
  destruct (setitem2_spec (Some 0%Q) mean_array h w (fst centre) (snd centre)
              (mean_val values sample_mask) Hrect Hr Hc) as (M & HM & HrM & Hget & Hother).
  exists M, (mean_val values sample_mask). repeat split; auto; try apply HrM.
  - exists values. split; [exact Hv|]. apply mean_val_recorded.
    rewrite Hl. unfold footprint. rewrite translate_length, nonzero2_length. reflexivity.
  - intros r c H1 H2 Hne. apply Hother; auto. now destruct centre.
Qed.

Lemma iterator_spec cands : forall mean_array,
  rect mean_array h w -> NoDup cands -> (forall c, In c cands -> admissible c) ->
  exists M,
    fold_left (fun acc centre =>
                 m <- acc ;; record_candidate cxy d_void masked_image sample_mask m centre)
              cands (inr mean_array) = inr M /\
    rect M h w /\
    (forall c, In c cands ->
       exists v, rule c v /\ Np.getitem2 (Some 0%Q) M (fst c) (snd c) = inr v) /\
    (forall r c, 0 <= r < Z.of_nat h -> 0 <= c < Z.of_nat w -> ~ In (r, c) cands ->
       Np.getitem2 (Some 0%Q) M r c = Np.getitem2 (Some 0%Q) mean_array r c).
Proof.
  induction cands as [|c0 cands IH]; intros mean_array Hrect Hnd Hadm.
  - exists mean_array. cbn. repeat split; auto; try apply Hrect. intros c [].
  - inversion Hnd as [|? ? Hnotin Hnd']; subst.
    destruct (record_candidate_spec mean_array c0 Hrect (Hadm c0 (or_introl eq_refl)))
      as (M1 & v & HM1 & Hr1 & Hrule & Hget & Hother).
    destruct (IH M1 Hr1 Hnd' (fun c Hc => Hadm c (or_intror Hc)))
      as (M & HM & HrM & Hin & Hout).
    exists M. cbn [fold_left bind]. rewrite HM1. split; [exact HM|]. split; [exact HrM|].
    split.
    + intros c [<-|Hc]; [|now apply Hin].
      exists v. split; [exact Hrule|].
      destruct (Hadm c0 (or_introl eq_refl)) as (H1 & H2 & _).
      rewrite <- Hget. apply Hout; auto. now destruct c0.
    + intros r c H1 H2 Hn. rewrite Hout; auto.
      * apply Hother; auto. intros <-. apply Hn. now left.
      * intros Hc. apply Hn. now right.
Qed.

End Iterator.

(** C8 (as the code has it).  For candidates inside the array of means,
    without repetition, whose translated footprints are indices NumPy
    accepts (a negative index counts from the far edge), the sweep returns
    and the value recorded at each candidate is the mean of the values
    under its footprint when none of them is zero (their non-zero count
    equals the pixel count of the small mask), and exactly zero otherwise. *)
Theorem uniformity_iterator_records (cxy : Z * Z) (d_void : Z)
    (mean_array : float_array) (masked_image : Np.image) (sample_mask : Np.mask)
    (rows cols : list Z) (h w : nat) :
  rect mean_array h w ->
  NoDup (combine rows cols) ->
  (forall c, In c (combine rows cols) ->
             admissible cxy d_void masked_image sample_mask h w c) ->
  exists M,
    uniformity_iterator cxy d_void mean_array masked_image sample_mask rows cols = inr M /\
    forall c, In c (combine rows cols) ->
      exists values,
        Np.take2 0 masked_image (footprint cxy d_void sample_mask c) = inr values /\
        Np.getitem2 (Some 0%Q) M (fst c) (snd c) = inr (recorded values sample_mask).
Proof.
  intros Hrect Hnd Hadm.
  destruct (iterator_spec cxy d_void masked_image sample_mask h w
              (combine rows cols) mean_array Hrect Hnd Hadm) as (M & HM & _ & Hin & _).
  exists M. split; [exact HM|].
  intros c Hc. destruct (Hin c Hc) as (v & (values & Hv & ->) & Hget).
  now exists values.
Qed.

(** An interior candidate of the sample frame: its full footprint gives
    the mean 7. *)
Lemma uniformity_iterator_records_witness :
  exists M,
    uniformity_iterator (1, 2) 1 means_ex frame_ex plus_ex [2] [2] = inr M /\
    Np.getitem2 (Some 0%Q) M 2 2 = inr (Some 7%Q).
Proof.
  destruct (uniformity_iterator_records (1, 2) 1 means_ex frame_ex plus_ex [2] [2] 5 5)
    as (M & HM & Hc).
  - split; [reflexivity|]. repeat constructor.
  - repeat constructor. intros [].
  - intros c [<-|[]]. split; [cbn; lia|]. split; [cbn; lia|].
    intros rc Hin. vm_compute in Hin.
    repeat (destruct Hin as [<-|Hin];
            [unfold valid_index2, valid_index; cbn; lia|]).
    destruct Hin.
  - exists M. split; [exact HM|].
    destruct (Hc (2, 2) (or_introl eq_refl)) as (values & Hv & Hget).
    vm_compute in Hv. injection Hv as <-. exact Hget.
Defined.

(** C8 (as stated) fails at the edges of the frame.  A candidate in the
    top row has a footprint reaching row -1, which NumPy reads from the
    bottom row: the clipped candidate records the mean 7, not zero.  A
    candidate in the bottom row has a footprint reaching past the last
    row: the sweep raises [IndexError] and records nothing. *)
Lemma uniformity_iterator_edges :
  In (-1, 2) (footprint (1, 2) 1 plus_ex (0, 2)) /\
  (exists M,
      uniformity_iterator (1, 2) 1 means_ex frame_ex plus_ex [0] [2] = inr M /\
      Np.getitem2 (Some 0%Q) M 0 2 = inr (Some 7%Q)) /\
  In (5, 2) (footprint (1, 2) 1 plus_ex (4, 2)) /\
  uniformity_iterator (1, 2) 1 means_ex frame_ex plus_ex [4] [2] = inl IndexError.
Proof.
  split; [vm_compute; auto|]. split.
  - eexists. split; vm_compute; reflexivity.
  - split; [vm_compute; auto 10|]. vm_compute. reflexivity.
Qed.

End UniformityFacts.

(** ** Coordinate transforms and the registration fit *)

Module RelaxometryFacts.
Import Relaxometry Samples.
Local Open Scope Q_scope.

Lemma within_eq tol p q :
  0 <= tol -> fst p == fst q -> snd p == snd q -> within tol p q.
Proof.
  intros Ht H1 H2. unfold within.
  assert (Z0 : forall a b, a == b -> Qabs (a - b) <= tol).
  { intros a b Hab. setoid_replace (a - b) with 0 by (rewrite Hab; ring). exact Ht. }
  split; apply Z0; assumption.
Qed.

(** The round trip of one point, in exact arithmetic. *)
Lemma round_trip_point (m : affine) (y x : Q) :
  ~ determinant m == 0 ->
  let m' := cv_invertAffineTransform m in
  let x1 := m00 m * x + m01 m * y + m02 m in
  let y1 := m10 m * x + m11 m * y + m12 m in
  m10 m' * x1 + m11 m' * y1 + m12 m' == y /\
  m00 m' * x1 + m01 m' * y1 + m02 m' == x.
Proof.
  intros Hd. unfold cv_invertAffineTransform.
  destruct (Qeq_bool (determinant m) 0) eqn:E; [apply Qeq_bool_iff in E; contradiction|].
  unfold determinant in *. cbn [m00 m01 m02 m10 m11 m12].
  split; field; exact Hd.
Qed.

(** What [transform_coords] does to an array of floats with a point in
    it. *)
Lemma transform_coords_floats (pts : list (Q * Q)) (m : affine) (a b : bool) :
  pts <> [] ->
  transform_coords (FloatCoords pts) m a b =
    inr (FloatCoords
           ((if b then swap else fun l => l)
              (map (cv_transform_point m) ((if a then swap else fun l => l) pts)))).
Proof.
  intros H. destruct pts as [|p pts]; [contradiction|].
  unfold transform_coords, flip, cv_transform.
  destruct a, b; reflexivity.
Qed.

Lemma swap_nil {A} (l : list (A * A)) : swap l = [] -> l = [].
Proof. destruct l; [reflexivity|discriminate]. Qed.




Section TemplateFit.
Variables dicom image image8 : Type.
Variable pixel_LUT : dicom -> image.
Variable normalize_abs_8bit : image -> image8.
Variable ecc_iteration : image8 -> image8 -> affine -> result (Q * affine).
Variable warpAffine : image8 -> affine -> image8.

Local Abbreviation iterate := (ecc_iterate image8 ecc_iteration).

(** The iterations fail only with the error of an iteration. *)
Lemma ecc_iterate_error count eps t g : forall rho warp e,
  iterate count eps t g rho warp = inl e -> exists w, ecc_iteration t g w = inl e.
Proof.
  induction count as [|count IH]; intros rho warp e; cbn [ecc_iterate]; [discriminate|].
  destruct (ecc_iteration t g warp) as [e'|[rho' warp']] eqn:E; cbn [bind].
  - intros [= <-]. eauto.
  - destruct (Qle_bool eps (Qabs (rho' - rho))); [apply IH|discriminate].
Qed.

Lemma ecc_iterate_returns count eps t g :
  (forall w, exists r, ecc_iteration t g w = inr r) ->
  forall rho warp, exists r, iterate count eps t g rho warp = inr r.
Proof.
  intros H. induction count as [|count IH]; intros rho warp; cbn [ecc_iterate]; [eauto|].
  destruct (H warp) as [[rho' warp'] ->]. cbn [bind].
  destruct (Qle_bool eps (Qabs (rho' - rho))); [apply IH|eauto].
Qed.

(** Iterations that all return and never bring two successive
    coefficients within [eps] of each other use up the count. *)
Lemma ecc_iterate_exhausts eps t g (step : affine -> Q * affine) :
  (forall w, ecc_iteration t g w = inr (step w)) ->
  forall count rho warp,
    (forall k, (k < count)%nat ->
       let s := Nat.iter k (fun s => step (snd s)) (rho, warp) in
       eps <= Qabs (fst (step (snd s)) - fst s)) ->
    iterate count eps t g rho warp = inr (Nat.iter count (fun s => step (snd s)) (rho, warp)).
Proof.
  intros H. induction count as [|count IH]; intros rho warp Hk; [reflexivity|].
  cbn [ecc_iterate]. rewrite H. cbn [bind].
  destruct (step warp) as [rho' warp'] eqn:E.
  assert (C : Qle_bool eps (Qabs (rho' - rho)) = true).
  { apply Qle_bool_iff. specialize (Hk 0%nat (Nat.lt_0_succ _)).
    cbn in Hk. now rewrite E in Hk. }
  rewrite C, IH.
  - rewrite Nat.iter_succ_r. cbn [snd]. now rewrite E.
  - intros k Hlt. specialize (Hk (S k) (proj1 (Nat.succ_lt_mono _ _) Hlt)). cbv zeta in *.
    rewrite Nat.iter_succ_r in Hk. cbn [snd] in Hk. rewrite E in Hk. exact Hk.
Qed.


End TemplateFit.


End RelaxometryFacts.

(** ** Ghosting *)

Module GhostingFacts.
Import Ghosting Samples.
Local Open Scope Q_scope.

Lemma Qred_zero x : x == 0 -> Qred x = 0.
Proof. intros H. now rewrite (Qred_complete _ _ H). Qed.

Lemma round_half_even_zero x : x == 0 -> Np.round_half_even x = 0%Z.
Proof.
  intros H. unfold Np.round_half_even.
  assert (F : Qfloor x = 0%Z) by now rewrite H.
  rewrite F. unfold Np.ltb.
  destruct (Qle_bool (1 # 2) (x - inject_Z 0)) eqn:E; [|reflexivity].
  apply Qle_bool_iff in E. rewrite H in E. vm_compute in E. now destruct E.
Qed.

Lemma round3_zero x : x == 0 -> round3 x = 0.
Proof.
  intros H. unfold round3. apply Qred_zero.
  rewrite round_half_even_zero; [reflexivity|]. rewrite H. reflexivity.
Qed.

Lemma sum_zeros (l : list Z) :
  Forall (fun v => v = 0%Z) l -> Np.sum (map inject_Z l) = 0.
Proof.
  unfold Np.sum. induction 1 as [|v l Hv _ IH]; [reflexivity|].
  subst v. cbn [map fold_left]. exact IH.
Qed.

(** The mean over a dark region is zero. *)
Lemma dark_mean img roi : dark_in img roi -> roi_mean img roi = inr (Some 0).
Proof.
  intros (values & Hv & Hne & Hz). unfold roi_mean. rewrite Hv. cbn [bind ret].
  unfold Np.mean. destruct values as [|v values]; [contradiction|].
  cbn [map]. change (inject_Z v :: map inject_Z values) with (map inject_Z (v :: values)).
  rewrite (sum_zeros _ Hz). rewrite Qred_zero; [reflexivity|].
  unfold Qdiv. ring.
Qed.

Section Metric.
Variable area_opening_500 : Np.mask -> Np.mask.
Variable convex_hull_image : Np.mask -> Np.mask.

Local Abbreviation regions_of := (ghosting_regions area_opening_500 convex_hull_image).
Local Abbreviation ghosting := (get_signal_ghosting area_opening_500 convex_hull_image).

(** C5 (as the code has it).  When the five regions can be built and the
    large region has a mean other than zero, [get_signal_ghosting] returns
    100 |((north + south) - (east + west)) / (2 large)| over the means of
    the four ellipses and of the large region, rounded to three decimals;
    and when the image is zero on the four ellipses it returns 0. *)
Theorem get_signal_ghosting_metric (img : Np.image) (res : Q * Q) (rois : regions)
    (large : Q) :
  regions_of img res = inr rois ->
  roi_mean img (lroi rois) = inr (Some large) ->
  ~ 2 * large == 0 ->
  (forall w e n s,
      roi_mean img (w_ellipse rois) = inr (Some w) ->
      roi_mean img (e_ellipse rois) = inr (Some e) ->
      roi_mean img (n_ellipse rois) = inr (Some n) ->
      roi_mean img (s_ellipse rois) = inr (Some s) ->
      ghosting img res =
        inr (Some (round3 (100 * Qabs (((n + s) - (w + e)) / (2 * large)))))) /\
  (dark_in img (w_ellipse rois) -> dark_in img (e_ellipse rois) ->
   dark_in img (n_ellipse rois) -> dark_in img (s_ellipse rois) ->
   ghosting img res = inr (Some 0)).
Proof.
  intros Hr Hl Hne.
  assert (F : forall w e n s,
             roi_mean img (w_ellipse rois) = inr (Some w) ->
             roi_mean img (e_ellipse rois) = inr (Some e) ->
             roi_mean img (n_ellipse rois) = inr (Some n) ->
             roi_mean img (s_ellipse rois) = inr (Some s) ->
             ghosting img res =
               inr (Some (round3 (100 * Qabs (((n + s) - (w + e)) / (2 * large)))))).
  { intros w e n s Hw He Hn Hs. unfold get_signal_ghosting.
    rewrite Hr. cbn [bind]. rewrite Hl, Hw, He, Hn, Hs. cbn [bind ret].
    unfold percent_signal_ghosting.
    destruct (Qeq_bool (2 * large) 0) eqn:E; [|reflexivity].
    apply Qeq_bool_iff in E. contradiction. }
  split; [exact F|].
  intros Dw De Dn Ds.
  rewrite (F 0 0 0 0) by (apply dark_mean; assumption).
  rewrite round3_zero; [reflexivity|].
  setoid_replace ((0 + 0 - (0 + 0)) / (2 * large)) with 0 by (unfold Qdiv; ring).
  reflexivity.
Qed.

End Metric.

Ltac dark :=
  eexists; split; [vm_compute; reflexivity|]; split; [discriminate|repeat constructor].

(** The sample phantom without signal outside it: the metric is 0. *)
Lemma get_signal_ghosting_metric_witness :
  get_signal_ghosting (fun m => m) (fun m => m) phantom_dark (5, 5) = inr (Some 0).
Proof.
  refine (proj2 (get_signal_ghosting_metric (fun m => m) (fun m => m)
                   phantom_dark (5, 5) _ (56700 # 797) _ _ _) _ _ _ _).
  - vm_compute. reflexivity.
  - vm_compute. reflexivity.
  - discriminate.
  - dark.
  - dark.
  - dark.
  - dark.
Defined.

(** C5 (as stated) fails on the sample phantom with one background pixel
    of intensity 7 in the north ellipse: the means are 56700/797 (large),
    1/5 (north) and 0, the formula gives 797/5670, and the function
    returns 0.141.  It also fails on the phantom at the left border, with
    no signal outside it: the west ellipse is squeezed onto the phantom
    (its mean is 100) and the function returns 62.346, not 0. *)
Lemma get_signal_ghosting_rounds :
  (exists rois,
    ghosting_regions (fun m => m) (fun m => m) phantom_ghost (5, 5) = inr rois /\
    roi_mean phantom_ghost (lroi rois) = inr (Some (56700 # 797)) /\
    roi_mean phantom_ghost (w_ellipse rois) = inr (Some 0) /\
    roi_mean phantom_ghost (e_ellipse rois) = inr (Some 0) /\
    roi_mean phantom_ghost (n_ellipse rois) = inr (Some (1 # 5)) /\
    roi_mean phantom_ghost (s_ellipse rois) = inr (Some 0) /\
    get_signal_ghosting (fun m => m) (fun m => m) phantom_ghost (5, 5)
      = inr (Some (141 # 1000)) /\
    ~ (141 # 1000) == 100 * Qabs ((((1 # 5) + 0) - (0 + 0)) / (2 * (56700 # 797)))) /\
  (exists rois,
    ghosting_regions (fun m => m) (fun m => m) phantom_left (5, 5) = inr rois /\
    roi_mean phantom_left (w_ellipse rois) = inr (Some 100) /\
    get_signal_ghosting (fun m => m) (fun m => m) phantom_left (5, 5)
      = inr (Some (31173 # 500))).
Proof.
  split.
  - eexists. split; [vm_compute; reflexivity|].
    repeat (split; [vm_compute; reflexivity|]).
    vm_compute. discriminate.
  - eexists. split; [vm_compute; reflexivity|].
    split; vm_compute; reflexivity.
Qed.

End GhostingFacts.

(** ** Termination of the trapezoid search *)

Module Grid.
Import SliceWidth.
Local Open Scope Q_scope.

Lemma on_grid_red d q : on_grid d q -> on_grid d (Qred q).
Proof. intros [z H]. exists z. now rewrite Qred_correct. Qed.

Lemma on_grid_Z d z : on_grid d (inject_Z z).
Proof. exists (z * d)%Z. now rewrite inject_Z_mult. Qed.

Lemma on_grid_plus d a b : on_grid d a -> on_grid d b -> on_grid d (a + b).
Proof.
  intros [za Ha] [zb Hb]. exists (za + zb)%Z.
  rewrite inject_Z_plus, <- Ha, <- Hb. ring.
Qed.

Lemma on_grid_opp d a : on_grid d a -> on_grid d (- a).
Proof.
  intros [za Ha]. exists (- za)%Z. rewrite inject_Z_opp, <- Ha. ring.
Qed.

Lemma on_grid_minus d a b : on_grid d a -> on_grid d b -> on_grid d (a - b).
Proof. intros Ha Hb. apply on_grid_plus; [exact Ha | now apply on_grid_opp]. Qed.

Lemma on_grid_mult d e a b : on_grid d a -> on_grid e b -> on_grid (d * e) (a * b).
Proof.
  intros [za Ha] [zb Hb]. exists (za * zb)%Z.
  rewrite !inject_Z_mult, <- Ha, <- Hb. ring.
Qed.

Lemma on_grid_scale d a z : on_grid d a -> on_grid d (inject_Z z * a).
Proof.
  intros [za Ha]. exists (z * za)%Z. rewrite inject_Z_mult, <- Ha. ring.
Qed.

Lemma on_grid_lift d d' a : (d | d')%Z -> on_grid d a -> on_grid d' a.
Proof.
  intros [k ->] [za Ha]. exists (za * k)%Z.
  rewrite !inject_Z_mult, <- Ha. ring.
Qed.

Lemma on_grid_div d a m : (m <> 0)%Z -> on_grid d a -> on_grid (d * m) (a / inject_Z m).
Proof.
  intros Hm [za Ha]. exists za. rewrite inject_Z_mult, <- Ha.
  field. intros H. apply Hm. now apply (inject_Z_injective m 0) in H.
Qed.

Lemma on_grid_den q : on_grid (Z.pos (Qden q)) q.
Proof.
  exists (Qnum q). destruct q as [n d]. unfold Qeq, Qmult, inject_Z.
  cbn [Qnum Qden]. rewrite ?Pos.mul_1_r. ring.
Qed.

Lemma prod_den_pos l : (0 < prod_den l)%Z.
Proof.
  induction l as [|a l IH]; [reflexivity|].
  change (prod_den (a :: l)) with (Z.pos (Qden a) * prod_den l)%Z.
  apply Z.mul_pos_pos; [reflexivity | exact IH].
Qed.

Lemma on_grid_prod_den l q : In q l -> on_grid (prod_den l) q.
Proof.
  induction l as [|a l IH]; [easy|].
  change (prod_den (a :: l)) with (Z.pos (Qden a) * prod_den l)%Z.
  intros [->|H].
  - apply (on_grid_lift (Z.pos (Qden q))); [apply Z.divide_factor_l|apply on_grid_den].
  - apply (on_grid_lift (prod_den l)); [apply Z.divide_factor_r|now apply IH].
Qed.

(** Below an error [e] on the grid there is strictly less room. *)
Lemma quanta_lt d e ce :
  (0 < d)%Z -> on_grid d e -> 0 <= e -> e < ce -> (quanta d e < quanta d ce)%nat.
Proof.
  intros Hd [z Hz] H0 Hlt. unfold quanta.
  assert (Hdq : 0 < inject_Z d).
  { change (inject_Z 0 < inject_Z d). now rewrite <- Zlt_Qlt. }
  assert (Hz0 : (0 <= z)%Z).
  { rewrite Zle_Qle, <- Hz. apply Qmult_le_0_compat; [exact H0|].
    now apply Qlt_le_weak. }
  rewrite Hz, Qceiling_Z.
  assert (Hlt' : inject_Z z < ce * inject_Z d).
  { rewrite <- Hz. now apply Qmult_lt_compat_r. }
  assert (Hc : (z < Qceiling (ce * inject_Z d))%Z).
  { rewrite Zlt_Qlt. eapply Qlt_le_trans; [exact Hlt'|apply Qle_ceiling]. }
  lia.
Qed.

Lemma divide_fact m n : (0 < m <= n)%nat -> Nat.divide m (fact n).
Proof.
  induction n as [|n IH]; intros H; [lia|].
  destruct (Nat.eq_dec m (S n)) as [->|Hne].
  - cbn [fact]. apply Nat.divide_factor_l.
  - change (fact (S n)) with (S n * fact n)%nat.
    apply Nat.divide_mul_r, IH. lia.
Qed.

End Grid.

Module FitTermination.
Import SliceWidth Grid.
Local Open Scope Q_scope.

Lemma on_grid_eq d a b : a == b -> on_grid d a -> on_grid d b.
Proof. intros H [z Hz]. exists z. now rewrite <- H. Qed.

Lemma polyval_grid db dx c0 c1 c2 x :
  on_grid db c0 -> on_grid db c1 -> on_grid db c2 -> on_grid dx x ->
  on_grid (db * dx * dx) (Np.polyval [c0; c1; c2] x).
Proof.
  intros H0 H1 H2 Hx. unfold Np.polyval. cbn [fold_left].
  apply on_grid_red, on_grid_plus.
  - apply on_grid_mult; [|exact Hx].
    apply on_grid_red, on_grid_plus.
    + apply on_grid_mult; [|exact Hx].
      apply on_grid_red. apply (on_grid_eq _ c0); [ring|exact H0].
    + apply (on_grid_lift db); [apply Z.divide_factor_l|exact H1].
  - apply (on_grid_lift db); [|exact H2].
    rewrite <- Z.mul_assoc. apply Z.divide_factor_l.
Qed.

Lemma linspace_grid da f start stop n l :
  on_grid da start -> on_grid da stop ->
  (n <= 1 \/ (n - 1 | f))%Z ->
  Np.linspace start stop n = inr l ->
  Forall (on_grid (da * f)) l.
Proof.
  intros Hs He Hn. unfold Np.linspace.
  destruct (Np.refused n); [discriminate|].
  assert (El : forall a : list Q, ret a = inr l -> a = l) by (unfold ret; congruence).
  intros Hl. apply Forall_forall. intros q Hq.
  destruct (n <=? 1)%Z eqn:E; apply El in Hl; subst l;
    apply in_map_iff in Hq as (i & <- & _).
  - apply (on_grid_lift da); [apply Z.divide_factor_l|].
    apply on_grid_plus; [|exact Hs].
    apply on_grid_scale, on_grid_minus; assumption.
  - apply Z.leb_gt in E. destruct Hn as [Hn|Hn]; [lia|].
    apply on_grid_red, on_grid_plus.
    + apply on_grid_scale.
      apply (on_grid_lift (da * (n - 1))); [now apply Z.mul_divide_mono_l|].
      apply on_grid_div; [lia|]. apply on_grid_minus; assumption.
    + apply (on_grid_lift da); [apply Z.divide_factor_l|exact Hs].
Qed.

Lemma repeat_forall {A} (P : A -> Prop) a n : P a -> Forall P (repeat a n).
Proof. intros H. apply Forall_forall. intros x Hx. now rewrite (repeat_spec _ _ _ Hx). Qed.

(** Every sample of a trapezoid lies on the grid of its amplitude, refined
    by the divisor of its ramps. *)
Lemma segment_forall (P : Q -> Prop) n built s :
  segment n built s -> (forall l, built = inr l -> Forall P l) -> Forall P s.
Proof.
  unfold segment. destruct (n <? 1)%Z; [intros ->; constructor|]. intros H F. now apply F.
Qed.

Lemma trapezoid_grid da f (c : trap_coeffs) trap fwhm :
  on_grid da (plateau_amplitude c) ->
  (n_ramp c <= 1 \/ (n_ramp c - 1 | f))%Z ->
  trapezoid c = inr (trap, fwhm) ->
  Forall (on_grid (da * f)) trap.
Proof.
  intros Ha Hn H.
  apply TrapezoidFacts.trapezoid_inr in H
    as (L & lr & P & rr & R & -> & _ & HL & Hlr & Hrr & HP & HR).
  assert (Z0 : on_grid da 0) by apply (on_grid_Z da 0).
  assert (Zs : forall n l, Np.zeros n = inr l -> Forall (on_grid (da * f)) l).
  { intros n l E. apply TrapezoidFacts.zeros_inr in E. subst l.
    apply repeat_forall. apply (on_grid_Z _ 0). }
  rewrite !Forall_app. repeat split.
  - eapply segment_forall; [exact HL|]. apply Zs.
  - eapply segment_forall; [exact Hlr|]. intros l. now apply linspace_grid.
  - eapply segment_forall; [exact HP|]. intros l.
    destruct (Np.ones _) as [e|o] eqn:E; cbn [bind]; [discriminate|]. intros [= <-].
    apply TrapezoidFacts.ones_inr in E. subst o.
    apply Forall_forall; intros q Hq; apply in_map_iff in Hq as (o & <- & Ho).
    apply repeat_spec in Ho; subst o.
    apply (on_grid_lift da); [apply Z.divide_factor_l|].
    apply (on_grid_eq _ (plateau_amplitude c)); [ring|exact Ha].
  - eapply segment_forall; [exact Hrr|]. intros l. now apply linspace_grid.
  - eapply segment_forall; [exact HR|]. apply Zs.
Qed.

Lemma map2_forall (G : Q -> Prop) op a : forall b,
  (forall x y, G x -> G y -> G (op x y)) ->
  Forall G a -> Forall G b -> Forall G (Np.map2 op a b).
Proof.
  induction a as [|x a IH]; intros [|y b] Hop Ha Hb; cbn; try constructor.
  - inversion Ha; inversion Hb; subst. now apply Hop.
  - inversion Ha; inversion Hb; subst. now apply IH.
Qed.

Lemma broadcast_forall (G : Q -> Prop) op a b c :
  Np.broadcast op a b = inr c ->
  (forall x y, G x -> G y -> G (op x y)) ->
  Forall G a -> Forall G b -> Forall G c.
Proof.
  unfold Np.broadcast. intros H Hop Ha Hb.
  destruct (Nat.eqb (length a) (length b)).
  - injection H as <-. now apply map2_forall.
  - destruct a as [|x [|x' a]].
    + destruct b as [|y [|y' b]]; try discriminate. injection H as <-. constructor.
    + injection H as <-. apply Forall_forall. intros q Hq.
      apply in_map_iff in Hq as (y & <- & Hy). inversion Ha; subst.
      apply Hop; [assumption|]. rewrite Forall_forall in Hb. now apply Hb.
    + destruct b as [|y [|y' b]]; try discriminate. injection H as <-.
      change (Forall G (map (fun x => op x y) (x :: x' :: a))).
      apply Forall_forall. intros q Hq.
      apply in_map_iff in Hq as (z & <- & Hz). inversion Hb; subst.
      apply Hop; [|assumption]. rewrite Forall_forall in Ha. now apply Ha.
Qed.

Lemma broadcast_shape op a b c :
  Np.broadcast op a b = inr c -> length a <> 1%nat ->
  length b = length a \/ length b = 1%nat.
Proof.
  unfold Np.broadcast. intros H Ha.
  destruct (Nat.eqb (length a) (length b)) eqn:E; [apply Nat.eqb_eq in E; auto|].
  destruct a as [|x [|x' a]]; [| cbn in Ha; lia |];
    destruct b as [|y [|y' b]]; try discriminate; auto.
Qed.

Lemma sum_squares_grid d (l : list Q) :
  Forall (on_grid d) l ->
  on_grid (d * d) (Np.sum (Np.square l)) /\ 0 <= Np.sum (Np.square l).
Proof.
  intros H. unfold Np.sum, Np.square.
  assert (G : forall acc, on_grid (d * d) acc -> 0 <= acc ->
                on_grid (d * d) (fold_left (fun a x => Qred (a + x))
                                   (map (fun x => Qred (x * x)) l) acc) /\
                0 <= fold_left (fun a x => Qred (a + x)) (map (fun x => Qred (x * x)) l) acc).
  { induction H as [|x l Hx _ IH]; intros acc Ha H0; cbn [map fold_left]; [auto|].
    apply IH.
    - apply on_grid_red, on_grid_plus; [exact Ha|]. apply on_grid_red.
      now apply on_grid_mult.
    - rewrite !Qred_correct.
      rewrite <- (Qplus_0_r 0). apply Qplus_le_compat; [exact H0|].
      destruct (Qlt_le_dec x 0) as [Hn|Hp].
      + setoid_replace (x * x) with ((- x) * (- x)) by ring.
        apply Qmult_le_0_compat; apply (Qopp_le_compat x 0); now apply Qlt_le_weak.
      + now apply Qmult_le_0_compat. }
  apply G; [apply (on_grid_Z _ 0) | apply Qle_refl].
Qed.

Section Errors.
Variables x_interp profile_interp : list Q.
Variables db da : Z.
Hypothesis Hlen : length x_interp = length profile_interp.
Hypothesis Hne : length profile_interp <> 1%nat.
Hypothesis Hdb : (0 < db)%Z.
Hypothesis Hda : (0 < da)%Z.

Local Abbreviation D := (fit_grid x_interp profile_interp db da).

Lemma fit_grid_pos : (0 < D)%Z.
Proof.
  unfold fit_grid, base_grid, amp_grid.
  pose proof (prod_den_pos profile_interp). pose proof (prod_den_pos x_interp).
  pose proof (fact_neq_0 (S (length profile_interp))).
  repeat apply Z.mul_pos_pos; lia.
Qed.

(** Every error the search computes is a non-negative multiple of the
    quantum [1 / D^2]. *)
Lemma get_error_grid b t e :
  on_grids db da b t ->
  get_error x_interp profile_interp b t = inr e ->
  on_grid (D * D) e /\ 0 <= e.
Proof.
  intros (H0 & H1 & H2 & Ha). unfold get_error.
  destruct (trapezoid t) as [e0|[trap fwhm]] eqn:T; cbn [bind]; [discriminate|].
  unfold Np.add, Np.sub.
  set (base := Np.poly1d_call (base_list b) x_interp).
  destruct (Np.broadcast _ base trap) as [e1|model] eqn:E1; [discriminate|]. cbn [bind].
  destruct (Np.broadcast _ profile_interp model) as [e2|diff] eqn:E2; [discriminate|].
  cbn [bind ret]. intros [= <-].
  apply sum_squares_grid.
  assert (Lb : length base = length profile_interp)
    by (unfold base, Np.poly1d_call; now rewrite length_map).
  assert (Gb : Forall (on_grid D) base).
  { apply Forall_forall. intros q Hq. unfold base, Np.poly1d_call in Hq.
    apply in_map_iff in Hq as (x & <- & Hx).
    apply (on_grid_lift (base_grid db * prod_den x_interp * prod_den x_interp)).
    - unfold fit_grid. apply Z.divide_mul_l, Z.divide_factor_r.
    - apply polyval_grid; auto. now apply on_grid_prod_den. }
  assert (Gt : Forall (on_grid D) trap).
  { assert (Hn : (n_ramp t <= 1 \/
                  (n_ramp t - 1 | Z.of_nat (fact (S (length profile_interp)))))%Z).
    { destruct (Z_le_gt_dec (n_ramp t) 1) as [Hle|Hgt]; [now left|right].
      assert (Ht : (Z.of_nat (length trap) <= Z.of_nat (S (length profile_interp)))%Z).
      { destruct (broadcast_shape _ _ _ _ E1) as [Hs|Hs]; [lia| |]; lia. }
      pose proof (TrapezoidFacts.trapezoid_length t trap fwhm T) as Hl.
      pose proof (TrapezoidFacts.seg_len_nonneg (n_left_baseline t)).
      pose proof (TrapezoidFacts.seg_len_nonneg (n_plateau t)).
      pose proof (TrapezoidFacts.seg_len_nonneg (n_right_baseline t)).
      assert (Hr : seg_len (n_ramp t) = n_ramp t).
      { unfold seg_len. destruct (n_ramp t <? 1)%Z eqn:E; [apply Z.ltb_lt in E; lia|reflexivity]. }
      destruct (divide_fact (Z.to_nat (n_ramp t - 1)) (S (length profile_interp)))
        as [k Hk]; [lia|].
      exists (Z.of_nat k).
      rewrite Hk, Nat2Z.inj_mul, Z2Nat.id by lia. reflexivity. }
    eapply Forall_impl; [|exact (trapezoid_grid _ _ t trap fwhm Ha Hn T)].
    intros q. apply on_grid_lift. unfold fit_grid. apply Z.divide_factor_r. }
  assert (Gm : Forall (on_grid D) model).
  { eapply broadcast_forall; [exact E1| |exact Gb|exact Gt].
    intros; now apply on_grid_red, on_grid_plus. }
  eapply broadcast_forall; [exact E2| | |exact Gm].
  - intros; now apply on_grid_red, on_grid_minus.
  - apply Forall_forall. intros q Hq.
    apply (on_grid_lift (prod_den profile_interp)); [|now apply on_grid_prod_den].
    unfold fit_grid. rewrite <- Z.mul_assoc. apply Z.divide_factor_l.
Qed.

End Errors.

Lemma tenth_grid da : on_grid (amp_grid da) (1 # 10).
Proof. exists da. unfold amp_grid, Qeq, Qmult, inject_Z. cbn [Qnum Qden]. lia. Qed.

Lemma base_steps_grid db :
  on_grid (base_grid db) (1 # 10000) /\ on_grid (base_grid db) (1 # 1000) /\
  on_grid (base_grid db) (1 # 10).
Proof.
  repeat split; [exists db | exists (db * 10)%Z | exists (db * 1000)%Z];
    unfold base_grid, Qeq, Qmult, inject_Z; cbn [Qnum Qden]; lia.
Qed.

(** The perturbations keep the coefficients on their grids. *)
Lemma perturb_on_grids db da i b t :
  on_grids db da b t ->
  on_grids db da (fst (perturb i b t)) (snd (perturb i b t)).
Proof.
  intros (H0 & H1 & H2 & Ha).
  destruct (base_steps_grid db) as (S0 & S1 & S2). pose proof (tenth_grid da) as Sa.
  destruct b as [c0 c1 c2], t as [r pl l rb a]. unfold perturb.
  cbn [b0 b1 b2 plateau_amplitude] in *.
  repeat (destruct (i =? _)%Z; [unfold on_grids; cbn [fst snd b0 b1 b2 plateau_amplitude];
                                repeat split; auto;
                                apply on_grid_red;
                                (now apply on_grid_minus) || (now apply on_grid_plus)|]).
  unfold on_grids; cbn [fst snd b0 b1 b2 plateau_amplitude]. auto.
Qed.

Section Loop.
Variables x_interp profile_interp : list Q.
Variables db da : Z.
Hypothesis Hlen : length x_interp = length profile_interp.
Hypothesis Hne : length profile_interp <> 1%nat.
Hypothesis Hdb : (0 < db)%Z.
Hypothesis Hda : (0 < da)%Z.

Local Abbreviation D := (fit_grid x_interp profile_interp db da).
Local Abbreviation inv :=
  (fun st => on_grids db da (baseline_fit_coefficients st) (trapezoid_fit_coefficients st)).
Local Abbreviation room := (fun st => quanta (D * D) (current_error st)).

Lemma fit_step_room i st st' :
  inv st -> fit_step x_interp profile_interp i st = inr st' ->
  inv st' /\ (st' = st \/ ((room st' < room st)%nat /\ cont st' = 1%Z)).
Proof.
  intros Hinv. unfold fit_step.
  pose proof (perturb_on_grids db da i _ _ Hinv) as Hp.
  destruct (perturb i _ _) as [bt tt]. cbn [fst snd] in Hp.
  destruct (get_error x_interp profile_interp bt tt) as [e|new_error] eqn:E; cbn [bind];
    [discriminate|].
  assert (HG : on_grid (D * D) new_error /\ 0 <= new_error)
    by (eapply get_error_grid; eassumption).
  destruct HG as [Hg H0].
  destruct (Np.ltb new_error (current_error st)) eqn:El.
  - apply FitFacts.ltb_lt in El.
    assert (Hroom : (quanta (D * D) new_error < room st)%nat).
    { apply quanta_lt; auto.
      apply Z.mul_pos_pos; apply fit_grid_pos; assumption. }
    destruct Hinv as (I0 & I1 & I2 & Ia). destruct Hp as (P0 & P1 & P2 & Pa).
    destruct (6 <? i)%Z; intros [= <-]; cbn; (split; [repeat split; assumption|]);
      right; split; auto.
  - intros [= <-]. split; [exact Hinv|now left].
Qed.

Lemma steps_room l : forall st st',
  inv st -> steps x_interp profile_interp l (inr st) = inr st' ->
  inv st' /\ (st' = st \/ ((room st' < room st)%nat /\ cont st' = 1%Z)).
Proof.
  induction l as [|i l IH]; intros st st' Hinv; unfold steps; cbn [fold_left bind].
  - intros [= <-]. split; [exact Hinv|now left].
  - fold (steps x_interp profile_interp l (fit_step x_interp profile_interp i st)).
    destruct (fit_step x_interp profile_interp i st) as [e|st1] eqn:E.
    + now rewrite FitFacts.steps_inl.
    + intros H. destruct (fit_step_room i st st1 Hinv E) as [Hinv1 H1].
      destruct (IH st1 st' Hinv1 H) as [Hinv' H'].
      split; [exact Hinv'|].
      destruct H1 as [->|[Hr1 Hc1]]; [exact H'|].
      right. destruct H' as [->|[Hr' Hc']]; [auto|]. split; [lia|exact Hc'].
Qed.

Lemma fit_pass_room st st' :
  inv st -> fit_pass x_interp profile_interp st = inr st' ->
  inv st' /\ (cont st' <> 1%Z \/ (room st' < room st)%nat).
Proof.
  intros Hinv H. unfold fit_pass in H.
  apply steps_room in H as [Hinv' H']; [|exact Hinv].
  split; [exact Hinv'|].
  destruct H' as [->|[Hr _]]; [left; cbn; discriminate|right; exact Hr].
Qed.

(** The loop runs at most one pass more than there is room below the
    recorded error. *)
Lemma fit_loop_enough : forall n st,
  inv st -> (room st <= n)%nat ->
  fit_loop (S n) x_interp profile_interp st <> None.
Proof.
  induction n as [|n IH]; intros st Hinv Hn; cbn [fit_loop];
    (destruct (cont st =? 1)%Z; [|discriminate]);
    (destruct (fit_pass x_interp profile_interp st) as [e|st'] eqn:E; [discriminate|]);
    destruct (fit_pass_room st st' Hinv E) as [Hinv' [Hc|Hr]].
  - cbn [fit_loop]. destruct (cont st' =? 1)%Z eqn:Ec; [apply Z.eqb_eq in Ec; contradiction|discriminate].
  - lia.
  - destruct n; cbn [fit_loop];
      (destruct (cont st' =? 1)%Z eqn:Ec; [apply Z.eqb_eq in Ec; contradiction|discriminate]).
  - apply IH; [exact Hinv'|lia].
Qed.

End Loop.

(** The search always ends: on a profile and an abscissa of the same
    length (other than one, where NumPy stretches every trapezoid), from
    any state, some number of passes suffices. *)
Lemma fit_loop_terminates (x_interp profile_interp : list Q) (st : fit_state) :
  length x_interp = length profile_interp ->
  length profile_interp <> 1%nat ->
  exists fuel, fit_loop fuel x_interp profile_interp st <> None.
Proof.
  intros Hlen Hne.
  set (b := baseline_fit_coefficients st). set (t := trapezoid_fit_coefficients st).
  set (db := (Z.pos (Qden (b0 b)) * Z.pos (Qden (b1 b)) * Z.pos (Qden (b2 b)))%Z).
  set (da := Z.pos (Qden (plateau_amplitude t))).
  eexists. apply (fit_loop_enough x_interp profile_interp db da Hlen Hne); [unfold db; lia|unfold da; lia| |apply Nat.le_refl].
  unfold on_grids, base_grid, amp_grid. fold b t.
  repeat split.
  - apply (on_grid_lift (Z.pos (Qden (b0 b)))); [|apply on_grid_den].
    unfold db. rewrite <- !Z.mul_assoc. apply Z.divide_factor_l.
  - apply (on_grid_lift (Z.pos (Qden (b1 b)))); [|apply on_grid_den].
    unfold db. exists (Z.pos (Qden (b0 b)) * Z.pos (Qden (b2 b)) * 10000)%Z. ring.
  - apply (on_grid_lift (Z.pos (Qden (b2 b)))); [|apply on_grid_den].
    unfold db. exists (Z.pos (Qden (b0 b)) * Z.pos (Qden (b1 b)) * 10000)%Z. ring.
  - apply (on_grid_lift da); [apply Z.divide_factor_l|apply on_grid_den].
Qed.

(** [fit_trapezoid] itself ends, with a result or an exception. *)
Lemma fit_trapezoid_terminates (p : profiles) (slice_thickness : Q) :
  length (x_interpolated p) = length (profile_interpolated p) ->
  length (profile_interpolated p) <> 1%nat ->
  exists fuel, fit_trapezoid fuel p slice_thickness <> None.
Proof.
  intros Hlen Hne. unfold fit_trapezoid.
  destruct (fit_init p slice_thickness) as [e|[st|]]; try (exists O; discriminate).
  destruct (fit_loop_terminates _ _ st Hlen Hne) as [fuel H].
  exists fuel.
  destruct (fit_loop fuel (x_interpolated p) (profile_interpolated p) st) as [[e|st']|];
    [discriminate|discriminate|contradiction].
Qed.

End FitTermination.

(** ** The search as a whole *)

Module FitSearch.
Import SliceWidth Samples FitFacts FitTermination.

(** C2 (as the code has it).  A perturbation is accepted only when its sum
    of squared residuals is strictly below the recorded [current_error],
    which it then replaces; a pass that accepts nothing ends the search
    with the coefficients unchanged; the loop has no iteration cap: the
    pass counter [j] never influences it, and the only failure it can end
    in is the [ValueError] of a shape mismatch.  It ends all the same, in
    exact arithmetic, on a profile and an abscissa of one length other
    than one: every accepted perturbation lowers the recorded error by at
    least a fixed quantum. *)
Theorem fit_trapezoid_search (x_interp profile_interp : list Q) :
  (forall i st st',
      fit_step x_interp profile_interp i st = inr st' ->
      st' = st \/
      ((current_error st' < current_error st)%Q /\ cont st' = 1 /\
       get_error x_interp profile_interp
         (fst (perturb i (baseline_fit_coefficients st) (trapezoid_fit_coefficients st)))
         (snd (perturb i (baseline_fit_coefficients st) (trapezoid_fit_coefficients st)))
       = inr (current_error st'))) /\
  (forall fuel st st',
      cont st = 1 ->
      fit_pass x_interp profile_interp st = inr st' ->
      cont st' <> 1 ->
      fit_loop (S fuel) x_interp profile_interp st = Some (inr st') /\
      baseline_fit_coefficients st' = baseline_fit_coefficients st /\
      trapezoid_fit_coefficients st' = trapezoid_fit_coefficients st /\
      current_error st' = current_error st) /\
  (forall d fuel st,
      fit_loop fuel x_interp profile_interp (add_j d st) =
      option_map (map_result (add_j d)) (fit_loop fuel x_interp profile_interp st)) /\
  (forall fuel st e,
      fit_loop fuel x_interp profile_interp st = Some (inl e) -> e = ValueError) /\
  (length x_interp = length profile_interp -> length profile_interp <> 1%nat ->
   forall baseline corrected slice_thickness,
   exists fuel,
     fit_trapezoid fuel (Profiles x_interp baseline profile_interp corrected)
       slice_thickness <> None).
Proof.
  split; [|split; [|split; [|split]]].
  - intros i st st' H.
    apply fit_step_cases in H as [H|(H1 & H2 & _ & H3)]; [now left|right; auto].
  - intros fuel st st' Hc Hp Hc'. split.
    + cbn [fit_loop]. rewrite Hc, Z.eqb_refl, Hp.
      destruct fuel; cbn [fit_loop];
        (destruct (cont st' =? 1) eqn:E; [apply Z.eqb_eq in E; contradiction|reflexivity]).
    + unfold fit_pass in Hp.
      rewrite (steps_no_accept _ _ _ _ _ Hp Hc'). repeat split.
  - intros d fuel st. apply fit_loop_add_j.
  - intros fuel st e. apply fit_loop_error.
  - intros Hlen Hne baseline corrected slice_thickness.
    now apply fit_trapezoid_terminates.
Qed.

(** The thirteenth pass on the sample profile accepts nothing, and the
    search returns; and the search on the sample profile ends. *)
Lemma fit_trapezoid_search_witness :
  fit_loop 1 xs_ex (profile_interpolated profiles_ex) fit_state_ex12 =
    Some (inr (FitState (baseline_fit_coefficients fit_state_ex12)
                 (trapezoid_fit_coefficients fit_state_ex12)
                 (current_error fit_state_ex12) 0 13)) /\
  exists fuel, fit_trapezoid fuel profiles_ex 3 <> None.
Proof.
  destruct (fit_trapezoid_search xs_ex (profile_interpolated profiles_ex))
    as (_ & H & _ & _ & T).
  split.
  - refine (proj1 (H 0%nat fit_state_ex12 _ _ _ _)).
    + reflexivity.
    + vm_compute. reflexivity.
    + discriminate.
  - refine (T _ _ baseline_ex corrected_ex 3%Q).
    + vm_compute. reflexivity.
    + vm_compute. discriminate.
Defined.

(** C2 (as stated) fails on the sample profile.  [fit_trapezoid] enters
    its loop with a [current_error] computed against the detrended profile;
    the first perturbation (number 0) is accepted against it although it
    raises the sum of squared residuals, against the interpolated profile
    (from 79107/200) as well as against the detrended one.  And the loop
    entered with the pass counter at 10000 runs its pass like any other. *)
Lemma fit_trapezoid_accepts_worse :
  fit_init profiles_ex 3 = inr (Some fit_state_ex) /\
  (exists st1 e0 e1,
      fit_step xs_ex (profile_interpolated profiles_ex) 0 fit_state_ex = inr st1 /\
      b0 (baseline_fit_coefficients st1) = (-10001 # 10000)%Q /\
      get_error xs_ex (profile_interpolated profiles_ex)
        (baseline_fit_coefficients fit_state_ex) (trapezoid_fit_coefficients fit_state_ex)
        = inr e0 /\
      get_error xs_ex (profile_interpolated profiles_ex)
        (baseline_fit_coefficients st1) (trapezoid_fit_coefficients st1) = inr e1 /\
      (e0 < e1)%Q /\
      exists d0 d1,
        get_error xs_ex (profile_corrected_interpolated profiles_ex)
          (baseline_fit_coefficients fit_state_ex) (trapezoid_fit_coefficients fit_state_ex)
          = inr d0 /\
        get_error xs_ex (profile_corrected_interpolated profiles_ex)
          (baseline_fit_coefficients st1) (trapezoid_fit_coefficients st1) = inr d1 /\
        (d0 < d1)%Q) /\
  (exists st',
      fit_pass xs_ex (profile_interpolated profiles_ex) (add_j 10000 fit_state_ex)
        = inr st' /\ cont st' = 1 /\ j st' = 10001).
Proof.
  split; [vm_compute; reflexivity|]. split.
  - eexists. exists (79107 # 200)%Q. eexists.
    split; [vm_compute; reflexivity|].
    split; [reflexivity|].
    split; [vm_compute; reflexivity|].
    split; [vm_compute; reflexivity|].
    split; [reflexivity|].
    eexists. eexists.
    split; [vm_compute; reflexivity|].
    split; [vm_compute; reflexivity|]. reflexivity.
  - eexists. split; [vm_compute; reflexivity|]. split; reflexivity.
Qed.

Example fit_trapezoid_sample :
  fit_trapezoid 13 profiles_ex 3 =
    Some (inr (Some (TrapCoeffs 10 30 1 1 (-38 # 5),
                     BaseCoeffs (-9989 # 10000) (3 # 250) (-44 # 5)))).
Proof. vm_compute. reflexivity. Qed.

End FitSearch.

(** ** What the trapezoid search keeps *)

Module FitInvariants.
Import SliceWidth SliceWidthMore Samples FitFacts.

Lemma perturb_n_samples i b t : n_samples (snd (perturb i b t)) = n_samples t.
Proof.
  destruct b as [c0 c1 c2], t as [r p l rb a]. unfold perturb.
  repeat (match goal with |- context [if ?c then _ else _] => destruct c end);
    unfold n_samples; cbn [snd n_left_baseline n_ramp n_plateau n_right_baseline]; lia.
Qed.

Lemma perturb_n_ramp i b t : i <> 6 -> n_ramp t <= n_ramp (snd (perturb i b t)).
Proof.
  intros Hi. destruct b as [c0 c1 c2], t as [r p l rb a]. unfold perturb.
  destruct (i =? 0); [cbn [snd n_ramp]; lia|]. destruct (i =? 1); [cbn [snd n_ramp]; lia|].
  destruct (i =? 2); [cbn [snd n_ramp]; lia|]. destruct (i =? 3); [cbn [snd n_ramp]; lia|].
  destruct (i =? 4); [cbn [snd n_ramp]; lia|]. destruct (i =? 5); [cbn [snd n_ramp]; lia|].
  destruct (i =? 6) eqn:E; [apply Z.eqb_eq in E; contradiction|].
  repeat (match goal with |- context [if ?c then _ else _] => destruct c end);
    cbn [snd n_ramp]; lia.
Qed.

Section Search.
Variables x_interp profile_interp : list Q.

Lemma kept_refl st : kept st st.
Proof. split; [reflexivity|lia]. Qed.

Lemma kept_trans a b c : kept a b -> kept b c -> kept a c.
Proof. intros (A1 & A2) (B1 & B2). split; [congruence|lia]. Qed.

Lemma fit_step_kept i st st' :
  fit_step x_interp profile_interp i st = inr st' -> kept st st'.
Proof.
  unfold fit_step.
  pose proof (perturb_n_samples i (baseline_fit_coefficients st) (trapezoid_fit_coefficients st)) as P1.
  pose proof (perturb_n_ramp i (baseline_fit_coefficients st) (trapezoid_fit_coefficients st)) as P2.
  destruct (perturb i _ _) as [bt tt]. cbn [snd] in *.
  destruct (get_error x_interp profile_interp bt tt) as [e|new_error]; cbn [bind];
    [discriminate|].
  destruct (Np.ltb new_error (current_error st)).
  - destruct (6 <? i) eqn:E; intros [= <-].
    + apply Z.ltb_lt in E. split; cbn; auto. apply P2. lia.
    + split; cbn; [reflexivity|lia].
  - intros [= <-]. apply kept_refl.
Qed.

Lemma steps_kept l : forall st st',
  steps x_interp profile_interp l (inr st) = inr st' -> kept st st'.
Proof.
  induction l as [|i l IH]; intros st st'; unfold steps; cbn [fold_left bind].
  - intros [= <-]. apply kept_refl.
  - fold (steps x_interp profile_interp l (fit_step x_interp profile_interp i st)).
    destruct (fit_step x_interp profile_interp i st) as [e|st1] eqn:E.
    + now rewrite steps_inl.
    + intros H. eapply kept_trans; [eapply fit_step_kept; eauto|now apply IH].
Qed.

Lemma fit_pass_kept st st' :
  fit_pass x_interp profile_interp st = inr st' -> kept st st'.
Proof.
  unfold fit_pass. intros H. apply steps_kept in H.
  destruct H as (H1 & H2). split; auto.
Qed.

Lemma fit_loop_kept fuel : forall st st',
  fit_loop fuel x_interp profile_interp st = Some (inr st') -> kept st st'.
Proof.
  induction fuel as [|fuel IH]; intros st st'; cbn [fit_loop].
  - destruct (cont st =? 1); [discriminate|]. intros [= <-]. apply kept_refl.
  - destruct (cont st =? 1); [|intros [= <-]; apply kept_refl].
    destruct (fit_pass x_interp profile_interp st) as [e|st1] eqn:E; [discriminate|].
    intros H. eapply kept_trans; [eapply fit_pass_kept; eauto|now apply IH].
Qed.

(** A turn that leaves [cont] clear found an error not below the
    recorded one. *)
Lemma fit_step_reject i st st' :
  fit_step x_interp profile_interp i st = inr st' -> cont st' <> 1 ->
  st' = st /\
  exists e,
    get_error x_interp profile_interp
      (fst (perturb i (baseline_fit_coefficients st) (trapezoid_fit_coefficients st)))
      (snd (perturb i (baseline_fit_coefficients st) (trapezoid_fit_coefficients st)))
    = inr e /\ (current_error st <= e)%Q.
Proof.
  unfold fit_step.
  destruct (perturb i _ _) as [bt tt]. cbn [fst snd].
  destruct (get_error x_interp profile_interp bt tt) as [e|new_error]; cbn [bind];
    [discriminate|].
  destruct (Np.ltb new_error (current_error st)) eqn:E.
  - destruct (6 <? i); intros [= <-]; cbn; contradiction.
  - intros [= <-] _. split; [reflexivity|]. exists new_error. split; [reflexivity|].
    unfold Np.ltb in E. apply negb_false_iff in E. now apply Qle_bool_iff.
Qed.

Lemma steps_reject l : forall st st',
  steps x_interp profile_interp l (inr st) = inr st' -> cont st' <> 1 ->
  forall i, In i l ->
  exists e,
    get_error x_interp profile_interp
      (fst (perturb i (baseline_fit_coefficients st) (trapezoid_fit_coefficients st)))
      (snd (perturb i (baseline_fit_coefficients st) (trapezoid_fit_coefficients st)))
    = inr e /\ (current_error st <= e)%Q.
Proof.
  induction l as [|k l IH]; intros st st' H Hc i Hi; [destruct Hi|].
  unfold steps in H; cbn [fold_left bind] in H.
  fold (steps x_interp profile_interp l (fit_step x_interp profile_interp k st)) in H.
  destruct (fit_step x_interp profile_interp k st) as [e|st1] eqn:E.
  - now rewrite steps_inl in H.
  - pose proof (steps_no_accept _ _ _ _ _ H Hc) as ->.
    destruct (fit_step_reject _ _ _ E Hc) as [-> He].
    destruct Hi as [->|Hi]; [exact He|]. eapply IH; eauto.
Qed.

Lemma fit_loop_last fuel : forall st st',
  cont st = 1 ->
  fit_loop fuel x_interp profile_interp st = Some (inr st') ->
  exists st0, fit_pass x_interp profile_interp st0 = inr st' /\ cont st' <> 1.
Proof.
  induction fuel as [|fuel IH]; intros st st' Hc; cbn [fit_loop]; rewrite Hc, Z.eqb_refl;
    [discriminate|].
  destruct (fit_pass x_interp profile_interp st) as [e|st1] eqn:E; [discriminate|].
  destruct (Z.eq_dec (cont st1) 1) as [H1|H1].
  - now apply IH.
  - destruct fuel; cbn [fit_loop];
      (destruct (cont st1 =? 1) eqn:E1; [apply Z.eqb_eq in E1; contradiction|]);
      intros [= <-]; eauto.
Qed.

End Search.

Lemma initial_guess profile slice_thickness fit t :
  get_initial_trapezoid_fit_and_coefficients profile slice_thickness = inr (Some (fit, t)) ->
  n_samples t = Z.of_nat (length profile) /\
  ((slice_thickness == 3)%Q /\ n_ramp t = 7 \/ (slice_thickness == 5)%Q /\ n_ramp t = 47).
Proof.
  unfold get_initial_trapezoid_fit_and_coefficients.
  destruct (Qeq_bool slice_thickness 3) eqn:E3; [|destruct (Qeq_bool slice_thickness 5) eqn:E5];
    try discriminate;
    (destruct (Np.percentile profile 5);
       [|destruct (trapezoid _) as [?|[? ?]]; discriminate]);
    (destruct (Np.percentile profile 95);
       [|destruct (trapezoid _) as [?|[? ?]]; discriminate]);
    (destruct (trapezoid _) as [e|[trap fwhm]]; cbn [bind]; [discriminate|]);
    intros [= _ <-];
    (split; [unfold n_samples; cbn [n_left_baseline n_ramp n_plateau n_right_baseline]; lia|]).
  - left. split; [now apply Qeq_bool_iff|reflexivity].
  - right. split; [now apply Qeq_bool_iff|reflexivity].
Qed.

Lemma fit_init_guess p slice_thickness st :
  fit_init p slice_thickness = inr (Some st) ->
  cont st = 1 /\
  n_samples (trapezoid_fit_coefficients st)
    = Z.of_nat (length (profile_corrected_interpolated p)) /\
  ((slice_thickness == 3)%Q /\ n_ramp (trapezoid_fit_coefficients st) = 7 \/
   (slice_thickness == 5)%Q /\ n_ramp (trapezoid_fit_coefficients st) = 47).
Proof.
  unfold fit_init.
  destruct (get_initial_trapezoid_fit_and_coefficients _ _) as [e|[[fit t]|]] eqn:E;
    cbn [bind]; try discriminate.
  apply initial_guess in E.
  destruct (Np.index _ 0); cbn [bind]; [discriminate|].
  destruct (Np.index _ 1); cbn [bind]; [discriminate|].
  destruct (Np.index _ 2); cbn [bind]; [discriminate|].
  destruct (Np.add _ _); cbn [bind]; [discriminate|].
  destruct (Np.sub _ _); cbn [bind]; [discriminate|].
  intros [= <-]. cbn. split; [reflexivity|exact E].
Qed.

(** X1. The coefficients [fit_trapezoid] returns stand for as many samples
    as the profile has: the search moves samples between the segments of
    the trapezoid and never changes their nominal total. *)
Theorem fit_trapezoid_keeps_samples fuel p slice_thickness t b :
  fit_trapezoid fuel p slice_thickness = Some (inr (Some (t, b))) ->
  n_samples t = Z.of_nat (length (profile_corrected_interpolated p)).
Proof.
  unfold fit_trapezoid.
  destruct (fit_init p slice_thickness) as [e|[st|]] eqn:E; try discriminate.
  apply fit_init_guess in E as (_ & E & _).
  destruct (fit_loop _ _ _ st) as [[e|st']|] eqn:L; try discriminate.
  intros [= <- _]. apply fit_loop_kept in L as [L _]. congruence.
Qed.

Lemma fit_trapezoid_keeps_samples_witness :
  n_samples (TrapCoeffs 10 30 1 1 (-38 # 5)) = 52.
Proof.
  exact (fit_trapezoid_keeps_samples 13 profiles_ex 3 _ _ FitSearch.fit_trapezoid_sample).
Defined.

(** X2. The ramp of the fitted trapezoid is never narrower than the ramp
    of the initial guess, 7 samples for a slice thickness of 3 and 47 for
    a slice thickness of 5: the perturbation that narrows the ramp is the
    one with [i = 6], and the trapezoid is updated for [i > 6] only. *)
Theorem fit_trapezoid_ramp_never_narrower fuel p slice_thickness t b :
  fit_trapezoid fuel p slice_thickness = Some (inr (Some (t, b))) ->
  ((slice_thickness == 3)%Q /\ 7 <= n_ramp t) \/ ((slice_thickness == 5)%Q /\ 47 <= n_ramp t).
Proof.
  unfold fit_trapezoid.
  destruct (fit_init p slice_thickness) as [e|[st|]] eqn:E; try discriminate.
  apply fit_init_guess in E as (_ & _ & E).
  destruct (fit_loop _ _ _ st) as [[e|st']|] eqn:L; try discriminate.
  intros [= <- _]. apply fit_loop_kept in L as [_ L].
  destruct E as [[E1 E2]|[E1 E2]]; [left|right]; split; auto; lia.
Qed.

Lemma fit_trapezoid_ramp_never_narrower_witness :
  ((3 == 3)%Q /\ 7 <= 10) \/ ((3 == 5)%Q /\ 47 <= 10).
Proof.
  exact (fit_trapezoid_ramp_never_narrower 13 profiles_ex 3 _ _ FitSearch.fit_trapezoid_sample).
Defined.

(** X3. Where the search stops: when the loop returns, each of the
    fourteen perturbations of the returned coefficients has an error, and
    none of them is below the recorded error, the value the loop compares
    with.  The recorded error need not be the error of the returned
    coefficients, so this is no local minimum of the error: the sample
    below shows a perturbation between the two. *)
Theorem fit_loop_stops_at_recorded_error fuel x_interp profile_interp st st' :
  cont st = 1 ->
  fit_loop fuel x_interp profile_interp st = Some (inr st') ->
  forall i, 0 <= i < 14 ->
  exists e,
    get_error x_interp profile_interp
      (fst (perturb i (baseline_fit_coefficients st') (trapezoid_fit_coefficients st')))
      (snd (perturb i (baseline_fit_coefficients st') (trapezoid_fit_coefficients st')))
    = inr e /\ (current_error st' <= e)%Q.
Proof.
  intros Hc L i Hi.
  destruct (fit_loop_last _ _ _ _ _ Hc L) as (st0 & P & Hc').
  unfold fit_pass in P.
  pose proof (steps_no_accept _ _ _ _ _ P Hc') as E.
  assert (Hin : In i (Py.range 0 14)).
  { assert (H : i = 0 \/ i = 1 \/ i = 2 \/ i = 3 \/ i = 4 \/ i = 5 \/ i = 6 \/ i = 7 \/
                i = 8 \/ i = 9 \/ i = 10 \/ i = 11 \/ i = 12 \/ i = 13) by lia.
    repeat (destruct H as [->|H]; [cbv; auto 20|]). subst i. cbv; auto 20. }
  destruct (steps_reject _ _ _ _ _ P Hc' i Hin) as (e & He & Hle).
  rewrite E. cbn [baseline_fit_coefficients trapezoid_fit_coefficients current_error].
  exists e. split; [exact He|exact Hle].
Qed.

Lemma fit_loop_stops_at_recorded_error_witness :
  let b := BaseCoeffs (-9989 # 10000) (3 # 250) (-44 # 5) in
  let t := TrapCoeffs 10 30 1 1 (-38 # 5) in
  let recorded := (915890580373 # 12800000000)%Q in
  let own := (26171436294071 # 345600000000)%Q in
  fit_loop 1 xs_ex (profile_interpolated profiles_ex) fit_state_ex12
    = Some (inr (FitState b t recorded 0 13)) /\
  get_error xs_ex (profile_interpolated profiles_ex) b t = inr own /\
  (recorded < own)%Q /\
  exists e,
    get_error xs_ex (profile_interpolated profiles_ex)
      (fst (perturb 1 b t)) (snd (perturb 1 b t)) = inr e /\
    (recorded <= e)%Q /\ (e < own)%Q.
Proof.
  cbv zeta.
  assert (L : fit_loop 1 xs_ex (profile_interpolated profiles_ex) fit_state_ex12
              = Some (inr (FitState (BaseCoeffs (-9989 # 10000) (3 # 250) (-44 # 5))
                             (TrapCoeffs 10 30 1 1 (-38 # 5))
                             (915890580373 # 12800000000) 0 13)))
    by (vm_compute; reflexivity).
  split; [exact L|]. split; [vm_compute; reflexivity|]. split; [reflexivity|].
  destruct (fit_loop_stops_at_recorded_error 1 xs_ex (profile_interpolated profiles_ex)
              fit_state_ex12 _ eq_refl L 1) as (e & He & Hle); [lia|].
  cbn [baseline_fit_coefficients trapezoid_fit_coefficients current_error] in He, Hle.
  exists e. split; [exact He|]. split; [exact Hle|].
  vm_compute in He. injection He as <-. reflexivity.
Defined.

End FitInvariants.

(** ** The order of the rods *)

Module RodFacts.
Import SliceWidth SliceWidthMore Samples.

Lemma ltb_true a b : Np.ltb a b = true <-> (a < b)%Q.
Proof.
  unfold Np.ltb. rewrite negb_true_iff. split.
  - intros H. apply Qnot_le_lt. intros Hle. apply Qle_bool_iff in Hle. congruence.
  - intros H. destruct (Qle_bool b a) eqn:E; [|reflexivity].
    apply Qle_bool_iff in E. exfalso. now apply (Qlt_not_le _ _ H).
Qed.

Lemma rod_lt_spec a b :
  __lt__ a b = true <->
  (rod_y b < rod_y a)%Q \/ ((rod_y a == rod_y b)%Q /\ (rod_x a < rod_x b)%Q).
Proof.
  unfold __lt__, centroid.
  destruct (Qeq_bool (- rod_y a) (- rod_y b)) eqn:E.
  - apply Qeq_bool_iff in E. rewrite ltb_true.
    assert (E' : (rod_y a == rod_y b)%Q).
    { rewrite <- (Qopp_involutive (rod_y a)), E. apply Qopp_involutive. }
    split; [auto|]. intros [H|[_ H]]; [|exact H].
    rewrite E' in H. exfalso. now apply (Qlt_irrefl (rod_y b)).
  - rewrite ltb_true.
    assert (N : ~ (rod_y a == rod_y b)%Q).
    { intros H. apply Qeq_bool_neq in E. apply E. now rewrite H. }
    split.
    + intros H. left. apply Qopp_lt_compat in H. now rewrite !Qopp_involutive in H.
    + intros [H|[H _]]; [|contradiction]. now apply Qopp_lt_compat.
Qed.

Lemma rod_eq_spec a b :
  __eq__ a b = true <-> (rod_x a == rod_x b)%Q /\ (rod_y a == rod_y b)%Q.
Proof.
  unfold __eq__. rewrite andb_true_iff, !Qeq_bool_iff. tauto.
Qed.

(** X4. On rods whose coordinates are numbers, [Rod.__lt__] is a strict
    total order up to [Rod.__eq__]: it is irreflexive and transitive, and
    of [a < b], [a == b], [b < a] exactly one holds.  A rod with a [nan]
    coordinate is outside this statement. *)
Theorem rod_lt_strict_total_order :
  (forall a, __lt__ a a = false) /\
  (forall a b c, __lt__ a b = true -> __lt__ b c = true -> __lt__ a c = true) /\
  (forall a b, __lt__ a b = true \/ __eq__ a b = true \/ __lt__ b a = true) /\
  (forall a b, __lt__ a b = true -> __eq__ a b = false /\ __lt__ b a = false).
Proof.
  split; [|split; [|split]].
  - intros a. destruct (__lt__ a a) eqn:E; [|reflexivity].
    apply rod_lt_spec in E as [E|[_ E]]; exfalso; eapply Qlt_irrefl; eauto.
  - intros a b c H1 H2. apply rod_lt_spec in H1, H2. apply rod_lt_spec.
    destruct H1 as [H1|[H1 H1']], H2 as [H2|[H2 H2']].
    + left. now apply Qlt_trans with (rod_y b).
    + left. now rewrite <- H2.
    + left. now rewrite H1.
    + right. split; [now rewrite H1|now apply Qlt_trans with (rod_x b)].
  - intros a b. rewrite !rod_lt_spec, rod_eq_spec.
    destruct (Q_dec (rod_y a) (rod_y b)) as [[H|H]|H]; auto.
    destruct (Q_dec (rod_x a) (rod_x b)) as [[H'|H']|H']; auto.
    right; right; right. split; [now symmetry|exact H'].
  - intros a b H. apply rod_lt_spec in H. split.
    + destruct (__eq__ a b) eqn:E; [|reflexivity]. apply rod_eq_spec in E as [E1 E2].
      destruct H as [H|[_ H]]; exfalso.
      * rewrite E2 in H. eapply Qlt_irrefl; eauto.
      * rewrite E1 in H. eapply Qlt_irrefl; eauto.
    + destruct (__lt__ b a) eqn:E; [|reflexivity]. apply rod_lt_spec in E.
      destruct H as [H|[H H']], E as [E|[E E']]; exfalso.
      * apply (Qlt_irrefl (rod_y a)). now apply Qlt_trans with (rod_y b).
      * rewrite E in H. eapply Qlt_irrefl; eauto.
      * rewrite H in E. eapply Qlt_irrefl; eauto.
      * apply (Qlt_irrefl (rod_x a)). now apply Qlt_trans with (rod_x b).
Qed.

(** X5. Given nine rods, [sort_rods] returns the same nine rods, each
    once. *)
Theorem sort_rods_nine_permutation rods :
  length rods = 9%nat -> Permutation (sort_rods rods) rods.
Proof.
  intros Len. unfold sort_rods, Py.slice, Py.slice_last.
  set (s := Py.sorted rod_y rods).
  assert (HP : Permutation s rods) by apply PyFacts.sorted_perm.
  assert (Ls : length s = 9%nat) by now rewrite (Permutation_length HP).
  rewrite Ls. cbn [Nat.sub]. rewrite !PyFacts.sorted_perm.
  assert (D : s = firstn 3 s ++ firstn 3 (skipn 3 s) ++ skipn 6 s).
  { change 6%nat with (3 + 3)%nat. now rewrite <- skipn_skipn, !firstn_skipn. }
  set (A := firstn 3 s) in *. set (B := firstn 3 (skipn 3 s)) in *.
  set (C := skipn 6 s) in *.
  apply Permutation_trans with (A ++ B ++ C); [|rewrite <- D; exact HP].
  rewrite Permutation_app_comm, <- app_assoc.
  apply Permutation_app_swap_app.
Qed.

Lemma sort_rods_nine_permutation_witness :
  Permutation (sort_rods (upper_ex ++ middle_ex ++ lower_ex))
    (upper_ex ++ middle_ex ++ lower_ex).
Proof.
  apply sort_rods_nine_permutation. reflexivity.
Defined.

(** X6. How many rods [sort_rods] returns: the last three, the fourth to
    sixth and the first three of the rods ordered by [y], as far as they
    exist.  Fewer than nine rods give fewer than nine or repeated rods,
    more than nine lose some. *)
Theorem sort_rods_length rods :
  length (sort_rods rods) =
    (Nat.min 3 (length rods) + (Nat.min 6 (length rods) - 3) + Nat.min 3 (length rods))%nat.
Proof.
  unfold sort_rods, Py.slice, Py.slice_last.
  set (s := Py.sorted rod_y rods).
  assert (Ls : length s = length rods) by (apply Permutation_length, PyFacts.sorted_perm).
  rewrite !length_app.
  rewrite !(Permutation_length (PyFacts.sorted_perm rod_x _)).
  rewrite length_skipn, !length_firstn, length_skipn. change (skipn 0 s) with s.
  rewrite Ls. lia.
Qed.

(** X7. On nine rods forming three rows of three, ordering the ordered
    rods again changes nothing. *)
Theorem sort_rods_idempotent rods upper middle lower :
  rows_3x3 upper middle lower ->
  Permutation rods (upper ++ middle ++ lower) ->
  sort_rods (sort_rods rods) = sort_rods rods.
Proof.
  intros H HP.
  rewrite (SliceWidthFacts.sort_rods_rows rods upper middle lower H HP).
  apply (SliceWidthFacts.sort_rods_rows _ upper middle lower H).
  rewrite !PyFacts.sorted_perm.
  rewrite Permutation_app_comm, <- app_assoc.
  apply Permutation_app_swap_app.
Qed.

Lemma sort_rods_idempotent_witness :
  sort_rods (sort_rods (rev (upper_ex ++ middle_ex ++ lower_ex)))
  = sort_rods (rev (upper_ex ++ middle_ex ++ lower_ex)).
Proof.
  apply (sort_rods_idempotent _ upper_ex middle_ex lower_ex).
  - exact SliceWidthFacts.rows_3x3_ex.
  - apply Permutation_sym, Permutation_rev.
Defined.

End RodFacts.

(** ** Ramp profiles and the baseline correction *)

Module ProfileFacts.
Import SliceWidth SliceWidthMore Uniformity Samples.

Lemma slice_length {A} (a b : nat) (l : list A) :
  length (Py.slice a b l) = Nat.min (b - a) (length l - a).
Proof. unfold Py.slice. now rewrite length_firstn, length_skipn. Qed.

Lemma getslice_length {A} (i j : Z) (l : list A) :
  0 <= i <= j -> j <= Z.of_nat (length l) ->
  length (getslice i j l) = Z.to_nat (j - i).
Proof.
  intros Hi Hj. unfold getslice, slice_bound. rewrite slice_length.
  destruct (i <? 0) eqn:Ei; [apply Z.ltb_lt in Ei; lia|].
  destruct (j <? 0) eqn:Ej; [apply Z.ltb_lt in Ej; lia|]. lia.
Qed.

(** A slice whose start is negative and whose stop is not: the start
    counts from the end, and nothing is left when it lands at or after
    the stop. *)
Lemma getslice_wraps {A} (i j : Z) (l : list A) :
  i < 0 <= j -> j <= i + Z.of_nat (length l) -> getslice i j l = [].
Proof.
  intros Hi Hj. unfold getslice, slice_bound, Py.slice.
  destruct (i <? 0) eqn:Ei; [|apply Z.ltb_ge in Ei; lia].
  destruct (j <? 0) eqn:Ej; [apply Z.ltb_lt in Ej; lia|].
  replace (_ - _)%nat with 0%nat by lia. reflexivity.
Qed.

Lemma Forall_slice {A} (P : A -> Prop) (a b : nat) (l : list A) :
  Forall P l -> Forall P (Py.slice a b l).
Proof.
  intros H. unfold Py.slice.
  rewrite <- (firstn_skipn a l) in H. apply Forall_app in H as [_ H].
  rewrite <- (firstn_skipn (b - a) (skipn a l)) in H. now apply Forall_app in H as [H _].
Qed.

Lemma getslice2_shape {A} (r0 r1 c0 c1 : Z) (a : list (list A)) (h w : nat) :
  rect a h w ->
  0 <= r0 <= r1 -> r1 <= Z.of_nat h -> 0 <= c0 <= c1 -> c1 <= Z.of_nat w ->
  rect (getslice2 r0 r1 c0 c1 a) (Z.to_nat (r1 - r0)) (Z.to_nat (c1 - c0)).
Proof.
  intros [Hh Hw] Hr0 Hr1 Hc0 Hc1. unfold rect, getslice2. split.
  - rewrite length_map. apply getslice_length; [exact Hr0|now rewrite Hh].
  - apply Forall_map. unfold getslice at 2.
    eapply Forall_impl; [|apply Forall_slice; exact Hw].
    intros row Hrow. cbn beta in Hrow. apply getslice_length; [exact Hc0|now rewrite Hrow].
Qed.

Lemma get_ramp_profiles_returns image rods :
  (6 < length rods)%nat ->
  exists rods0 rods3 rods5 rods6,
    nth_error rods 0 = Some rods0 /\ nth_error rods 3 = Some rods3 /\
    nth_error rods 5 = Some rods5 /\ nth_error rods 6 = Some rods6 /\
    let top_c := Np.round_half_even ((rod_y rods3 - rod_y rods6) / 2 + rod_y rods6)%Q in
    let bottom_c := Np.round_half_even ((rod_y rods0 - rod_y rods3) / 2 + rod_y rods3)%Q in
    get_ramp_profiles image rods =
      inr (RampProfiles
             (getslice2 (top_c - 10) (top_c + 10)
                (Np.trunc (rod_x rods3)) (Np.trunc (rod_x rods5)) image)
             (getslice2 (bottom_c - 10) (bottom_c + 10)
                (Np.trunc (rod_x rods3)) (Np.trunc (rod_x rods5)) image)
             top_c bottom_c).
Proof.
  intros H.
  destruct rods as [|r0 [|r1 [|r2 [|r3 [|r4 [|r5 [|r6 rods]]]]]]]; cbn in H; try lia.
  exists r0, r3, r5, r6. repeat split.
Qed.


(** X9. A ramp centre less than ten rows below the first row of an image of
    twenty rows or more: the first row of the slice is counted from the
    end of the image, and the profile has no rows at all. *)
Theorem get_ramp_profiles_near_first_row image rods p :
  (20 <= length image)%nat ->
  get_ramp_profiles image rods = inr p ->
  (0 <= top_centre p < 10 -> top p = []) /\
  (0 <= bottom_centre p < 10 -> bottom p = []).
Proof.
  intros Hh E.
  assert (Hlen : (6 < length rods)%nat).
  { unfold get_ramp_profiles, Np.index in E.
    destruct rods as [|r0 [|r1 [|r2 [|r3 [|r4 [|r5 [|r6 rods]]]]]]]; cbn in E;
      try discriminate. cbn. lia. }
  destruct (get_ramp_profiles_returns image rods Hlen)
    as (r0 & r3 & r5 & r6 & _ & _ & _ & _ & E').
  rewrite E in E'. injection E' as ->.
  cbn [top bottom top_centre bottom_centre]. unfold getslice2.
  split; intros Hc; rewrite getslice_wraps; try reflexivity; lia.
Qed.

Section BaselineCorrection.
Variable polyfit : list Q -> list Q -> Z -> result (list Q).
Variable interp1d : list Q -> list Q -> result (Q -> Q).

Lemma map2_length op a : forall b,
  length a = length b -> length (Np.map2 op a b) = length a.
Proof.
  induction a as [|x a IH]; intros [|y b] H; cbn in *; try lia.
  now rewrite IH by lia.
Qed.

Lemma baseline_correction_parts profile sample_spacing cp :
  baseline_correction polyfit interp1d profile sample_spacing = inr cp ->
  let n := Z.to_nat (Qceiling (inject_Z (Z.of_nat (length profile)) / sample_spacing)) in
  length (x_interpolated (fit_profiles cp)) = n /\
  length (profile_interpolated (fit_profiles cp)) = n /\
  length (profile_corrected_interpolated (fit_profiles cp)) = n /\
  length (baseline_interpolated cp) = n.
Proof.
  unfold baseline_correction.
  destruct (polyfit _ _ 2) as [e|coeffs]; cbn [bind]; [discriminate|].
  unfold arange_step.
  destruct (Qeq_bool sample_spacing 0); cbn [bind raise ret]; [discriminate|].
  set (x_interp := map _ (seq 0 _)).
  destruct (Np.sub profile _) as [e|corrected]; cbn [bind]; [discriminate|].
  destruct (interp1d _ corrected) as [e|f]; cbn [bind]; [discriminate|].
  assert (Lx : length x_interp =
               Z.to_nat (Qceiling (inject_Z (Z.of_nat (length profile)) / sample_spacing))).
  { unfold x_interp. rewrite length_map, length_seq. f_equal.
    apply Qceiling_comp.
    assert (inject_Z (Z.of_nat (length profile)) - 0 == inject_Z (Z.of_nat (length profile)))%Q
      as -> by ring.
    reflexivity. }
  unfold Np.add, Np.broadcast, Np.poly1d_call.
  rewrite !length_map, Nat.eqb_refl. cbn [bind ret].
  intros [= <-]. cbn [fit_profiles x_interpolated profile_interpolated
                      profile_corrected_interpolated baseline_interpolated].
  rewrite map2_length, !length_map by now rewrite !length_map.
  auto.
Qed.

End BaselineCorrection.

(** X10. The arrays [baseline_correction] returns have one length, the
    number of samples of the interpolated abscissa; at the sample spacing
    0.25 of [get_slice_width] that is four times the length of the
    profile. *)
Theorem baseline_correction_lengths
    (polyfit : list Q -> list Q -> Z -> result (list Q))
    (interp1d : list Q -> list Q -> result (Q -> Q))
    (profile : list Q) (sample_spacing : Q) (cp : corrected_profiles) :
  baseline_correction polyfit interp1d profile sample_spacing = inr cp ->
  let n := length (x_interpolated (fit_profiles cp)) in
  length (profile_interpolated (fit_profiles cp)) = n /\
  length (profile_corrected_interpolated (fit_profiles cp)) = n /\
  length (baseline_interpolated cp) = n /\
  ((sample_spacing == 1 # 4)%Q -> n = (4 * length profile)%nat).
Proof.
  intros E n. destruct (baseline_correction_parts polyfit interp1d _ _ _ E)
    as (Lx & Lp & Lc & Lb).
  unfold n. rewrite Lx, Lp, Lc, Lb. repeat split. intros Hs.
  assert (Q4 : (inject_Z (Z.of_nat (length profile)) / sample_spacing
                == inject_Z (4 * Z.of_nat (length profile)))%Q).
  { rewrite Hs, inject_Z_mult. unfold Qdiv. change (/ (1 # 4))%Q with 4%Q.
    change (inject_Z 4) with 4%Q. ring. }
  rewrite (Qceiling_comp _ _ Q4), Qceiling_Z. lia.
Qed.

(** X11. The search ends on every profile that [baseline_correction] prepared
    with a sample spacing below one (0.25 in [get_slice_width]). *)
Theorem fit_trapezoid_ends_after_baseline_correction
    (polyfit : list Q -> list Q -> Z -> result (list Q))
    (interp1d : list Q -> list Q -> result (Q -> Q))
    (profile : list Q) (sample_spacing slice_thickness : Q) (cp : corrected_profiles) :
  (0 < sample_spacing)%Q -> (sample_spacing < 1)%Q ->
  baseline_correction polyfit interp1d profile sample_spacing = inr cp ->
  exists fuel, fit_trapezoid fuel (fit_profiles cp) slice_thickness <> None.
Proof.
  intros H0 H1 E. apply baseline_correction_parts in E as (Lx & Lp & _ & _).
  apply FitTermination.fit_trapezoid_terminates; [congruence|].
  rewrite Lp. clear Lx Lp.
  destruct profile as [|v profile].
  - cbn [length Z.of_nat].
    replace (Qceiling (inject_Z 0 / sample_spacing)) with (Qceiling 0)
      by (apply Qceiling_comp; unfold Qdiv; symmetry; apply Qmult_0_l).
    discriminate.
  - set (w := Z.of_nat (length (v :: profile))).
    assert (Hw : 1 <= w) by (unfold w; cbn [length]; lia).
    assert (Hq : (1 < inject_Z w / sample_spacing)%Q).
    { apply Qlt_shift_div_l; [exact H0|]. rewrite Qmult_1_l.
      apply Qlt_le_trans with 1%Q; [exact H1|].
      change 1%Q with (inject_Z 1). now rewrite <- Zle_Qle. }
    pose proof (Qle_ceiling (inject_Z w / sample_spacing)) as Hc.
    assert (Hz : 1 < Qceiling (inject_Z w / sample_spacing)).
    { rewrite Zlt_Qlt. eapply Qlt_le_trans; eauto. }
    lia.
Qed.

Lemma flat_rect h w c : rect (flat h w c) h w.
Proof.
  unfold flat, rect. split; [apply repeat_length|].
  apply Forall_forall. intros row H. apply repeat_spec in H. subst row. apply repeat_length.
Qed.


Lemma get_ramp_profiles_near_first_row_witness :
  exists p,
    get_ramp_profiles (flat 24 24 1) rods_high = inr p /\ top_centre p = 5 /\ top p = [].
Proof.
  destruct (get_ramp_profiles (flat 24 24 1) rods_high) as [e|p] eqn:E;
    [vm_compute in E; discriminate|].
  assert (C : top_centre p = 5).
  { apply (f_equal (fun r => match r with inr p => top_centre p | inl _ => 0 end)) in E.
    vm_compute in E. symmetry. exact E. }
  exists p. split; [reflexivity|]. split; [exact C|].
  apply (get_ramp_profiles_near_first_row (flat 24 24 1) rods_high p); [cbn; lia|exact E|lia].
Defined.

Lemma baseline_correction_lengths_witness :
  exists cp,
    baseline_correction polyfit_ex interp1d_ex profile_ex (1 # 4) = inr cp /\
    length (profile_interpolated (fit_profiles cp)) = 240%nat /\
    length (profile_corrected_interpolated (fit_profiles cp)) = 240%nat /\
    length (baseline_interpolated cp) = 240%nat /\
    length (x_interpolated (fit_profiles cp)) = 240%nat.
Proof.
  destruct (baseline_correction polyfit_ex interp1d_ex profile_ex (1 # 4)) as [e|cp] eqn:E;
    [vm_compute in E; discriminate|].
  exists cp. split; [reflexivity|].
  destruct (baseline_correction_lengths polyfit_ex interp1d_ex profile_ex (1 # 4) cp E)
    as (H1 & H2 & H3 & H4).
  specialize (H4 (Qeq_refl _)). change (4 * length profile_ex)%nat with 240%nat in H4.
  rewrite H1, H2, H3, H4. repeat split.
Defined.

Lemma fit_trapezoid_ends_after_baseline_correction_witness :
  exists cp,
    baseline_correction polyfit_ex interp1d_ex profile_ex (1 # 4) = inr cp /\
    exists fuel, fit_trapezoid fuel (fit_profiles cp) 3 <> None.
Proof.
  destruct (baseline_correction polyfit_ex interp1d_ex profile_ex (1 # 4)) as [e|cp] eqn:E;
    [vm_compute in E; discriminate|].
  exists cp. split; [reflexivity|].
  apply (fit_trapezoid_ends_after_baseline_correction polyfit_ex interp1d_ex profile_ex
           (1 # 4) 3 cp); [reflexivity|reflexivity|exact E].
Defined.

End ProfileFacts.

(** ** Distances, distortion and the combined width *)

Module GeometryFacts.
Import SliceWidth SliceWidthReal SliceWidthGeometry Samples.
Local Open Scope R_scope.

Lemma round_half_even_R_nonneg x : 0 <= x -> (0 <= round_half_even x)%Z.
Proof.
  intros H. unfold round_half_even.
  assert (F : (0 <= Zfloor x)%Z) by (apply Zfloor_lub; exact H).
  destruct (Rlt_dec _ _); [exact F|].
  destruct (Rlt_dec _ _); [lia|]. destruct (Z.even _); lia.
Qed.

Lemma round_n_nonneg x n : 0 <= x -> 0 <= round_n x n.
Proof.
  intros H. unfold round_n.
  assert (P : 0 < 10 ^ n) by (apply pow_lt; lra).
  apply Rmult_le_pos; [|left; now apply Rinv_0_lt_compat].
  apply IZR_le, round_half_even_R_nonneg. apply Rmult_le_pos; lra.
Qed.

Lemma rod_distance_nonneg a b : 0 <= rod_distance a b.
Proof. apply round_n_nonneg, sqrt_pos. Qed.

Lemma rod_distance_translate dx dy a b :
  rod_distance (translate dx dy a) (translate dx dy b) = rod_distance a b.
Proof.
  unfold rod_distance, translate; cbn [rod_x rod_y]. rewrite !Q2R_plus.
  replace (Q2R (rod_y a) + Q2R dy - (Q2R (rod_y b) + Q2R dy))
    with (Q2R (rod_y a) - Q2R (rod_y b)) by ring.
  replace (Q2R (rod_x a) + Q2R dx - (Q2R (rod_x b) + Q2R dx))
    with (Q2R (rod_x a) - Q2R (rod_x b)) by ring.
  reflexivity.
Qed.

(** X12. For rods whose coordinates are numbers, the six distances
    [get_rod_distances] returns are numbers and never negative.  Rods
    with a [nan] coordinate are outside this statement. *)
Theorem get_rod_distances_nonneg rods horz vert :
  get_rod_distances rods = inr (horz, vert) ->
  Forall (fun d => 0 <= d) horz /\ Forall (fun d => 0 <= d) vert.
Proof.
  unfold get_rod_distances. destruct (length rods <? 9)%nat; [discriminate|].
  intros [= <- <-].
  split; repeat (apply Forall_cons; [apply rod_distance_nonneg|]); apply Forall_nil.
Qed.

(** X13. Moving all rods by one vector leaves the result of
    [get_rod_distances] as it is, the [IndexError] of fewer than nine
    rods included. *)
Theorem get_rod_distances_translate (dx dy : Q) rods :
  get_rod_distances (map (translate dx dy) rods) = get_rod_distances rods.
Proof.
  unfold get_rod_distances. rewrite length_map.
  destruct (length rods <? 9)%nat eqn:E; [reflexivity|].
  apply Nat.ltb_ge in E.
  assert (N : forall i, (i < 9)%nat ->
            nth i (map (translate dx dy) rods) (mkRod 0 0)
            = translate dx dy (nth i rods (mkRod 0 0))).
  { intros i Hi.
    rewrite (nth_indep _ _ (translate dx dy (mkRod 0 0))) by (rewrite length_map; lia).
    apply map_nth. }
  rewrite !N by lia. now rewrite !rod_distance_translate.
Qed.

(** *** Distortion *)

Lemma sum_scale s l :
  fold_right Rplus 0 (map (Rmult s) l) = s * fold_right Rplus 0 l.
Proof. induction l as [|x l IH]; cbn; [ring|]. rewrite IH. ring. Qed.

Lemma mean_scale s l : mean (map (Rmult s) l) = s * mean l.
Proof. unfold mean. rewrite sum_scale, length_map. unfold Rdiv. ring. Qed.

Lemma sum_squares_scale s m l :
  fold_right Rplus 0 (map (fun x => (x - s * m) ^ 2) (map (Rmult s) l))
  = s ^ 2 * fold_right Rplus 0 (map (fun x => (x - m) ^ 2) l).
Proof. induction l as [|x l IH]; cbn [map fold_right]; [ring|]. rewrite IH. ring. Qed.

Lemma std_scale s l : 0 <= s -> std_ddof1 (map (Rmult s) l) = s * std_ddof1 l.
Proof.
  intros Hs. unfold std_ddof1. rewrite mean_scale, sum_squares_scale, length_map.
  set (v := fold_right Rplus 0 _ / _).
  replace (s ^ 2 * fold_right Rplus 0 (map (fun x => (x - mean l) ^ 2) l)
           / (INR (length l) - 1)) with (s ^ 2 * v) by (unfold v, Rdiv; ring).
  destruct (Rle_dec 0 v) as [Hv|Hv].
  - rewrite sqrt_mult; [|apply pow2_ge_0|exact Hv]. now rewrite sqrt_pow2.
  - assert (Hv' : v <= 0) by lra.
    rewrite (sqrt_neg_0 v Hv'). rewrite sqrt_neg_0; [ring|].
    assert (0 <= s ^ 2) by apply pow2_ge_0. nra.
Qed.

Lemma distortion_scale s l : 0 < s -> distortion (map (Rmult s) l) = distortion l.
Proof.
  intros Hs. unfold distortion. rewrite mean_scale, std_scale by lra.
  destruct (Req_dec_T (s * mean l) 0) as [E|E], (Req_dec_T (mean l) 0) as [E'|E'].
  - reflexivity.
  - exfalso. apply Rmult_integral in E as [E|E]; [lra|contradiction].
  - exfalso. apply E. rewrite E'. ring.
  - f_equal. field. split; [exact E'|lra].
Qed.

(** X14. The distortions [get_rod_distortions] returns do not depend on
    the pixel spacing, as long as it is positive. *)
Theorem get_rod_distortions_any_spacing rods (pixel_spacing : R) :
  0 < pixel_spacing ->
  get_rod_distortions rods pixel_spacing = get_rod_distortions rods 1.
Proof.
  intros Hs. unfold get_rod_distortions.
  destruct (get_rod_distances rods) as [e|[horz vert]]; cbn [bind]; [reflexivity|].
  rewrite !(distortion_scale pixel_spacing) by exact Hs.
  rewrite !(distortion_scale 1) by lra. reflexivity.
Qed.

Lemma distortion_equal d : d <> 0 -> distortion [d; d; d] = Some 0.
Proof.
  intros Hd. unfold distortion.
  assert (M : mean [d; d; d] = d) by (unfold mean; cbn; field).
  rewrite M. destruct (Req_dec_T d 0) as [E|_]; [contradiction|].
  f_equal. unfold std_ddof1. rewrite M. cbn [map fold_right length INR].
  replace ((d - d) ^ 2 + ((d - d) ^ 2 + ((d - d) ^ 2 + 0))) with 0 by ring.
  unfold Rdiv at 2. rewrite Rmult_0_l, sqrt_0. unfold Rdiv. ring.
Qed.

(** X15. A perfectly regular grid (the three distances of each direction
    equal and not zero) has no distortion: in exact arithmetic both values
    are 0.  The rounding of doubles is outside the embedding. *)
Theorem get_rod_distortions_regular_grid rods (pixel_spacing h v : R) :
  pixel_spacing <> 0 -> h <> 0 -> v <> 0 ->
  get_rod_distances rods = inr ([h; h; h], [v; v; v]) ->
  get_rod_distortions rods pixel_spacing = inr (Some 0, Some 0).
Proof.
  intros Hs Hh Hv E. unfold get_rod_distortions. rewrite E. cbn [bind map ret].
  rewrite !distortion_equal; [reflexivity| |];
    intros H; apply Rmult_integral in H as [H|H]; contradiction.
Qed.

(** *** The combined width *)

Lemma alpha_range : 0 < alpha < PI / 2.
Proof. unfold alpha. pose proof PI_RGT_0. lra. Qed.

Lemma theta_alpha : (180 - 2 * (113 / 10)) * PI / 180 = PI - 2 * alpha.
Proof. unfold alpha. field. Qed.

Lemma cos_theta : cos (PI - 2 * alpha) = - cos (2 * alpha).
Proof. rewrite cos_minus, cos_PI, sin_PI. ring. Qed.

Lemma sin_theta_pos : 0 < sin (PI - 2 * alpha).
Proof.
  rewrite sin_PI_x. pose proof alpha_range. apply sin_gt_0; lra.
Qed.

(** Two ramps of one width [a]: the combined width is [a tan(11.3 deg)]. *)
Lemma aapm_tilt_equal_ramps (a : R) :
  0 <= a -> aapm_tilt a a = Some (a * tan (113 / 10 * PI / 180)).
Proof.
  intros Ha. unfold aapm_tilt. rewrite theta_alpha, cos_theta. fold alpha.
  replace (_ ^ 2 * (a - a) ^ 2 + 4 * a * a) with ((2 * a) * (2 * a)) by ring.
  destruct (Rlt_dec _ 0) as [H|_]; [exfalso; nra|].
  rewrite sqrt_square by lra. f_equal.
  rewrite sin_PI_x, cos_2a_sin, sin_2a. unfold tan.
  pose proof alpha_range as R.
  assert (S : 0 < sin alpha) by (apply sin_gt_0; lra).
  assert (C : 0 < cos alpha) by (apply cos_gt_0; lra).
  field. split; lra.
Qed.

(** X16. The width [get_slice_width] combines from two ramps of
    non-negative width is a number ([nan] does not occur), and it is not
    negative. *)
Theorem aapm_tilt_nonneg (top bottom : R) :
  0 <= top -> 0 <= bottom -> exists w, aapm_tilt top bottom = Some w /\ 0 <= w.
Proof.
  intros Ht Hb. unfold aapm_tilt. rewrite theta_alpha, cos_theta.
  set (c := cos (2 * alpha)).
  assert (Hc : 0 < c <= 1).
  { split; [|apply COS_bound].
    apply cos_gt_0; unfold alpha; pose proof PI_RGT_0; lra. }
  set (term1 := (- c) ^ 2 * (bottom - top) ^ 2 + 4 * bottom * top).
  assert (H1 : ((bottom + top) * c) * ((bottom + top) * c) <= term1).
  { assert (P : 0 <= bottom * top * (1 - c * c)).
    { apply Rmult_le_pos; [now apply Rmult_le_pos|]. nra. }
    assert (X : term1 - (bottom + top) * c * ((bottom + top) * c)
                = 4 * (bottom * top * (1 - c * c))) by (unfold term1; ring).
    lra. }
  assert (H0 : 0 <= (bottom + top) * c) by (apply Rmult_le_pos; lra).
  destruct (Rlt_dec term1 0) as [H|_]; [exfalso; nra|].
  eexists. split; [reflexivity|].
  pose proof sin_theta_pos as S.
  apply Rmult_le_pos; [|left; apply Rinv_0_lt_compat; lra].
  apply sqrt_le_1_alt in H1. rewrite sqrt_square in H1 by exact H0. lra.
Qed.

Lemma aapm_tilt_nonneg_witness : exists w, aapm_tilt 3 5 = Some w /\ 0 <= w.
Proof. apply aapm_tilt_nonneg; lra. Defined.

(** *** A regular grid *)

Lemma Q2R_inject_Z z : Q2R (inject_Z z) = IZR z.
Proof. unfold Q2R, inject_Z; cbn [Qnum Qden]. rewrite Rinv_1. ring. Qed.

Lemma round_half_even_IZR z : SliceWidthReal.round_half_even (IZR z) = z.
Proof.
  unfold SliceWidthReal.round_half_even.
  assert (F : Zfloor (IZR z) = z) by (apply Zfloor_eq; lra).
  rewrite F. destruct (Rlt_dec _ _) as [_|H]; [reflexivity|exfalso; lra].
Qed.

Lemma round_n_IZR z n : round_n (IZR z) n = IZR z.
Proof.
  unfold round_n.
  assert (P : 0 < 10 ^ n) by (apply pow_lt; lra).
  replace (IZR z * 10 ^ n) with (IZR (z * 10 ^ Z.of_nat n))
    by (rewrite mult_IZR, <- pow_IZR; reflexivity).
  rewrite round_half_even_IZR, mult_IZR, <- pow_IZR. field. lra.
Qed.

Lemma rod_distance_row (x1 x2 y : Z) :
  rod_distance (mkRod (inject_Z x1) (inject_Z y)) (mkRod (inject_Z x2) (inject_Z y))
  = IZR (Z.abs (x1 - x2)).
Proof.
  unfold rod_distance; cbn [rod_x rod_y]. rewrite !Q2R_inject_Z.
  replace ((IZR y - IZR y) ^ 2 + (IZR x1 - IZR x2) ^ 2) with (Rsqr (IZR (x1 - x2)))
    by (rewrite minus_IZR; unfold Rsqr; ring).
  rewrite sqrt_Rsqr_abs, <- abs_IZR. apply round_n_IZR.
Qed.

Lemma rod_distance_column (x y1 y2 : Z) :
  rod_distance (mkRod (inject_Z x) (inject_Z y1)) (mkRod (inject_Z x) (inject_Z y2))
  = IZR (Z.abs (y1 - y2)).
Proof.
  unfold rod_distance; cbn [rod_x rod_y]. rewrite !Q2R_inject_Z.
  replace ((IZR y1 - IZR y2) ^ 2 + (IZR x - IZR x) ^ 2) with (Rsqr (IZR (y1 - y2)))
    by (rewrite minus_IZR; unfold Rsqr; ring).
  rewrite sqrt_Rsqr_abs, <- abs_IZR. apply round_n_IZR.
Qed.

Lemma get_rod_distances_grid_ex :
  get_rod_distances grid_ex = inr ([120; 120; 120], [120; 120; 120]).
Proof.
  unfold get_rod_distances, grid_ex. cbn [length Nat.ltb Nat.leb nth ret].
  change (mkRod 0 120) with (mkRod (inject_Z 0) (inject_Z 120)).
  change (mkRod 120 120) with (mkRod (inject_Z 120) (inject_Z 120)).
  change (mkRod 0 60) with (mkRod (inject_Z 0) (inject_Z 60)).
  change (mkRod 60 120) with (mkRod (inject_Z 60) (inject_Z 120)).
  change (mkRod 120 60) with (mkRod (inject_Z 120) (inject_Z 60)).
  change (mkRod 0 0) with (mkRod (inject_Z 0) (inject_Z 0)).
  change (mkRod 60 0) with (mkRod (inject_Z 60) (inject_Z 0)).
  change (mkRod 120 0) with (mkRod (inject_Z 120) (inject_Z 0)).
  rewrite !rod_distance_row, !rod_distance_column. reflexivity.
Qed.

Lemma get_rod_distortions_regular_grid_witness :
  get_rod_distortions grid_ex (1 / 2) = inr (Some 0, Some 0).
Proof.
  apply (get_rod_distortions_regular_grid grid_ex (1 / 2) 120 120); try lra.
  exact get_rod_distances_grid_ex.
Defined.

Lemma get_rod_distortions_any_spacing_witness :
  get_rod_distortions grid_ex (1 / 2) = get_rod_distortions grid_ex 1.
Proof. apply get_rod_distortions_any_spacing. lra. Defined.

Lemma get_rod_distances_nonneg_witness :
  Forall (fun d => 0 <= d) [120; 120; 120] /\ Forall (fun d => 0 <= d) [120; 120; 120].
Proof. exact (get_rod_distances_nonneg grid_ex _ _ get_rod_distances_grid_ex). Defined.

(** *** The width that is reported *)

Lemma aapm_tilt_swap (top bottom : R) : aapm_tilt top bottom = aapm_tilt bottom top.
Proof.
  unfold aapm_tilt.
  replace ((bottom - top) ^ 2) with ((top - bottom) ^ 2) by ring.
  replace (4 * bottom * top) with (4 * top * bottom) by ring.
  replace (bottom + top) with (top + bottom) by ring.
  reflexivity.
Qed.

(** The combination of two widths is the first of them times
    [tan(11.3 deg)] only when the two agree. *)
Lemma aapm_tilt_claimed (a b : R) :
  0 < a -> 0 <= b ->
  (aapm_tilt a b = Some (a * tan (113 / 10 * PI / 180)) <-> b = a).
Proof.
  intros Ha Hb. split; [|intros ->; apply aapm_tilt_equal_ramps; lra].
  unfold aapm_tilt. rewrite theta_alpha, cos_theta. fold alpha.
  set (c := cos (2 * alpha)).
  set (term1 := (- c) ^ 2 * (b - a) ^ 2 + 4 * b * a).
  destruct (Rlt_dec term1 0) as [|Hn]; [discriminate|]. intros H.
  assert (H' : (sqrt term1 + (b + a) * - c) / (2 * sin (PI - 2 * alpha)) = a * tan alpha)
    by congruence.
  clear H. rewrite sin_PI_x in H'.
  pose proof alpha_range as Ra.
  assert (S : 0 < sin alpha) by (apply sin_gt_0; lra).
  assert (C : 0 < cos alpha) by (apply cos_gt_0; lra).
  assert (Hc : c = 1 - 2 * sin alpha * sin alpha) by (unfold c; apply cos_2a_sin).
  assert (Hs : sin (2 * alpha) = 2 * sin alpha * cos alpha) by apply sin_2a.
  assert (S2 : 0 < sin alpha * sin alpha) by now apply Rmult_lt_0_compat.
  assert (Q : sqrt term1 = 2 * a + (b - a) * c).
  { assert (X : sqrt term1 + (b + a) * - c = a * tan alpha * (2 * sin (2 * alpha))).
    { rewrite <- H'. field. rewrite Hs. nra. }
    assert (Y : a * tan alpha * (2 * sin (2 * alpha)) = 2 * a * (1 - c)).
    { rewrite Hs, Hc. unfold tan. field. lra. }
    rewrite Y in X. lra. }
  assert (T : sqrt term1 * sqrt term1 = term1) by (apply sqrt_sqrt; lra).
  rewrite Q in T.
  assert (Z : 4 * a * ((a - b) * (1 - c)) = 0) by (unfold term1 in T; lra).
  apply Rmult_integral in Z as [Z|Z]; [lra|].
  apply Rmult_integral in Z as [Z|Z]; lra.
Qed.

Lemma grid_ex_fits tc bc tt tf bt bf :
  trapezoid tc = inr (tt, tf) -> trapezoid bc = inr (bt, bf) ->
  exists res, slice_width_of_fits grid_ex 1 tc bc = inr res.
Proof.
  intros T1 T2. unfold slice_width_of_fits, get_rod_distortions.
  rewrite get_rod_distances_grid_ex. cbn [bind ret]. rewrite T1. cbn [bind]. rewrite T2.
  cbn [bind]. eauto.
Qed.

Lemma grid_ex_coefficient :
  let rod := fun i => nth i grid_ex (mkRod 0 0) in
  round_n ((rod_distance (rod 5%nat) (rod 3%nat) + rod_distance (rod 8%nat) (rod 6%nat)) / 2 / 120) 4 = 1 /\
  round_n ((rod_distance (rod 2%nat) (rod 0%nat) + rod_distance (rod 5%nat) (rod 3%nat)) / 2 / 120) 4 = 1.
Proof.
  intros rod.
  pose proof get_rod_distances_grid_ex as G. unfold get_rod_distances in G.
  unfold grid_ex in G. cbn [length Nat.ltb Nat.leb ret nth] in G.
  injection G as G1 G2 G3 _ _ _.
  unfold rod, grid_ex. cbn [nth]. rewrite G1, G2, G3.
  assert (C : (120 + 120) / 2 / 120 = IZR 1) by field.
  rewrite C, round_n_IZR. split; reflexivity.
Qed.

Ltac widths :=
  repeat match goal with
  | |- context [IZR (?a + ?b)] =>
      let v := eval vm_compute in (a + b)%Z in change (a + b)%Z with v
  | H : context [IZR (?a + ?b)] |- _ =>
      let v := eval vm_compute in (a + b)%Z in change (a + b)%Z with v in H
  end.

Lemma slice_width_of_fits_combines (rods : list Rod) (pixel_size : R)
    (top_coefficients bottom_coefficients : trap_coeffs) (res : slice_width_result) :
  slice_width_of_fits rods pixel_size top_coefficients bottom_coefficients = inr res ->
  let rod := fun i => nth i rods (mkRod 0 0) in
  let top_width :=
    IZR (n_plateau top_coefficients + n_ramp top_coefficients) * (25 / 100) * pixel_size
    / round_n ((rod_distance (rod 5%nat) (rod 3%nat)
                + rod_distance (rod 8%nat) (rod 6%nat)) / 2 / 120) 4 in
  let bottom_width :=
    IZR (n_plateau bottom_coefficients + n_ramp bottom_coefficients) * (25 / 100) * pixel_size
    / round_n ((rod_distance (rod 2%nat) (rod 0%nat)
                + rod_distance (rod 5%nat) (rod 3%nat)) / 2 / 120) 4 in
  slice_width res = aapm_tilt top_width bottom_width.
Proof.
  intros H rod top_width bottom_width.
  unfold slice_width_of_fits, get_rod_distortions, get_rod_distances in H.
  destruct (length rods <? 9)%nat; [discriminate|]. cbn [bind ret] in H.
  destruct (trapezoid top_coefficients) as [e|[tt tf]] eqn:T1; cbn [bind] in H;
    [discriminate|].
  destruct (trapezoid bottom_coefficients) as [e|[bt bf]] eqn:T2; cbn [bind] in H;
    [discriminate|].
  apply TrapezoidFacts.trapezoid_fwhm in T1, T2. subst tf bf.
  injection H as <-. reflexivity.
Qed.




End GeometryFacts.

(** ** The range of the integral uniformity *)

Module UniformityBounds.
Import Uniformity Samples UniformityFacts.

Lemma set_nth_Forall {A} (P : A -> Prop) n v l :
  P v -> Forall P l -> Forall P (Np.set_nth n v l).
Proof.
  intros Hv. revert n. induction l as [|x l IH]; intros [|n] H; cbn; auto;
    inversion H; subst; constructor; auto.
Qed.

Lemma nth_Forall2 {A} (P : A -> Prop) (a : list (list A)) n :
  Forall (Forall P) a -> Forall P (nth n a []).
Proof.
  intros H. destruct (Nat.lt_ge_cases n (length a)) as [Hn|Hn].
  - rewrite Forall_forall in H. apply H, nth_In, Hn.
  - rewrite nth_overflow by exact Hn. constructor.
Qed.

Lemma setitem2_entries {A} (P : A -> Prop) (a a' : list (list A)) r c v :
  Np.setitem2 a r c v = inr a' -> P v -> Forall (Forall P) a -> Forall (Forall P) a'.
Proof.
  unfold Np.setitem2. intros H Hv Ha.
  destruct (Np.axis_index r _) as [e|r']; cbn [bind] in H; [discriminate|].
  destruct (Np.axis_index c _) as [e|c']; cbn [bind] in H; [discriminate|].
  injection H as <-. apply set_nth_Forall; [|exact Ha].
  apply set_nth_Forall; [exact Hv|]. now apply nth_Forall2.
Qed.

Lemma take2_entries {A} (P : A -> Prop) d (a : list (list A)) idx : forall vs,
  P d -> Forall (Forall P) a -> Np.take2 d a idx = inr vs -> Forall P vs.
Proof.
  induction idx as [|[r c] idx IH]; intros vs Hd Ha; cbn [Np.take2].
  - intros [= <-]. constructor.
  - unfold Np.getitem2.
    destruct (Np.axis_index r _) as [e|r']; cbn [bind]; [discriminate|].
    destruct (Np.axis_index c _) as [e|c']; cbn [bind]; [discriminate|].
    destruct (Np.take2 d a idx) as [e|vs']; cbn [bind]; [discriminate|].
    intros [= <-]. constructor; [|now apply IH].
    pose proof (nth_Forall2 P a r' Ha) as Hrow.
    destruct (Nat.lt_ge_cases c' (length (nth r' a []))) as [Hc|Hc].
    + rewrite Forall_forall in Hrow. apply Hrow, nth_In, Hc.
    + now rewrite nth_overflow.
Qed.

(** A float that is [nan] or not negative. *)
Local Abbreviation okq := (fun v : option Q => match v with Some q => (0 <= q)%Q | None => True end).

Lemma fold_sum_nonneg l : forall acc,
  (0 <= acc)%Q -> Forall (fun q => (0 <= q)%Q) l ->
  (0 <= fold_left (fun a x => Qred (a + x)) l acc)%Q.
Proof.
  induction l as [|x l IH]; intros acc Hacc H; cbn [fold_left]; [exact Hacc|].
  inversion H; subst. apply IH; [|assumption].
  rewrite Qred_correct. change (0 + 0 <= acc + x)%Q. now apply Qplus_le_compat.
Qed.

Lemma sum_nonneg l : Forall (fun q => (0 <= q)%Q) l -> (0 <= Np.sum l)%Q.
Proof. apply fold_sum_nonneg, Qle_refl. Qed.

Lemma mean_nonneg l : Forall (fun q => (0 <= q)%Q) l -> okq (Np.mean l).
Proof.
  intros H. unfold Np.mean. destruct l as [|x l]; [exact I|].
  rewrite Qred_correct. apply Qmult_le_0_compat; [now apply sum_nonneg|].
  apply Qinv_le_0_compat. change 0%Q with (inject_Z 0). rewrite <- Zle_Qle. lia.
Qed.

Lemma mean_val_nonneg values sample_mask :
  Forall (fun v => 0 <= v) values -> okq (mean_val values sample_mask).
Proof.
  intros H. unfold mean_val. destruct (_ <? _); [apply Qle_refl|].
  apply mean_nonneg, Forall_map.
  apply Forall_forall. intros v Hv. apply filter_In in Hv as [Hv _].
  rewrite Forall_forall in H. change 0%Q with (inject_Z 0). rewrite <- Zle_Qle. auto.
Qed.

Lemma iterator_entries cxy d_void masked_image sample_mask rows cols M M' :
  Forall (Forall (fun v => 0 <= v)) masked_image ->
  Forall (Forall okq) M ->
  uniformity_iterator cxy d_void M masked_image sample_mask rows cols = inr M' ->
  Forall (Forall okq) M'.
Proof.
  intros Himg. unfold uniformity_iterator, ret.
  revert M. induction (combine rows cols) as [|centre l IH]; intros M HM; cbn [fold_left bind].
  - now intros [= <-].
  - destruct (record_candidate cxy d_void masked_image sample_mask M centre)
      as [e|M1] eqn:E.
    + intros H. exfalso. clear -H. induction l as [|c l IHl]; cbn in H; [discriminate|auto].
    + apply IH. unfold record_candidate in E.
      destruct (Np.take2 0 masked_image _) as [e|values] eqn:T; cbn [bind] in E;
        [discriminate|].
      eapply (setitem2_entries okq); [exact E| |exact HM].
      apply mean_val_nonneg.
      eapply (take2_entries (fun v => 0 <= v) 0); [cbn beta; lia|exact Himg|exact T].
Qed.

Lemma keep_entries img h :
  Forall (Forall (fun v => 0 <= v)) img ->
  Forall (Forall (fun v => 0 <= v)) (keep_below img h) /\
  Forall (Forall (fun v => 0 <= v)) (keep_above img h).
Proof.
  intros H. unfold keep_below, keep_above.
  split; apply Forall_map; (eapply Forall_impl; [|exact H]); intros row Hrow;
    apply Forall_map; (eapply Forall_impl; [|exact Hrow]); intros v Hv; cbn beta in *;
    destruct h as [h|]; try lia; destruct (Np.ltb _ _); lia.
Qed.

Lemma mask_mul_entries m img img_masked :
  Forall (Forall (fun v => 0 <= v)) img -> mask_mul m img = inr img_masked ->
  Forall (Forall (fun v => 0 <= v)) img_masked.
Proof.
  intros H. unfold mask_mul. destruct (_ && _); [|discriminate]. intros [= <-].
  apply Forall_forall. intros row Hrow. apply in_map_iff in Hrow as ([mr ir] & <- & Hin).
  apply in_combine_r in Hin. rewrite Forall_forall in H. specialize (H ir Hin).
  apply Forall_forall. intros v Hv. apply in_map_iff in Hv as ([b x] & <- & Hin').
  apply in_combine_r in Hin'. rewrite Forall_forall in H. specialize (H x Hin').
  destruct b; lia.
Qed.

Lemma fmax_bound l mx :
  fmax l = inr (Some mx) -> forall q, In (Some q) l -> (q <= mx)%Q.
Proof.
  unfold fmax, fold_floats. destruct l as [|v l]; [discriminate|]. cbn [ret].
  intros [= H] q Hq.
  assert (G : forall l acc mx,
            fold_left (fun acc x => match acc, x with
                                    | Some a, Some b => Some (if Qle_bool a b then b else a)
                                    | _, _ => None
                                    end) l acc = Some mx ->
            exists a, acc = Some a /\ (a <= mx)%Q /\
                      forall q, In (Some q) l -> (q <= mx)%Q).
  { clear. induction l as [|x l IH]; intros acc mx H; cbn in H.
    - exists mx. repeat split; auto; [apply Qle_refl|intros q []].
    - apply IH in H as (a' & Ha' & Hle & Hall).
      destruct acc as [a|], x as [b|]; try discriminate. injection Ha' as <-.
      exists a. split; [reflexivity|].
      destruct (Qle_bool a b) eqn:E.
      + apply Qle_bool_iff in E. split; [now apply Qle_trans with b|].
        intros q [[= ->]|Hq]; auto.
      + assert (Hba : (b <= a)%Q).
        { apply Qlt_le_weak, Qnot_le_lt. intros Hab. apply Qle_bool_iff in Hab. congruence. }
        split; [exact Hle|]. intros q [[= ->]|Hq]; auto. now apply Qle_trans with a. }
  apply G in H as (a & -> & Ha & Hall).
  destruct Hq as [[= ->]|Hq]; auto.
Qed.

Lemma fmin_in l mn : fmin l = inr (Some mn) -> In (Some mn) l.
Proof.
  unfold fmin, fold_floats. destruct l as [|v l]; [discriminate|]. cbn [ret].
  intros [= H]. revert v H. induction l as [|x l IH]; intros v H; cbn in H.
  - left. exact H.
  - apply IH in H as [H|H]; [|right; now right].
    destruct v as [a|], x as [b|]; try discriminate.
    destruct (Qle_bool a b); injection H as <-; [now left|right; now left].
Qed.

Lemma entries_flatten {A} (P : A -> Prop) (a : list (list A)) :
  Forall (Forall P) a -> Forall P (Np.flatten a).
Proof.
  unfold Np.flatten. induction 1; cbn; [constructor|]. now apply Forall_app.
Qed.

Lemma piu_range (mx mn : Q) :
  (0 < mn)%Q -> (mn <= mx)%Q ->
  (0 < 100 * (1 - (mx - mn) / (mx + mn)) /\ 100 * (1 - (mx - mn) / (mx + mn)) <= 100)%Q.
Proof.
  intros Hmn Hle.
  assert (Hs : (0 < mx + mn)%Q).
  { apply Qlt_le_trans with (mn + mn)%Q.
    - change 0%Q with (0 + 0)%Q. now apply Qplus_lt_le_compat; [|apply Qlt_le_weak].
    - apply Qplus_le_compat; [exact Hle|apply Qle_refl]. }
  assert (E : (100 * (1 - (mx - mn) / (mx + mn)) == 200 * mn / (mx + mn))%Q).
  { field. intros H. rewrite H in Hs. now apply (Qlt_irrefl 0). }
  rewrite E. split.
  - apply Qlt_shift_div_l; [exact Hs|]. rewrite Qmult_0_l.
    apply Qmult_lt_0_compat; [reflexivity|exact Hmn].
  - apply Qle_shift_div_r; [exact Hs|].
    setoid_replace (200 * mn)%Q with (100 * (mn + mn))%Q by ring.
    apply Qmult_le_l; [reflexivity|].
    apply Qplus_le_compat; [exact Hle|apply Qle_refl].
Qed.

(** X18. On an image without negative pixels, a percent integral uniformity
    that is a number lies above 0 and not above 100. *)
Theorem get_integral_uniformity_range
    (circular_mask_ : Z * Z -> Q -> nat * nat -> Np.mask) (medium : bool)
    (cxy : Z * Z) (res : Q * Q) (img : Np.image) (u : uniformity) (p : Q) :
  Forall (Forall (fun v => 0 <= v)) img ->
  get_integral_uniformity circular_mask_ medium cxy res img = inr u ->
  piu u = Some p ->
  (0 < p /\ p <= 100)%Q.
Proof.
  intros Himg. unfold get_integral_uniformity.
  set (lroi := circular_mask_ _ (inject_Z (if medium then _ else _)) _).
  set (buffer_roi := circular_mask_ _ (_ * _)%Q _).
  destruct (mask_mul lroi img) as [e|img_masked] eqn:E1; cbn [bind]; [discriminate|].
  destruct (mask_mul buffer_roi img) as [e|img_buffer] eqn:E2; cbn [bind]; [discriminate|].
  apply (mask_mul_entries _ _ _ Himg) in E1.
  set (half_max := Np.percentile _ 50).
  destruct (keep_entries img_masked half_max E1) as [Kb Ka].
  destruct (uniformity_iterator _ _ _ (keep_below _ _) _ _ _) as [e|M1] eqn:I1;
    cbn [bind]; [discriminate|].
  destruct (uniformity_iterator _ _ M1 _ _ _ _) as [e|M2] eqn:I2;
    cbn [bind]; [discriminate|].
  assert (H1 : Forall (Forall okq) M1).
  { eapply iterator_entries; [exact Kb| |exact I1].
    apply Forall_map. apply Forall_forall. intros row _.
    apply Forall_map. apply Forall_forall. intros v _. apply Qle_refl. }
  assert (H2 : Forall (Forall okq) M2) by (eapply iterator_entries; [exact Ka|exact H1|exact I2]).
  apply entries_flatten in H2.
  destruct (fmax _) as [e|smax] eqn:F1; cbn [bind]; [discriminate|].
  destruct (fmin _) as [e|smin] eqn:F2; cbn [bind]; [discriminate|].
  unfold ret. intros Hu Hp.
  apply (f_equal (fun r => match r with inr u => piu u | inl _ => None end)) in Hu.
  cbv beta iota in Hu. cbn [piu] in Hu. rewrite Hp in Hu. clear Hp.
  destruct smax as [mx|], smin as [mn|]; try discriminate.
  destruct (Qeq_bool (mx + mn) 0); [discriminate|].
  match type of Hu with Some ?q = _ => assert (Hq : p = q) by congruence end.
  clear Hu. subst p.
  apply fmin_in in F2. apply filter_In in F2 as [Hin Hnz].
  pose proof (fmax_bound _ _ F1 mn Hin) as Hle.
  rewrite Forall_forall in H2. pose proof (H2 _ Hin) as Hpos. cbn beta iota in Hpos.
  assert (Hmn : (0 < mn)%Q).
  { apply Qle_lteq in Hpos as [Hpos|Hpos]; [exact Hpos|].
    cbn in Hnz. apply negb_true_iff in Hnz. apply Qeq_bool_neq in Hnz.
    exfalso. apply Hnz. now symmetry. }
  destruct (piu_range mx mn Hmn Hle) as [P1 P2].
  split; rewrite Qred_correct; assumption.
Qed.

Lemma slope_ex_nonneg : Forall (Forall (fun v => 0 <= v)) slope_ex.
Proof.
  unfold slope_ex. apply Forall_map, Forall_forall. intros i _.
  apply Forall_map, Forall_forall. intros j Hj. unfold Py.range in Hj.
  apply in_map_iff in Hj as (k & <- & _). lia.
Qed.

Lemma get_integral_uniformity_range_witness :
  exists u,
    get_integral_uniformity circular_mask false (5, 5) (20, 20)%Q slope_ex = inr u /\
    piu u = Some (2800 # 33)%Q /\ (0 < 2800 # 33 /\ 2800 # 33 <= 100)%Q.
Proof.
  destruct (get_integral_uniformity circular_mask false (5, 5) (20, 20)%Q slope_ex)
    as [e|u] eqn:E; [vm_compute in E; discriminate|].
  assert (Hp : piu u = Some (2800 # 33)%Q).
  { apply (f_equal (fun r => match r with inr u => piu u | inl _ => None end)) in E.
    vm_compute in E. symmetry. exact E. }
  exists u. split; [reflexivity|]. split; [exact Hp|].
  exact (get_integral_uniformity_range circular_mask false (5, 5) (20, 20)%Q slope_ex u
           (2800 # 33)%Q slope_ex_nonneg E Hp).
Defined.

Section Frame.
Variables (cxy : Z * Z) (d_void : Z) (masked_image : Np.image) (sample_mask : Np.mask).
Variables h w : nat.

Lemma iterator_frame cands : forall mean_array,
  rect mean_array h w ->
  (forall c, In c cands -> admissible cxy d_void masked_image sample_mask h w c) ->
  exists M,
    fold_left (fun acc centre =>
                 m <- acc ;; record_candidate cxy d_void masked_image sample_mask m centre)
              cands (inr mean_array) = inr M /\
    rect M h w /\
    forall r c, 0 <= r < Z.of_nat h -> 0 <= c < Z.of_nat w -> ~ In (r, c) cands ->
      Np.getitem2 (Some 0%Q) M r c = Np.getitem2 (Some 0%Q) mean_array r c.
Proof.
  induction cands as [|c0 cands IH]; intros mean_array Hrect Hadm.
  - exists mean_array. cbn. auto.
  - destruct (record_candidate_spec cxy d_void masked_image sample_mask h w
                mean_array c0 Hrect (Hadm c0 (or_introl eq_refl)))
      as (M1 & v & HM1 & Hr1 & _ & _ & Hother).
    destruct (IH M1 Hr1 (fun c Hc => Hadm c (or_intror Hc))) as (M & HM & HrM & Hout).
    exists M. cbn [fold_left bind]. rewrite HM1. split; [exact HM|]. split; [exact HrM|].
    intros r c H1 H2 Hn. rewrite Hout; auto.
    + apply Hother; auto. intros <-. apply Hn. now left.
    + intros Hc. apply Hn. now right.
Qed.

End Frame.

(** X19. The sweep writes at its candidates only: the array of means keeps its
    shape, and every entry that is not a candidate keeps its value. *)
Theorem uniformity_iterator_frame (cxy : Z * Z) (d_void : Z)
    (mean_array : float_array) (masked_image : Np.image) (sample_mask : Np.mask)
    (rows cols : list Z) (h w : nat) :
  rect mean_array h w ->
  (forall c, In c (combine rows cols) ->
             admissible cxy d_void masked_image sample_mask h w c) ->
  exists M,
    uniformity_iterator cxy d_void mean_array masked_image sample_mask rows cols = inr M /\
    rect M h w /\
    forall r c, 0 <= r < Z.of_nat h -> 0 <= c < Z.of_nat w -> ~ In (r, c) (combine rows cols) ->
      Np.getitem2 (Some 0%Q) M r c = Np.getitem2 (Some 0%Q) mean_array r c.
Proof. intros Hrect Hadm. now apply iterator_frame. Qed.

Lemma uniformity_iterator_frame_witness :
  exists M,
    uniformity_iterator (1, 2) 1 means_ex frame_ex plus_ex [2] [2] = inr M /\
    Np.getitem2 (Some 0%Q) M 3 1 = inr (Some 0%Q).
Proof.
  destruct (uniformity_iterator_frame (1, 2) 1 means_ex frame_ex plus_ex [2] [2] 5 5)
    as (M & HM & _ & Hf).
  - split; [reflexivity|]. repeat constructor.
  - intros c [<-|[]]. split; [cbn; lia|]. split; [cbn; lia|].
    intros rc Hin. vm_compute in Hin.
    repeat (destruct Hin as [<-|Hin];
            [unfold valid_index2, valid_index; cbn; lia|]).
    destruct Hin.
  - exists M. split; [exact HM|]. rewrite (Hf 3 1); [reflexivity|lia|lia|].
    intros [H|[]]. discriminate H.
Defined.

End UniformityBounds.

(** ** Bounds of the ghosting measurement *)

Module GhostingBounds.
Import Uniformity Ghosting Samples UniformityFacts.
Local Open Scope Q_scope.

Lemma round_half_even_nonneg q : 0 <= q -> (0 <= Np.round_half_even q)%Z.
Proof.
  intros H. unfold Np.round_half_even.
  assert (F : (0 <= Qfloor q)%Z).
  { change 0%Z with (Qfloor 0). now apply Qfloor_resp_le. }
  destruct (Np.ltb _ _); [exact F|]. destruct (Np.ltb _ _); [lia|].
  destruct (Z.even _); lia.
Qed.

Lemma round3_nonneg v : 0 <= v -> 0 <= round3 v.
Proof.
  intros H. unfold round3, Zq. rewrite Qred_correct.
  apply Qmult_le_0_compat; [|discriminate].
  change 0 with (inject_Z 0). rewrite <- Zle_Qle.
  apply round_half_even_nonneg. apply Qmult_le_0_compat; [exact H|discriminate].
Qed.

Lemma range_nth n k d : (k < n)%nat -> nth k (Py.range 0 (Z.of_nat n)) d = Z.of_nat k.
Proof.
  intros H. unfold Py.range.
  rewrite (nth_indep _ d (0 + Z.of_nat 0)%Z) by (rewrite length_map, length_seq; lia).
  rewrite (map_nth (fun i => (0 + Z.of_nat i)%Z)), seq_nth by lia. lia.
Qed.

Lemma in_combine_range {A} (a : list A) i x :
  In (i, x) (combine (Py.range 0 (Z.of_nat (length a))) a) ->
  (0 <= i < Z.of_nat (length a))%Z /\ nth_error a (Z.to_nat i) = Some x.
Proof.
  intros H. apply (In_nth _ _ (0%Z, x)) in H as (k & Hk & E).
  rewrite length_combine, range_length, Nat.min_id in Hk.
  rewrite combine_nth in E by apply range_length.
  rewrite range_nth in E by exact Hk. injection E as <- E.
  rewrite Nat2Z.id. split; [lia|]. rewrite <- E. now apply nth_error_nth'.
Qed.

Lemma nonzero2_bounds {A} (nz : A -> bool) (a : list (list A)) r c :
  In (r, c) (Np.nonzero2 nz a) ->
  (0 <= r < Z.of_nat (length a))%Z /\
  (0 <= c < Z.of_nat (length (nth (Z.to_nat r) a [])))%Z /\
  exists v, nth_error (nth (Z.to_nat r) a []) (Z.to_nat c) = Some v /\ nz v = true.
Proof.
  unfold Np.nonzero2. intros H. apply in_flat_map in H as ([r' row] & Hrow & H).
  apply in_map_iff in H as ([c' v] & E & H). injection E as <- <-.
  apply filter_In in H as [H Hv].
  apply in_combine_range in Hrow as [Hr Erow].
  apply in_combine_range in H as [Hc Ev].
  rewrite (nth_error_nth _ _ [] Erow). eauto.
Qed.

Lemma nonzero2_complete {A} (nz : A -> bool) (a : list (list A)) :
  (exists row v, In row a /\ In v row /\ nz v = true) -> Np.nonzero2 nz a <> [].
Proof.
  intros (row & v & Hrow & Hv & Hnz) E.
  assert (L : length (Np.nonzero2 nz a) = 0%nat) by now rewrite E.
  rewrite nonzero2_length in L.
  assert (I : In v (filter nz (Np.flatten a))).
  { apply filter_In. split; [|exact Hnz]. unfold Np.flatten. apply in_concat. eauto. }
  destruct (filter nz (Np.flatten a)); [destruct I|discriminate].
Qed.

Lemma grid_mask_rect dims inside : rect (grid_mask dims inside) (snd dims) (fst dims).
Proof.
  unfold grid_mask, rect. split.
  - rewrite length_map. apply range_length.
  - apply Forall_map, Forall_forall. intros i _. rewrite length_map. apply range_length.
Qed.

Lemma roi_mean_square img roi n :
  (0 < n)%nat -> rect img n n -> rect roi n n -> exists m, roi_mean img roi = inr m.
Proof.
  intros Hn Himg Hroi. unfold roi_mean.
  destruct (take2_valid 0%Z img (Np.nonzero2 (fun b : bool => b) roi)) as (vs & -> & _).
  - intros [r c] H. apply nonzero2_bounds in H as (Hr & Hc & _).
    destruct Hroi as [L R]. rewrite L in Hr.
    rewrite (rect_nth roi n n) in Hc by (try split; auto; lia).
    unfold valid_index2, valid_index. rewrite (rect_shape _ _ _ Himg Hn). cbn [fst snd]. lia.
  - cbn [bind ret]. eauto.
Qed.

Lemma in_flatten {A} (a : list (list A)) v :
  In v (Np.flatten a) -> exists row, In row a /\ In v row.
Proof.
  unfold Np.flatten. intros H. apply in_concat in H as (row & H1 & H2). eauto.
Qed.

Lemma occupied_rows_nonempty (m : Np.mask) : In true (Np.flatten m) -> occupied_rows m <> [].
Proof.
  intros H E. apply in_flatten in H as (row & Hrow & Ht).
  apply (In_nth _ _ []) in Hrow as (k & Hk & Ek).
  assert (I : In (Z.of_nat k) (occupied_rows m)); [|rewrite E in I; destruct I].
  unfold occupied_rows. apply in_map_iff. exists (Z.of_nat k, row). split; [reflexivity|].
  apply filter_In. split.
  - rewrite <- Ek, <- (range_nth (length m) k 0%Z Hk).
    rewrite <- combine_nth by apply range_length. apply nth_In.
    rewrite length_combine, range_length. lia.
  - apply existsb_exists. exists true. split; [rewrite <- Ek in Ht; now rewrite Ek in Ht|reflexivity].
Qed.

Lemma occupied_cols_nonempty (m : Np.mask) h w :
  rect m h w -> In true (Np.flatten m) -> occupied_cols m <> [].
Proof.
  intros Hm H E. apply in_flatten in H as (row & Hrow & Ht).
  assert (Hh : (0 < h)%nat).
  { destruct Hm as [L _]. destruct m; [destruct Hrow|cbn in L; lia]. }
  assert (Lrow : length row = w).
  { destruct Hm as [_ R]. rewrite Forall_forall in R. now apply R. }
  apply (In_nth _ _ false) in Ht as (k & Hk & Ek).
  assert (I : In (Z.of_nat k) (occupied_cols m)); [|rewrite E in I; destruct I].
  unfold occupied_cols. apply filter_In. split.
  - rewrite (rect_shape _ _ _ Hm Hh). cbn [snd].
    rewrite <- (range_nth w k 0%Z) by lia. apply nth_In. rewrite range_length. lia.
  - apply existsb_exists. exists row. split; [exact Hrow|]. now rewrite Nat2Z.id.
Qed.

Lemma fold_sum_le hi l : forall acc,
  Forall (fun q => q <= hi) l ->
  fold_left (fun a x => Qred (a + x)) l acc <= acc + inject_Z (Z.of_nat (length l)) * hi.
Proof.
  induction l as [|x l IH]; intros acc H; cbn [fold_left length].
  - cbn. rewrite Qmult_0_l, Qplus_0_r. apply Qle_refl.
  - inversion H; subst. eapply Qle_trans; [apply IH; assumption|].
    rewrite Qred_correct, Nat2Z.inj_succ, <- Z.add_1_r, inject_Z_plus.
    setoid_replace (acc + (inject_Z (Z.of_nat (length l)) + inject_Z 1) * hi)
      with (acc + hi + inject_Z (Z.of_nat (length l)) * hi) by ring.
    apply Qplus_le_compat; [|apply Qle_refl].
    apply Qplus_le_compat; [apply Qle_refl|assumption].
Qed.

(** The truncated mean of integers between 0 and [n - 1] lies there. *)
Lemma index_mean_bounds (l : list Z) (n : Z) :
  l <> [] -> Forall (fun i => (0 <= i < n)%Z) l ->
  (0 <= Np.trunc (Np.sum (map Zq l) / Zq (Z.of_nat (length l))) < n)%Z.
Proof.
  intros Hne H.
  set (len := Zq (Z.of_nat (length l))).
  assert (Hlen : 0 < len).
  { unfold len, Zq. change 0 with (inject_Z 0). rewrite <- Zlt_Qlt.
    destruct l; [contradiction|cbn; lia]. }
  assert (Lo : 0 <= Np.sum (map Zq l)).
  { apply UniformityBounds.sum_nonneg.
    apply Forall_map. eapply Forall_impl; [|exact H]. intros i Hi. cbn beta in Hi.
    unfold Zq. change 0 with (inject_Z 0). rewrite <- Zle_Qle. lia. }
  assert (Hi : Np.sum (map Zq l) <= len * Zq (n - 1)).
  { unfold Np.sum. eapply Qle_trans; [apply (fold_sum_le (Zq (n - 1)))|].
    - apply Forall_map. eapply Forall_impl; [|exact H]. intros i Hi. cbn beta in Hi.
      unfold Zq. rewrite <- Zle_Qle. lia.
    - rewrite length_map, Qplus_0_l. apply Qle_refl. }
  set (q := Np.sum (map Zq l) / len).
  assert (Q0 : 0 <= q).
  { unfold q. apply Qle_shift_div_l; [exact Hlen|]. now rewrite Qmult_0_l. }
  assert (Q1 : q <= Zq (n - 1)).
  { unfold q. apply Qle_shift_div_r; [exact Hlen|]. now rewrite Qmult_comm. }
  unfold Np.trunc.
  assert (E : Qle_bool 0 q = true) by now apply Qle_bool_iff.
  rewrite E. split.
  - change 0%Z with (Qfloor 0). now apply Qfloor_resp_le.
  - apply Z.le_lt_trans with (n - 1)%Z; [|lia].
    rewrite <- (Qfloor_Z (n - 1)). now apply Qfloor_resp_le.
Qed.

Section Bounds.
Variable area_opening_500 : Np.mask -> Np.mask.
Variable convex_hull_image : Np.mask -> Np.mask.

(** X20. The percent signal ghosting [get_signal_ghosting] returns is never
    negative. *)
Theorem get_signal_ghosting_nonneg img res p :
  get_signal_ghosting area_opening_500 convex_hull_image img res = inr (Some p) -> 0 <= p.
Proof.
  unfold get_signal_ghosting.
  destruct (ghosting_regions area_opening_500 convex_hull_image img res) as [e|rois]; cbn [bind]; [discriminate|].
  destruct (roi_mean img (lroi rois)) as [e|large]; cbn [bind]; [discriminate|].
  destruct (roi_mean img (w_ellipse rois)) as [e|w]; cbn [bind]; [discriminate|].
  destruct (roi_mean img (e_ellipse rois)) as [e|ee]; cbn [bind]; [discriminate|].
  destruct (roi_mean img (n_ellipse rois)) as [e|n]; cbn [bind]; [discriminate|].
  destruct (roi_mean img (s_ellipse rois)) as [e|s]; cbn [bind]; [discriminate|].
  unfold ret, percent_signal_ghosting.
  destruct large as [large|], w as [w|], ee as [ee|], n as [n|], s as [s|];
    try discriminate.
  destruct (Qeq_bool (2 * large) 0); [discriminate|].
  intros H.
  match type of H with inr (Some ?q) = _ => assert (Hq : p = q) by congruence end.
  rewrite Hq. apply round3_nonneg.
  apply Qmult_le_0_compat; [discriminate|apply Qabs_nonneg].
Qed.

Lemma occupied_cols_empty (m : Np.mask) :
  Forall (Forall (fun b => b = false)) m -> occupied_cols m = [].
Proof.
  intros H. unfold occupied_cols. apply SliceWidthFacts.filter_none. intros c _.
  clear -H. induction H as [|row m Hrow _ IH]; cbn [existsb]; [reflexivity|].
  rewrite IH, orb_false_r.
  destruct (Nat.lt_ge_cases (Z.to_nat c) (length row)) as [Hc|Hc].
  - rewrite Forall_forall in Hrow. apply Hrow, nth_In, Hc.
  - now apply nth_overflow.
Qed.


(** X22. The centroid [centroid_com] returns for a mask that is not empty
    is a pixel of the image: its column is below the width of the mask
    and its row below the height. *)
Theorem centroid_com_in_mask img mask cx cy h w :
  centroid_com area_opening_500 convex_hull_image img = inr (mask, (cx, cy)) ->
  rect mask h w -> In true (Np.flatten mask) ->
  (0 <= cx < Z.of_nat w)%Z /\ (0 <= cy < Z.of_nat h)%Z.
Proof.
  unfold centroid_com. destruct (Np.max img) as [e|mx]; cbn [bind]; [discriminate|].
  set (bhull := convex_hull_image _). unfold ret. intros E Hm Ht.
  assert (Em : bhull = mask) by congruence. rewrite Em in E. clearbody bhull. subst bhull.
  set (coords := Np.nonzero2 (fun b : bool => b) mask) in *.
  assert (Hne : coords <> []).
  { apply nonzero2_complete. apply in_flatten in Ht as (row & H1 & H2). now exists row, true. }
  assert (Hin : forall r c, In (r, c) coords ->
                  (0 <= r < Z.of_nat h)%Z /\ (0 <= c < Z.of_nat w)%Z).
  { intros r c H. apply nonzero2_bounds in H as (Hr & Hc & _).
    destruct Hm as [L R]. rewrite L in Hr.
    rewrite (rect_nth mask h w) in Hc by (try split; auto; lia). lia. }
  assert (N : Qeq_bool (Zq (Z.of_nat (length coords))) 0 = false).
  { destruct (Qeq_bool _ 0) eqn:Q; [|reflexivity]. apply Qeq_bool_iff in Q.
    unfold Zq, Qeq, inject_Z in Q. cbn [Qnum Qden] in Q.
    assert (length coords <> 0%nat)
      by (intros L0; apply length_zero_iff_nil in L0; contradiction).
    lia. }
  rewrite N in E. cbn [fst snd Np.astype_int] in E.
  assert (Ex : cx = Np.trunc (Np.sum (map (fun rc => Zq (snd rc)) coords)
                              / Zq (Z.of_nat (length coords)))) by congruence.
  assert (Ey : cy = Np.trunc (Np.sum (map (fun rc => Zq (fst rc)) coords)
                              / Zq (Z.of_nat (length coords)))) by congruence.
  rewrite <- (length_map snd coords) in Ex. rewrite <- (length_map fst coords) in Ey.
  rewrite <- (map_map snd Zq) in Ex. rewrite <- (map_map fst Zq) in Ey.
  subst cx cy. split; apply index_mean_bounds.
  - intros H. apply map_eq_nil in H. contradiction.
  - apply Forall_map, Forall_forall. intros [r c] H. apply (Hin r c H).
  - intros H. apply map_eq_nil in H. contradiction.
  - apply Forall_map, Forall_forall. intros [r c] H. apply (Hin r c H).
Qed.

(** X23. On a square image with a positive pixel spacing whose hull mask
    is not empty, [get_signal_ghosting] raises nothing: it returns a
    number or [nan]. *)
Theorem get_signal_ghosting_square img res n mask cxy h w :
  0 < fst res -> 0 < snd res ->
  (0 < n)%nat -> rect img n n ->
  centroid_com area_opening_500 convex_hull_image img = inr (mask, cxy) ->
  rect mask h w -> In true (Np.flatten mask) ->
  exists r, get_signal_ghosting area_opening_500 convex_hull_image img res = inr r.
Proof.
  intros _ _ Hn Himg Hc Hm Ht. unfold get_signal_ghosting, ghosting_regions.
  rewrite Hc. cbn [bind]. rewrite (rect_shape _ _ _ Himg Hn).
  pose proof (occupied_cols_nonempty mask h w Hm Ht) as Cn.
  pose proof (occupied_rows_nonempty mask Ht) as Rn.
  assert (F : forall l, l <> [] -> exists a, first l = inr a)
    by (intros [|a l] H; [contradiction|now exists a]).
  assert (L : forall l, l <> [] -> exists a, last l = inr a).
  { intros l H. apply F. intros E. apply H. apply (f_equal (@rev Z)) in E.
    now rewrite rev_involutive in E. }
  destruct (F _ Cn) as (wp & ->). destruct (L _ Cn) as (ep & ->).
  destruct (F _ Rn) as (np & ->). destruct (L _ Rn) as (sp & ->).
  cbn [bind ret lroi w_ellipse e_ellipse n_ellipse s_ellipse].
  unfold ellipse_x, ellipse_y.
  repeat match goal with
  | |- context [roi_mean img (grid_mask (n, n) ?f)] =>
      let m := fresh "m" in
      destruct (roi_mean_square img (grid_mask (n, n) f) n Hn Himg
                  (grid_mask_rect (n, n) f)) as (m & ->); cbn [bind]
  end.
  eauto.
Qed.

End Bounds.

Lemma existsb_In (l : list bool) : existsb (fun b => b) l = true -> In true l.
Proof. intros H. apply existsb_exists in H as (b & Hb & ->). exact Hb. Qed.

Lemma get_signal_ghosting_nonneg_witness : 0 <= 141 # 1000.
Proof.
  apply (get_signal_ghosting_nonneg (fun m => m) (fun m => m) phantom_ghost (5, 5)).
  vm_compute. reflexivity.
Defined.


Lemma centroid_com_in_mask_witness : (0 <= 19 < 40)%Z /\ (0 <= 19 < 40)%Z.
Proof.
  eapply (centroid_com_in_mask (fun m => m) (fun m => m) phantom_dark _ 19 19 40 40).
  - vm_compute. reflexivity.
  - split; [reflexivity|]. repeat constructor.
  - apply existsb_In. vm_compute. reflexivity.
Defined.

Lemma get_signal_ghosting_square_witness :
  exists r, get_signal_ghosting (fun m => m) (fun m => m) phantom_dark (5, 5) = inr r.
Proof.
  eapply (get_signal_ghosting_square (fun m => m) (fun m => m) phantom_dark (5, 5) 40 _ _ 40 40).
  - reflexivity.
  - reflexivity.
  - lia.
  - split; [reflexivity|]. repeat constructor.
  - vm_compute. reflexivity.
  - split; [reflexivity|]. repeat constructor.
  - apply existsb_In. vm_compute. reflexivity.
Defined.

End GhostingBounds.

(** ** The scale of the intensities *)

Module GhostingScale.
Import Uniformity Ghosting GhostingRun Samples UniformityFacts.
Local Open Scope Q_scope.

Lemma round_half_even_comp x y : x == y -> Np.round_half_even x = Np.round_half_even y.
Proof.
  intros H. unfold Np.round_half_even, Np.ltb.
  rewrite (Qfloor_comp _ _ H).
  assert (E : x - inject_Z (Qfloor y) == y - inject_Z (Qfloor y)) by now rewrite H.
  now rewrite !(Qleb_comp _ _ (Qeq_refl _) _ _ E), !(Qleb_comp _ _ E _ _ (Qeq_refl _)).
Qed.

Lemma round3_comp x y : x == y -> round3 x = round3 y.
Proof.
  intros H. unfold round3.
  rewrite (round_half_even_comp (x * 1000) (y * 1000)) by now rewrite H. reflexivity.
Qed.

Section Scale.
Variable k : Z.
Hypothesis k_pos : (0 < k)%Z.

Lemma Zq_k_pos : 0 < Zq k.
Proof. unfold Zq. change 0 with (inject_Z 0). now rewrite <- Zlt_Qlt. Qed.

Lemma flatten_rescale img : Np.flatten (rescale k img) = map (Z.mul k) (Np.flatten img).
Proof. unfold Np.flatten, rescale. now rewrite concat_map. Qed.

Lemma fold_max_scale l : forall p,
  fold_left Z.max (map (Z.mul k) l) (k * p)%Z = (k * fold_left Z.max l p)%Z.
Proof.
  induction l as [|x l IH]; intros p; cbn [map fold_left]; [reflexivity|].
  rewrite Z.mul_max_distr_nonneg_l by lia. apply IH.
Qed.

Lemma max_rescale img :
  Np.max (rescale k img) = match Np.max img with inl e => inl e | inr m => inr (k * m)%Z end.
Proof.
  unfold Np.max. rewrite flatten_rescale.
  destruct (Np.flatten img) as [|p ps]; [reflexivity|]. cbn [map ret].
  now rewrite fold_max_scale.
Qed.

Lemma shape_rescale img : Np.shape (rescale k img) = Np.shape img.
Proof.
  unfold Np.shape, rescale. rewrite length_map. f_equal.
  destruct img as [|row img]; [reflexivity|]. cbn. apply length_map.
Qed.

Lemma ltb_scale q a b :
  0 < q -> Np.ltb (q * a) (q * b) = Np.ltb a b.
Proof.
  intros Hq. unfold Np.ltb. f_equal.
  apply eq_true_iff_eq. rewrite !Qle_bool_iff.
  apply (Qmult_le_l b a q Hq).
Qed.

Lemma nth_scale c row : nth c (map (Z.mul k) row) 0%Z = (k * nth c row 0)%Z.
Proof.
  revert c. induction row as [|v row IH]; intros [|c]; cbn [map nth]; auto; lia.
Qed.

Lemma getitem2_rescale img r c :
  Np.getitem2 0%Z (rescale k img) r c
  = SliceWidth.map_result (Z.mul k) (Np.getitem2 0%Z img r c).
Proof.
  unfold Np.getitem2. rewrite shape_rescale.
  destruct (Np.axis_index r _) as [e|r']; cbn [bind SliceWidth.map_result]; [reflexivity|].
  destruct (Np.axis_index c _) as [e|c']; cbn [bind SliceWidth.map_result ret]; [reflexivity|].
  unfold ret. f_equal. unfold rescale.
  replace (nth r' (map (map (Z.mul k)) img) []) with (map (Z.mul k) (nth r' img []))
    by (symmetry; apply (map_nth (map (Z.mul k)) img [] r')).
  apply nth_scale.
Qed.

Lemma take2_rescale img idx :
  Np.take2 0%Z (rescale k img) idx
  = SliceWidth.map_result (map (Z.mul k)) (Np.take2 0%Z img idx).
Proof.
  induction idx as [|[r c] idx IH]; cbn [Np.take2]; [reflexivity|].
  rewrite getitem2_rescale, IH.
  destruct (Np.getitem2 0%Z img r c) as [e|v]; cbn [bind SliceWidth.map_result];
    [reflexivity|].
  destruct (Np.take2 0%Z img idx) as [e|vs]; reflexivity.
Qed.

Lemma fold_sum_scale l : forall a a',
  a' == Zq k * a ->
  fold_left (fun a x => Qred (a + x)) (map inject_Z (map (Z.mul k) l)) a'
  == Zq k * fold_left (fun a x => Qred (a + x)) (map inject_Z l) a.
Proof.
  induction l as [|x l IH]; intros a a' H; cbn [map fold_left]; [exact H|].
  apply IH. rewrite !Qred_correct, H, inject_Z_mult. unfold Zq. ring.
Qed.

Lemma mean_rescale vs :
  scaled k (Np.mean (map inject_Z vs)) (Np.mean (map inject_Z (map (Z.mul k) vs))).
Proof.
  destruct vs as [|v vs]; [exact I|].
  unfold Np.mean, scaled. cbn [map]. rewrite !Qred_correct.
  unfold Np.sum.
  change (inject_Z (k * v) :: map inject_Z (map (Z.mul k) vs))
    with (map inject_Z (map (Z.mul k) (v :: vs))).
  change (inject_Z v :: map inject_Z vs) with (map inject_Z (v :: vs)).
  rewrite (fold_sum_scale (v :: vs) 0 0) by ring.
  rewrite !length_map. unfold Zq, Qdiv. ring.
Qed.

Lemma roi_mean_rescale img roi :
  match roi_mean img roi, roi_mean (rescale k img) roi with
  | inr a, inr b => scaled k a b
  | inl e, inl e' => e = e'
  | _, _ => False
  end.
Proof.
  unfold roi_mean. rewrite take2_rescale.
  destruct (Np.take2 0%Z img _) as [e|vs]; cbn [bind SliceWidth.map_result ret];
    [reflexivity|].
  apply mean_rescale.
Qed.

Lemma psg_scaled l l' w w' e e' n n' s s' :
  scaled k l l' -> scaled k w w' -> scaled k e e' -> scaled k n n' -> scaled k s s' ->
  percent_signal_ghosting l' w' e' n' s' = percent_signal_ghosting l w e n s.
Proof.
  pose proof Zq_k_pos as Kp.
  assert (Kn : ~ inject_Z k == 0).
  { intros H. unfold Zq in Kp. rewrite H in Kp. now apply (Qlt_irrefl 0). }
  unfold scaled, percent_signal_ghosting.
  destruct l as [l|], l' as [l'|]; try contradiction; intros Hl;
    destruct w as [w|], w' as [w'|]; try contradiction; intros Hw;
    destruct e as [e|], e' as [e'|]; try contradiction; intros He;
    destruct n as [n|], n' as [n'|]; try contradiction; intros Hn;
    destruct s as [s|], s' as [s'|]; try contradiction; intros Hs;
    try reflexivity.
  destruct (Qeq_bool (2 * l) 0) eqn:E.
  - apply Qeq_bool_iff in E.
    assert (E' : Qeq_bool (2 * l') 0 = true).
    { apply Qeq_bool_iff. rewrite Hl.
      setoid_replace (2 * (inject_Z k * l)) with (inject_Z k * (2 * l)) by ring.
      rewrite E. ring. }
    now rewrite E'.
  - assert (Ln : ~ 2 * l == 0) by now apply Qeq_bool_neq.
    assert (Ln' : ~ l == 0) by (intros H; apply Ln; rewrite H; ring).
    assert (E' : Qeq_bool (2 * l') 0 = false).
    { destruct (Qeq_bool (2 * l') 0) eqn:E2; [|reflexivity].
      apply Qeq_bool_iff in E2. rewrite Hl in E2.
      exfalso. apply Ln.
      assert (X : inject_Z k * (2 * l) == 0) by (rewrite <- E2; ring).
      apply Qmult_integral in X as [X|X]; [contradiction|exact X]. }
    rewrite E'. f_equal. apply round3_comp.
    apply Qmult_comp; [reflexivity|]. apply Qabs_wd.
    rewrite Hl, Hw, He, Hn, Hs. field. split; assumption.
Qed.

Section Regions.
Variable area_opening_500 : Np.mask -> Np.mask.
Variable convex_hull_image : Np.mask -> Np.mask.

Lemma centroid_rescale img :
  centroid_com area_opening_500 convex_hull_image (rescale k img)
  = centroid_com area_opening_500 convex_hull_image img.
Proof.
  unfold centroid_com. rewrite max_rescale.
  destruct (Np.max img) as [e|mx]; cbn [bind]; [reflexivity|].
  replace (map (map (fun v => Np.ltb ((25 # 100) * Zq (k * mx)) (Zq v))) (rescale k img))
    with (map (map (fun v => Np.ltb ((25 # 100) * Zq mx) (Zq v))) img); [reflexivity|].
  unfold rescale. rewrite map_map. apply map_ext. intros row.
  rewrite map_map. apply map_ext. intros v.
  rewrite <- (ltb_scale (Zq k) _ (Zq v) Zq_k_pos).
  unfold Np.ltb. f_equal. apply Qleb_comp.
  - unfold Zq. now rewrite inject_Z_mult.
  - unfold Zq. rewrite inject_Z_mult. ring.
Qed.

Lemma regions_rescale img res :
  ghosting_regions area_opening_500 convex_hull_image (rescale k img) res
  = ghosting_regions area_opening_500 convex_hull_image img res.
Proof.
  unfold ghosting_regions. now rewrite centroid_rescale, shape_rescale.
Qed.

(** X24. The percent signal ghosting does not depend on the scale of the
    intensities: multiplying every pixel by a positive integer leaves the
    result of [get_signal_ghosting] as it is, errors included. *)
Theorem get_signal_ghosting_rescale img res :
  get_signal_ghosting area_opening_500 convex_hull_image (rescale k img) res
  = get_signal_ghosting area_opening_500 convex_hull_image img res.
Proof.
  unfold get_signal_ghosting. rewrite regions_rescale.
  destruct (ghosting_regions _ _ img res) as [e|rois]; cbn [bind]; [reflexivity|].
  pose proof (roi_mean_rescale img (lroi rois)) as Hl.
  pose proof (roi_mean_rescale img (w_ellipse rois)) as Hw.
  pose proof (roi_mean_rescale img (e_ellipse rois)) as He.
  pose proof (roi_mean_rescale img (n_ellipse rois)) as Hn.
  pose proof (roi_mean_rescale img (s_ellipse rois)) as Hs.
  destruct (roi_mean img (lroi rois)), (roi_mean (rescale k img) (lroi rois));
    try contradiction; cbn [bind]; [now subst|].
  destruct (roi_mean img (w_ellipse rois)), (roi_mean (rescale k img) (w_ellipse rois));
    try contradiction; cbn [bind]; [now subst|].
  destruct (roi_mean img (e_ellipse rois)), (roi_mean (rescale k img) (e_ellipse rois));
    try contradiction; cbn [bind]; [now subst|].
  destruct (roi_mean img (n_ellipse rois)), (roi_mean (rescale k img) (n_ellipse rois));
    try contradiction; cbn [bind]; [now subst|].
  destruct (roi_mean img (s_ellipse rois)), (roi_mean (rescale k img) (s_ellipse rois));
    try contradiction; cbn [bind]; [now subst|].
  unfold ret. f_equal. now apply psg_scaled.
Qed.

End Regions.
End Scale.

Lemma get_signal_ghosting_rescale_witness :
  get_signal_ghosting (fun m => m) (fun m => m) (rescale 3 phantom_ghost) (5, 5)
  = get_signal_ghosting (fun m => m) (fun m => m) phantom_ghost (5, 5).
Proof. apply get_signal_ghosting_rescale. reflexivity. Defined.

End GhostingScale.

(** ** The ghosting task *)

Module RunFacts.
Import Ghosting GhostingRun.

Lemma take2_error {A} (d : A) a idx e : Np.take2 d a idx = inl e -> e = IndexError.
Proof.
  induction idx as [|[r c] idx IH]; cbn [Np.take2]; [discriminate|].
  unfold Np.getitem2, Np.axis_index.
  destruct ((0 <=? r) && _); [|destruct ((_ <=? r) && _)]; cbn [bind ret raise];
    try (now intros [= <-]);
    (destruct ((0 <=? c) && _); [|destruct ((_ <=? c) && _)]); cbn [bind ret raise];
    try (now intros [= <-]);
    (destruct (Np.take2 d a idx) as [e'|vs]; cbn [bind]; [|discriminate]);
    intros [= <-]; now apply IH.
Qed.

Lemma roi_mean_error img roi e : roi_mean img roi = inl e -> e = IndexError.
Proof.
  unfold roi_mean. destruct (Np.take2 _ _ _) as [e'|vs] eqn:E; cbn [bind]; [|discriminate].
  intros [= <-]. eapply take2_error; eauto.
Qed.

Lemma first_error l e : first l = inl e -> e = IndexError.
Proof. destruct l; cbn; [now intros [= <-]|discriminate]. Qed.

Section Run.
Variable area_opening_500 : Np.mask -> Np.mask.
Variable convex_hull_image : Np.mask -> Np.mask.
Variable key : dicom -> String.string.
Variable report_files : list String.string.

Local Abbreviation ghosting := (get_signal_ghosting area_opening_500 convex_hull_image).
Local Abbreviation run := (GhostingRun.run area_opening_500 convex_hull_image key report_files).
Local Abbreviation run_step := (GhostingRun.run_step area_opening_500 convex_hull_image key).

(** The measurement raises nothing but [ValueError] (an image without
    pixels) and [IndexError]. *)
Lemma ghosting_error img res e :
  ghosting img res = inl e -> e = ValueError \/ e = IndexError.
Proof.
  unfold get_signal_ghosting.
  destruct (ghosting_regions _ _ img res) as [e'|rois] eqn:R; cbn [bind].
  - intros [= <-]. unfold ghosting_regions, centroid_com in R.
    destruct (Np.max img) as [e1|mx] eqn:M; cbn [bind ret] in R.
    + injection R as <-. left. unfold Np.max in M.
      destruct (Np.flatten img); [now injection M as <-|discriminate].
    + right.
      repeat match type of R with
      | context [bind (first ?l)] =>
          let E := fresh "E" in
          destruct (first l) as [?|?] eqn:E; cbn [bind] in R;
          [injection R as <-; now apply first_error in E|]
      | context [bind (last ?l)] =>
          let E := fresh "E" in
          destruct (last l) as [?|?] eqn:E; cbn [bind] in R;
          [injection R as <-; now apply first_error in E|]
      end.
      discriminate.
  - repeat match goal with
    | |- context [bind (roi_mean img ?r)] =>
        let E := fresh "E" in
        destruct (roi_mean img r) as [?|?] eqn:E; cbn [bind];
        [intros [= <-]; right; now apply roi_mean_error in E|]
    end.
    discriminate.
Qed.

Lemma fold_inl (f : result (list (String.string * value)) -> dicom ->
                    result (list (String.string * value))) data e :
  (forall d, f (inl e) d = inl e) -> fold_left f data (inl e) = inl e.
Proof. intros H. induction data as [|d data IH]; cbn; [reflexivity|]. now rewrite H. Qed.

Lemma argsort_length z : length (argsort z) = length z.
Proof.
  unfold argsort. rewrite length_map.
  rewrite (Permutation_length (PyFacts.sorted_perm snd _)).
  rewrite length_combine, UniformityFacts.range_length. lia.
Qed.

Lemma argsort_in z i : In i (argsort z) -> 0 <= i < Z.of_nat (length z).
Proof.
  unfold argsort. intros H. apply in_map_iff in H as ([i' q] & <- & H).
  apply (Permutation_in _ (PyFacts.sorted_perm snd _)) in H.
  apply in_combine_l in H. unfold Py.range in H.
  apply in_map_iff in H as (k & <- & Hk). apply in_seq in Hk. cbn [fst]. lia.
Qed.

Lemma run_step_returns z results dcm :
  (6 < length z)%nat -> exists results', run_step z (argsort z) results dcm = inr results'.
Proof.
  intros Hz. unfold GhostingRun.run_step, Np.index.
  destruct (nth_error (argsort z) 6) as [i|] eqn:E.
  - cbn [bind ret]. apply nth_error_In, argsort_in in E.
    rewrite UniformityFacts.axis_index_nonneg by exact E. cbn [bind].
    destruct (nth_error z (Z.to_nat i)) as [z6|] eqn:E6.
    + cbn [bind ret]. destruct (Qeq_bool _ z6); [|eauto].
      destruct (ghosting _ _) as [e|r] eqn:G; [|eauto].
      apply ghosting_error in G as [-> | ->]; cbn; eauto.
    + apply nth_error_None in E6. lia.
  - apply nth_error_None in E. rewrite argsort_length in E. lia.
Qed.

(** X25. [run] takes the seventh slice by position: without any data set it
    returns the report entry alone, with one to six it raises
    [IndexError], and with seven or more it returns, whatever the
    measurement raises. *)
Theorem run_needs_seven_slices (data : list dicom) :
  (data = [] -> run data = inr [("reports"%string, Reports report_files)]) /\
  (data <> [] -> (length data < 7)%nat -> run data = inl IndexError) /\
  ((7 <= length data)%nat -> exists results, run data = inr results).
Proof.
  split; [intros ->; reflexivity|]. split.
  - intros Hne Hlen. unfold GhostingRun.run.
    destruct data as [|d data]; [contradiction|]. cbn [fold_left bind ret].
    set (z := map position_z (d :: data)).
    assert (E : run_step z (argsort z) [] d = inl IndexError).
    { unfold GhostingRun.run_step, Np.index.
      assert (N : nth_error (argsort z) 6 = None).
      { apply nth_error_None. rewrite argsort_length. unfold z. rewrite length_map. lia. }
      now rewrite N. }
    rewrite E, fold_inl; reflexivity.
  - intros Hlen. unfold GhostingRun.run.
    set (z := map position_z data).
    assert (Hz : (6 < length z)%nat) by (unfold z; rewrite length_map; lia).
    assert (F : forall l acc, exists r,
              fold_left (fun acc dcm => results <- acc ;; run_step z (argsort z) results dcm)
                l (inr acc) = inr r).
    { induction l as [|d l IH]; intros acc; cbn [fold_left bind]; [eauto|].
      destruct (run_step_returns z acc d Hz) as (r1 & ->). apply IH. }
    destruct (F data []) as (r & Hr). unfold ret. rewrite Hr. cbn [bind]. eauto.
Qed.

End Run.
End RunFacts.

(** ** The order of an image stack *)

Module StackFacts.
Import SliceWidth Relaxometry RelaxometryStack Samples.

Section Sort.
Context {A : Type} (key : A -> Q).

Lemma insert_head a l :
  (forall b, In b l -> (key a <= key b)%Q) -> Py.insert key a l = a :: l.
Proof.
  destruct l as [|b l]; intros H; cbn; [reflexivity|].
  assert (E : Qle_bool (key a) (key b) = true) by (apply Qle_bool_iff, H; now left).
  now rewrite E.
Qed.

(** Sorting a sorted list changes nothing. *)
Lemma sorted_fixed l : StronglySorted (PyFacts.key_le key) l -> Py.sorted key l = l.
Proof.
  induction 1 as [|a l Hl IH Ha]; [reflexivity|].
  change (Py.sorted key (a :: l)) with (Py.insert key a (Py.sorted key l)).
  rewrite IH. apply insert_head. now apply Forall_forall.
Qed.

(** The sort is stable: the elements with one value of the key keep their
    order. *)
Lemma insert_filter (p : A -> bool) a l :
  (forall b, (key b < key a)%Q -> p a = true -> p b = false) ->
  filter p (Py.insert key a l) = filter p (a :: l).
Proof.
  intros H. induction l as [|b l IH]; [reflexivity|].
  cbn [Py.insert]. destruct (Qle_bool (key a) (key b)) eqn:E; [reflexivity|].
  assert (Hb : (key b < key a)%Q).
  { apply Qnot_le_lt. intros Hle. apply Qle_bool_iff in Hle. congruence. }
  cbn [filter] in *. rewrite IH.
  destruct (p a) eqn:Pa; [|reflexivity].
  now rewrite (H b Hb eq_refl).
Qed.

Lemma sorted_stable (v : Q) l :
  filter (fun x => Qeq_bool (key x) v) (Py.sorted key l)
  = filter (fun x => Qeq_bool (key x) v) l.
Proof.
  induction l as [|a l IH]; [reflexivity|].
  change (Py.sorted key (a :: l)) with (Py.insert key a (Py.sorted key l)).
  rewrite insert_filter.
  - cbn [filter]. now rewrite IH.
  - intros b Hb Ha. apply Qeq_bool_iff in Ha.
    destruct (Qeq_bool (key b) v) eqn:E; [|reflexivity].
    apply Qeq_bool_iff in E. rewrite <- Ha in E. rewrite E in Hb.
    exfalso. now apply (Qlt_irrefl (key a)).
Qed.

End Sort.

Section ImageStack.
Variable dicom : Type.
Variable attribute : dicom -> String.string -> option Q.

Local Abbreviation order_by := (RelaxometryStack.order_by dicom attribute).
Local Abbreviation ordered_by := (RelaxometryStack.ordered_by dicom attribute).
Local Abbreviation with_value := (RelaxometryStack.with_value dicom attribute).

Lemma all_some_spec {B} (l : list (option B)) keys :
  all_some l = Some keys -> l = map Some keys.
Proof.
  revert keys. induction l as [|[b|] l IH]; intros keys; cbn.
  - now intros [= <-].
  - destruct (all_some l) as [ks|]; cbn; [|discriminate].
    intros [= <-]. cbn. f_equal. now apply IH.
  - discriminate.
Qed.

Lemma all_some_none {B} (l : list (option B)) :
  all_some l = None <-> In None l.
Proof.
  induction l as [|[b|] l IH]; cbn.
  - split; [discriminate|intros []].
  - destruct (all_some l) as [ks|]; cbn.
    + split; [discriminate|]. intros [H|H]; [discriminate|]. now apply IH in H.
    + split; [|reflexivity]. intros _. right. now apply IH.
  - split; auto.
Qed.

(** The decorated pairs carry the attribute of their image. *)
Lemma decorated att images keys :
  map (fun x => attribute x att) images = map Some keys ->
  forall p, In p (combine keys images) -> attribute (snd p) att = Some (fst p).
Proof.
  revert keys. induction images as [|x images IH]; intros [|k keys] H p Hp;
    cbn in *; try destruct Hp; try discriminate.
  - subst p. cbn. congruence.
  - injection H as H1 H2. now apply (IH keys).
Qed.

Lemma combine_snd {B C} (l1 : list B) (l2 : list C) :
  length l1 = length l2 -> map snd (combine l1 l2) = l2.
Proof.
  revert l2. induction l1 as [|a l1 IH]; intros [|b l2] H; cbn in *; try lia; auto.
  f_equal. apply IH. lia.
Qed.

Lemma all_some_map_Some {B} (ks : list B) : all_some (map Some ks) = Some ks.
Proof. induction ks as [|k ks IH]; cbn; [reflexivity|]. now rewrite IH. Qed.

Lemma combine_fst_snd {B C} (s : list (B * C)) : combine (map fst s) (map snd s) = s.
Proof. induction s as [|[a b] s IH]; cbn; [reflexivity|]. now rewrite IH. Qed.

Lemma filter_map_snd {B} (f : dicom -> bool) (g : B * dicom -> bool) (s : list (B * dicom)) :
  (forall p, In p s -> f (snd p) = g p) ->
  filter f (map snd s) = map snd (filter g s).
Proof.
  induction s as [|p s IH]; intros H; cbn; [reflexivity|].
  rewrite (H p) by now left. rewrite IH by (intros; apply H; now right).
  now destruct (g p).
Qed.

(** What [order_by] returns, through the sorted list of the decorated
    pairs. *)
Lemma order_by_decorated images att l :
  order_by images att = Some l ->
  exists keys s,
    map (fun x => attribute x att) images = map Some keys /\
    s = Py.sorted fst (combine keys images) /\ l = map snd s /\
    (forall p, In p s -> attribute (snd p) att = Some (fst p)).
Proof.
  unfold RelaxometryStack.order_by.
  destruct (all_some _) as [keys|] eqn:E; [|discriminate]. intros [= <-].
  apply all_some_spec in E. exists keys, (Py.sorted fst (combine keys images)).
  repeat split; auto. intros p Hp. apply (decorated att images keys E).
  eapply Permutation_in; [apply PyFacts.sorted_perm|exact Hp].
Qed.

(** X26. [order_by] keeps every image, puts the images in ascending order of
    the attribute, and leaves images with the same value in the order
    they had. *)
Theorem order_by_sorts images att l :
  order_by images att = Some l ->
  Permutation l images /\ ordered_by att l /\
  forall v, with_value att v l = with_value att v images.
Proof.
  intros H. destruct (order_by_decorated images att l H) as (keys & s & E & Es & El & Hs).
  assert (Len : length keys = length images).
  { apply (f_equal (@length _)) in E. rewrite !length_map in E. auto. }
  assert (Hc : forall p, In p (combine keys images) -> attribute (snd p) att = Some (fst p))
    by apply (decorated att images keys E).
  subst l. split; [|split].
  - apply Permutation_trans with (map snd (combine keys images)).
    + apply Permutation_map. subst s. apply PyFacts.sorted_perm.
    + now rewrite combine_snd.
  - assert (S : StronglySorted (PyFacts.key_le fst) s)
      by (subst s; apply PyFacts.sorted_sorted).
    clear Es Hc H. revert Hs.
    induction S as [|p s Ss IH Hp]; intros Hs; cbn [map]; constructor.
    + apply IH. intros q Hq. apply Hs. now right.
    + apply Forall_map. rewrite Forall_forall in Hp. apply Forall_forall. intros q Hq.
      rewrite (Hs p) by now left. rewrite (Hs q) by now right. now apply Hp.
  - intros v. unfold RelaxometryStack.with_value.
    rewrite (filter_map_snd _ (fun p => Qeq_bool (fst p) v) s)
      by (intros p Hp; now rewrite (Hs p Hp)).
    subst s. rewrite (sorted_stable fst).
    rewrite <- (filter_map_snd
                  (fun x => match attribute x att with
                            | Some q => Qeq_bool q v
                            | None => false
                            end))
      by (intros p Hp; now rewrite (Hc p Hp)).
    now rewrite combine_snd.
Qed.

(** X27. Ordering an ordered stack again by the same attribute changes
    nothing. *)
Theorem order_by_idempotent images att l :
  order_by images att = Some l -> order_by l att = Some l.
Proof.
  intros H. destruct (order_by_decorated images att l H) as (keys & s & E & Es & El & Hs).
  unfold RelaxometryStack.order_by.
  assert (K : map (fun x => attribute x att) l = map Some (map fst s)).
  { subst l. rewrite !map_map. apply map_ext_in. intros p Hp. now apply Hs. }
  rewrite K, all_some_map_Some. subst l. rewrite combine_fst_snd.
  rewrite sorted_fixed; [reflexivity|]. subst s. apply PyFacts.sorted_sorted.
Qed.

(** X28. [order_by] fails (the [KeyError] of pydicom) exactly when an image
    lacks the attribute. *)
Theorem order_by_key_error images att :
  order_by images att = None <-> exists x, In x images /\ attribute x att = None.
Proof.
  unfold RelaxometryStack.order_by. split.
  - destruct (all_some _) eqn:E; [discriminate|]. intros _.
    apply all_some_none in E. apply in_map_iff in E as (x & Hx & Hin). eauto.
  - intros (x & Hin & Hx).
    assert (E : all_some (map (fun x => attribute x att) images) = None).
    { apply all_some_none. apply in_map_iff. eauto. }
    now rewrite E.
Qed.

End ImageStack.

Lemma order_by_sorts_witness :
  let l := [(2, 50%Q); (4, 50%Q); (1, 500%Q); (3, 2000%Q)] in
  Permutation l images_ex /\
  RelaxometryStack.ordered_by (Z * Q) attribute_ex "InversionTime"%string l /\
  forall v,
    RelaxometryStack.with_value (Z * Q) attribute_ex "InversionTime"%string v l
    = RelaxometryStack.with_value (Z * Q) attribute_ex "InversionTime"%string v images_ex.
Proof.
  apply (order_by_sorts (Z * Q)%type attribute_ex images_ex "InversionTime"%string).
  vm_compute. reflexivity.
Defined.

Lemma order_by_idempotent_witness :
  RelaxometryStack.order_by (Z * Q) attribute_ex
    [(2, 50%Q); (4, 50%Q); (1, 500%Q); (3, 2000%Q)] "InversionTime"%string
  = Some [(2, 50%Q); (4, 50%Q); (1, 500%Q); (3, 2000%Q)].
Proof.
  apply (order_by_idempotent (Z * Q)%type attribute_ex images_ex "InversionTime"%string).
  vm_compute. reflexivity.
Defined.

End StackFacts.

(** ** The inverse transform from the other side *)

Module TransformFacts.
Import Relaxometry RelaxometryFacts.
Local Open Scope Q_scope.

Lemma inverse_first_point (m : affine) (x y : Q) :
  ~ determinant m == 0 ->
  let m' := cv_invertAffineTransform m in
  let x1 := m00 m' * x + m01 m' * y + m02 m' in
  let y1 := m10 m' * x + m11 m' * y + m12 m' in
  m00 m * x1 + m01 m * y1 + m02 m == x /\
  m10 m * x1 + m11 m * y1 + m12 m == y.
Proof.
  intros Hd. unfold cv_invertAffineTransform.
  destruct (Qeq_bool (determinant m) 0) eqn:E; [apply Qeq_bool_iff in E; contradiction|].
  unfold determinant in *. cbn [m00 m01 m02 m10 m11 m12].
  split; field; exact Hd.
Qed.

Lemma floats_not_empty (m : affine) (b : bool) (pts : list (Q * Q)) :
  pts <> [] ->
  (if b then swap else fun l => l) (map (cv_transform_point m) pts) <> [].
Proof.
  destruct pts as [|p pts]; [contradiction|]. intros _. destruct b; discriminate.
Qed.



End TransformFacts.
